(** * Adaptive EKF sensor fusion: a shallow embedding of [EKFAdaptiveFilter.cpp]

    The node fuses inertial, wheel and scan-matched lidar odometry into a
    12-dimensional pose/velocity estimate.  This development embeds the
    estimator (prediction model, three corrections, numeric Jacobians,
    adaptive covariance), the three message handlers and the body of the
    fixed-rate loop, and proves properties of them.

    Numeric model.  A C++ [double] (and [float]) is idealised as a real
    number of [R]; rounding is not modelled.  An operation that has no real
    value (division by a zero denominator, [tan] where the cosine vanishes,
    the inverse of a singular matrix) yields [None]: in the program it yields
    an infinity or a NaN, which then spreads through the estimate.  An
    [Eigen::VectorXd] is a list of reals, an [Eigen::MatrixXd] a list of rows;
    their sizes are the ones fixed by [allocateMemory]. *)

From Stdlib Require Import String Ascii.
From Stdlib Require Import Reals Lra Lia List Bool Arith ZArith.
From Stdlib Require Import ClassicalEpsilon RNsatz.
Import ListNotations.
Open Scope R_scope.

(* ================================================================== *)
(** * Part I: the embedding *)
(* ================================================================== *)

(** ** Undefined results *)

Definition bind {A B : Type} (o : option A) (f : A -> option B) : option B :=
  match o with
  | Some a => f a
  | None => None
  end.

Notation "x <- e ;; k" := (bind e (fun x => k))
  (at level 61, e at next level, right associativity).

(** Division by a run-time denominator, and the tangent. *)
Definition fdiv (a b : R) : option R :=
  if Req_dec_T b 0 then None else Some (a / b).

Definition ftan (x : R) : option R :=
  if Req_dec_T (cos x) 0 then None else Some (tan x).

(** [atan2] of the C library, by quadrant. *)
Definition atan2 (y x : R) : R :=
  if Rlt_dec 0 x then atan (y / x)
  else if Rlt_dec x 0 then
         (if Rle_dec 0 y then atan (y / x) + PI else atan (y / x) - PI)
  else if Rlt_dec 0 y then PI / 2
  else if Rlt_dec y 0 then - (PI / 2)
  else 0.

(** ** Dense vectors and matrices (the part of Eigen the node uses) *)

Module Eigen.

Definition Vec := list R.
Definition Mat := list (list R).

Fixpoint sum_n (n : nat) (f : nat -> R) : R :=
  match n with
  | O => 0
  | S k => sum_n k f + f k
  end.

Definition mk_vec (n : nat) (f : nat -> R) : Vec := map f (seq 0 n).

Definition mk_mat (n m : nat) (f : nat -> nat -> R) : Mat :=
  map (fun i => map (fun j => f i j) (seq 0 m)) (seq 0 n).

Definition vget (v : Vec) (i : nat) : R := nth i v 0.
Definition mget (M : Mat) (i j : nat) : R := nth j (nth i M []) 0.

Definition nrows (M : Mat) : nat := length M.
Definition ncols (M : Mat) : nat := length (hd [] M).

Definition wf_mat (n m : nat) (M : Mat) : Prop :=
  length M = n /\ Forall (fun r => length r = m) M.

Definition vzero (n : nat) : Vec := mk_vec n (fun _ => 0).
Definition mzero (n m : nat) : Mat := mk_mat n m (fun _ _ => 0).
Definition identity (n : nat) : Mat :=
  mk_mat n n (fun i j => if Nat.eqb i j then 1 else 0).

Definition vadd (u v : Vec) : Vec :=
  mk_vec (length u) (fun i => vget u i + vget v i).
Definition vsub (u v : Vec) : Vec :=
  mk_vec (length u) (fun i => vget u i - vget v i).
Definition vscale (c : R) (v : Vec) : Vec :=
  mk_vec (length v) (fun i => vget v i * c).
Definition vdiv_const (v : Vec) (c : R) : Vec :=
  mk_vec (length v) (fun i => vget v i / c).
Definition vdiv (v : Vec) (c : R) : option Vec :=
  if Req_dec_T c 0 then None else Some (vdiv_const v c).

Definition madd (A B : Mat) : Mat :=
  mk_mat (nrows A) (ncols A) (fun i j => mget A i j + mget B i j).
Definition msub (A B : Mat) : Mat :=
  mk_mat (nrows A) (ncols A) (fun i j => mget A i j - mget B i j).
Definition mscale (c : R) (A : Mat) : Mat :=
  mk_mat (nrows A) (ncols A) (fun i j => c * mget A i j).
Definition transpose (A : Mat) : Mat :=
  mk_mat (ncols A) (nrows A) (fun i j => mget A j i).
Definition mmul (A B : Mat) : Mat :=
  mk_mat (nrows A) (ncols B)
         (fun i j => sum_n (ncols A) (fun k => mget A i k * mget B k j)).
Definition mvmul (A : Mat) (v : Vec) : Vec :=
  mk_vec (nrows A) (fun i => sum_n (ncols A) (fun k => mget A i k * vget v k)).

(** [v.block(i,0,n,1)] and [M.block(i,j,p,q)], read and written. *)
Definition vblock (v : Vec) (i n : nat) : Vec :=
  mk_vec n (fun k => vget v (i + k)).
Definition mblock (M : Mat) (i j p q : nat) : Mat :=
  mk_mat p q (fun a b => mget M (i + a) (j + b)).

Definition vset (v : Vec) (i : nat) (x : R) : Vec :=
  mk_vec (length v) (fun k => if Nat.eqb k i then x else vget v k).
Definition mset (M : Mat) (i j : nat) (x : R) : Mat :=
  mk_mat (nrows M) (ncols M)
         (fun a b => if Nat.eqb a i && Nat.eqb b j then x else mget M a b).

Definition in_range (lo len k : nat) : bool :=
  Nat.leb lo k && Nat.ltb k (lo + len).

Definition vset_block (v : Vec) (i n : nat) (b : Vec) : Vec :=
  mk_vec (length v)
         (fun k => if in_range i n k then vget b (k - i) else vget v k).
Definition mset_block (M : Mat) (i j p q : nat) (B : Mat) : Mat :=
  mk_mat (nrows M) (ncols M)
         (fun a b => if in_range i p a && in_range j q b
                     then mget B (a - i) (b - j) else mget M a b).

(** [M.inverse()]: the two-sided inverse when there is one.  Eigen computes
    it by cofactors or by an LU factorisation; a singular matrix gives
    non-finite entries. *)
Definition is_inverse (n : nat) (M Mi : Mat) : Prop :=
  wf_mat n n Mi /\ mmul M Mi = identity n /\ mmul Mi M = identity n.

Definition inverse (M : Mat) : option Mat :=
  match excluded_middle_informative (exists Mi, is_inverse (nrows M) M Mi) with
  | left H => Some (proj1_sig (constructive_indefinite_description _ H))
  | right _ => None
  end.

(** [Eigen::AngleAxisd(angle, axis)] converted to a rotation matrix, for the
    three unit axes. *)
Inductive Axis : Type := UnitX | UnitY | UnitZ.

Definition AngleAxisd (a : R) (axis : Axis) : Mat :=
  match axis with
  | UnitX => [[1; 0; 0]; [0; cos a; - sin a]; [0; sin a; cos a]]
  | UnitY => [[cos a; 0; sin a]; [0; 1; 0]; [- sin a; 0; cos a]]
  | UnitZ => [[cos a; - sin a; 0]; [sin a; cos a; 0]; [0; 0; 1]]
  end.

End Eigen.
Import Eigen.

Module EigenExtra.

(** Column [j] of [M] overwritten by [v]: [M.block(0,j,n,1) = v]. *)
Definition mset_col (M : Mat) (j : nat) (v : Vec) : Mat :=
  mk_mat (nrows M) (ncols M)
         (fun a b => if Nat.eqb b j then vget v a else mget M a b).

(** A 3x3 matrix filled row by row from a 9-element array, as the comma
    initialiser does with [c[0], ..., c[8]]. *)
Definition mat3_of_array (c : list R) : Mat :=
  mk_mat 3 3 (fun i j => vget c (3 * i + j)).

End EigenExtra.
Import EigenExtra.

(** ** Configuration, constants, messages *)

(** The global parameters read by [main]. *)
Record Config : Type := {
  enableFilter : bool;
  enableImu : bool;
  enableWheel : bool;
  enableLidar : bool;
  filterFreq : string;
  lidarG : R;
  wheelG : R;
  imuG : R
}.

(** Defaults declared by [main]. *)
Definition default_config : Config :=
  {| enableFilter := true; enableImu := true; enableWheel := true;
     enableLidar := true; filterFreq := "l"%string;
     lidarG := 1000; wheelG := 0.05; imuG := 0.1 |}.

Definition N_STATES : nat := 12.
Definition N_IMU : nat := 9.
Definition N_WHEEL : nat := 2.
Definition N_LIDAR : nat := 6.

(** Adaptive covariance constants, set once by [initialization]. *)
Definition nCorner : R := 500.
Definition nSurf : R := 5000.
Definition Gz : R := 0.0048.
Definition Gx : R := 0.0022.
Definition Gy : R := 0.0016.
Definition Gpsi : R := 0.0044.
Definition Gphi : R := 0.0052.
Definition Gtheta : R := 0.005.
Definition l_min : R := 0.005.

Record Quaternion : Type := { qx : R; qy : R; qz : R; qw : R }.

(** [sensor_msgs::msg::Imu]; the stamp is [sec + nanosec * 1e-9]. *)
Record Imu : Type := {
  imu_stamp : R;
  imu_orientation : Quaternion;
  orientation_covariance : list R;
  angular_velocity : R * R * R;
  angular_velocity_covariance : list R;
  linear_acceleration : R * R * R;
  linear_acceleration_covariance : list R
}.

(** [nav_msgs::msg::Odometry], the fields the node reads. *)
Record Odometry : Type := {
  odom_stamp : R;
  pose_position : R * R * R;
  pose_orientation : Quaternion;
  twist_linear : R * R * R;
  twist_angular : R * R * R;
  twist_covariance : list R
}.

(** ** Node state

    The members of [AdaptiveFilter], grouped by the sensor they belong to.
    [X] and [P] are kept together: [est = None] stands for an estimate that
    holds non-finite values.  The members the node never reads ([V], [PV],
    the bias structs, [velComp], the message headers) are left out. *)

Record Estimate : Type := { X : Vec; P : Mat }.

Record ImuSlot : Type := {
  imuMeasure : Vec;
  E_imu : Mat;
  imuTimeLast : R;
  imuTimeCurrent : R;
  imu_dt : R;
  imuActivated : bool;
  imuNew : bool
}.

Record WheelSlot : Type := {
  wheelMeasure : Vec;
  E_wheel : Mat;
  wheelTimeLast : R;
  wheelTimeCurrent : R;
  wheel_dt : R;
  wheelActivated : bool;
  wheelNew : bool
}.

Record LidarSlot : Type := {
  lidarMeasure : Vec;
  E_lidar : Mat;
  lidarTimeLast : R;
  lidarTimeCurrent : R;
  lidar_dt : R;
  lidarActivated : bool;
  lidarNew : bool
}.

Record Kalman : Type := {
  est : option Estimate;
  E_pred : Mat;
  lidarMeasureL : Vec;
  E_lidarL : Mat
}.

Record State : Type := {
  imu : ImuSlot;
  wheel : WheelSlot;
  lidar : LidarSlot;
  kf : Kalman
}.

(** What the node does that is visible from outside, plus the stage calls of
    the loop with the elapsed time they are given. *)
Inductive Stage : Type := Prediction | CorrImu | CorrWheel | CorrLidar.

Inductive action : Type :=
| Invoke (st : Stage) (dt : R)
| PublishOdom (model : ascii) (e : option Estimate)
| PublishIndirect (y : option Vec) (Pi : option Mat)
| LogInfo (text : string).

Definition is_diagnostic (a : action) : bool :=
  match a with
  | LogInfo _ => true
  | _ => false
  end.

(** ** initialization *)

(** [P = Zero(12,12)], then [P(i,i) = 0.1] for each of the twelve states. *)
Definition P_init : Mat :=
  Eval cbv [fold_left seq mset mzero mk_mat map nrows ncols length hd mget nth
            N_STATES Nat.eqb andb] in
  fold_left (fun M i => mset M i i 0.1) (seq 0 N_STATES)
            (mzero N_STATES N_STATES).

(** [imu_dt] is not assigned by [initialization]; [imu_dt0] is whatever the
    member holds. *)
Definition initialization (imu_dt0 : R) : State :=
  {| imu := {| imuMeasure := vzero N_IMU;
               E_imu := mzero N_IMU N_IMU;
               imuTimeLast := 0; imuTimeCurrent := 0;
               imu_dt := imu_dt0;
               imuActivated := false; imuNew := false |};
     wheel := {| wheelMeasure := vzero N_WHEEL;
                 E_wheel := mzero N_WHEEL N_WHEEL;
                 wheelTimeLast := 0; wheelTimeCurrent := 0;
                 wheel_dt := 0.05;
                 wheelActivated := false; wheelNew := false |};
     lidar := {| lidarMeasure := vzero N_LIDAR;
                 E_lidar := mzero N_LIDAR N_LIDAR;
                 lidarTimeLast := 0; lidarTimeCurrent := 0;
                 lidar_dt := 0.1;
                 lidarActivated := false; lidarNew := false |};
     kf := {| est := Some {| X := vzero N_STATES; P := P_init |};
              E_pred := mset_block (mzero N_STATES N_STATES) 6 6 6 6
                                   (mscale 0.01 (mblock P_init 6 6 6 6));
              lidarMeasureL := vzero N_LIDAR;
              E_lidarL := mzero N_LIDAR N_LIDAR |} |}.

(** ** adaptive_covariance *)

Definition adaptive_covariance (cfg : Config) (fCorner fSurf : R) : Mat :=
  let cov_x := (nCorner - Rmin fCorner nCorner) / nCorner + l_min in
  let cov_y := (nCorner - Rmin fCorner nCorner) / nCorner + l_min in
  let cov_psi := (nCorner - Rmin fCorner nCorner) / nCorner + l_min in
  let cov_z := (nSurf - Rmin fSurf nSurf) / nSurf + l_min in
  let cov_phi := (nSurf - Rmin fSurf nSurf) / nSurf + l_min in
  let cov_theta := (nSurf - Rmin fSurf nSurf) / nSurf + l_min in
  let Q := mzero 6 6 in
  let b := lidarG cfg / 1 in
  let c := lidarG cfg / 1 in
  let Q := mset Q 0 0 (b * Gx * cov_x) in
  let Q := mset Q 1 1 (c * Gy * cov_y) in
  let Q := mset Q 2 2 (b * Gz * cov_z) in
  let Q := mset Q 3 3 (c * Gphi * cov_phi) in
  let Q := mset Q 4 4 (b * Gtheta * cov_theta) in
  let Q := mset Q 5 5 (c * Gpsi * cov_psi) in
  Q.

(** ** Models *)

(** [R] of the source is [Rm] here; a vector or matrix declared without a
    value starts as zeros, every entry being assigned before it is read. *)
Definition f_prediction_model (x : Vec) (dt : R) : option Vec :=
  let Rx := AngleAxisd (vget x 3) UnitX in
  let Ry := AngleAxisd (vget x 4) UnitY in
  let Rz := AngleAxisd (vget x 5) UnitZ in
  let Rm := mmul (mmul Rz Ry) Rx in
  t <- ftan (vget x 4) ;;
  j21 <- fdiv (sin (vget x 3)) (cos (vget x 4)) ;;
  j22 <- fdiv (cos (vget x 3)) (cos (vget x 4)) ;;
  let J := [[1; sin (vget x 3) * t; cos (vget x 3) * t];
            [0; cos (vget x 3); - sin (vget x 3)];
            [0; j21; j22]] in
  let A := identity 6 in
  let A := mset_block A 0 0 3 3 Rm in
  let A := mset_block A 3 3 3 3 J in
  let xp := vzero N_STATES in
  let xp := vset_block xp 0 6
              (vadd (vblock x 0 6) (vscale dt (mvmul A (vblock x 6 6)))) in
  let xp := vset_block xp 6 6 (vblock x 6 6) in
  Some xp.

(** The wrapped difference of two angles, as written three times in
    [indirect_lidar_measurement]. *)
Definition wrap_diff (a b : R) : R := atan2 (sin (a - b)) (cos (a - b)).

Definition indirect_lidar_measurement (u ul : Vec) (dt : R) : option Vec :=
  let Rx := AngleAxisd (vget ul 3) UnitX in
  let Ry := AngleAxisd (vget ul 4) UnitY in
  let Rz := AngleAxisd (vget ul 5) UnitZ in
  let Rm := mmul (mmul Rz Ry) Rx in
  t <- ftan (vget ul 4) ;;
  j21 <- fdiv (sin (vget ul 3)) (cos (vget ul 4)) ;;
  j22 <- fdiv (cos (vget ul 3)) (cos (vget ul 4)) ;;
  let J := [[1; sin (vget ul 3) * t; cos (vget ul 3) * t];
            [0; cos (vget ul 3); - sin (vget ul 3)];
            [0; j21; j22]] in
  let u_diff := vzero N_LIDAR in
  let u_diff := vset_block u_diff 0 3 (vsub (vblock u 0 3) (vblock ul 0 3)) in
  let u_diff := vset u_diff 3 (wrap_diff (vget u 3) (vget ul 3)) in
  let u_diff := vset u_diff 4 (wrap_diff (vget u 4) (vget ul 4)) in
  let u_diff := vset u_diff 5 (wrap_diff (vget u 5) (vget ul 5)) in
  let A := mzero N_LIDAR N_LIDAR in
  let A := mset_block A 0 0 3 3 (transpose Rm) in
  Ji <- inverse J ;;
  let A := mset_block A 3 3 3 3 Ji in
  vdiv (mvmul A u_diff) dt.

(** ** Jacobians *)

(** One pass of the loop body shared by the three numeric Jacobians: column
    [i] from the base value [f0] and the perturbed value [f1]. *)
Definition jacobian_column (J : Mat) (i : nat) (f0 f1 : Vec) (delta : R) : Mat :=
  let J := mset_col J i (vdiv_const (vsub f1 f0) delta) in
  let J := mset J 3 i (sin (vget f1 3 - vget f0 3) / delta) in
  let J := mset J 4 i (sin (vget f1 4 - vget f0 4) / delta) in
  let J := mset J 5 i (sin (vget f1 5 - vget f0 5) / delta) in
  J.

Definition jacobian_state (x : Vec) (dt : R) : option Mat :=
  f0 <- f_prediction_model x dt ;;
  let delta := 0.0001 in
  fold_left
    (fun (J : option Mat) (i : nat) =>
       J <- J ;;
       let x_plus := x in
       let x_plus := vset x_plus i (vget x_plus i + delta) in
       f1 <- f_prediction_model x_plus dt ;;
       Some (jacobian_column J i f0 f1 delta))
    (seq 0 N_STATES) (Some (mzero N_STATES N_STATES)).

Definition jacobian_lidar_measurement (u ul : Vec) (dt : R) : option Mat :=
  f0 <- indirect_lidar_measurement u ul dt ;;
  let delta := 0.0000001 in
  fold_left
    (fun (J : option Mat) (i : nat) =>
       J <- J ;;
       let u_plus := u in
       let u_plus := vset u_plus i (vget u_plus i + delta) in
       f1 <- indirect_lidar_measurement u_plus ul dt ;;
       Some (jacobian_column J i f0 f1 delta))
    (seq 0 N_LIDAR) (Some (mzero N_LIDAR N_LIDAR)).

Definition jacobian_lidar_measurementL (u ul : Vec) (dt : R) : option Mat :=
  f0 <- indirect_lidar_measurement u ul dt ;;
  let delta := 0.0000001 in
  fold_left
    (fun (J : option Mat) (i : nat) =>
       J <- J ;;
       let ul_plus := ul in
       let ul_plus := vset ul_plus i (vget ul_plus i + delta) in
       f1 <- indirect_lidar_measurement u ul_plus dt ;;
       Some (jacobian_column J i f0 f1 delta))
    (seq 0 N_LIDAR) (Some (mzero N_LIDAR N_LIDAR)).

(** ** Prediction and correction stages *)

Definition with_est (s : State) (e : option Estimate) : State :=
  {| imu := imu s; wheel := wheel s; lidar := lidar s;
     kf := {| est := e; E_pred := E_pred (kf s);
              lidarMeasureL := lidarMeasureL (kf s);
              E_lidarL := E_lidarL (kf s) |} |}.

Definition prediction_stage (dt : R) (s : State) : State * list action :=
  let e' :=
    e <- est (kf s) ;;
    F <- jacobian_state (X e) dt ;;
    X' <- f_prediction_model (X e) dt ;;
    Some {| X := X';
            P := madd (mmul (mmul F (P e)) (transpose F)) (E_pred (kf s)) |} in
  (with_est s e', []).

Definition correction_wheel_stage (dt : R) (s : State) : State * list action :=
  let e' :=
    e <- est (kf s) ;;
    let hx := vzero N_WHEEL in
    let hx := vset hx 0 (vget (X e) 6) in
    let hx := vset hx 1 (vget (X e) 11) in
    let Y := wheelMeasure (wheel s) in
    let H := mzero N_WHEEL N_STATES in
    let H := mset H 0 6 1 in
    let H := mset H 1 11 1 in
    let E := E_wheel (wheel s) in
    let S := madd (mmul (mmul H (P e)) (transpose H)) E in
    Si <- inverse S ;;
    let K := mmul (mmul (P e) (transpose H)) Si in
    Some {| X := vadd (X e) (mvmul K (vsub Y hx));
            P := msub (P e) (mmul (mmul K H) (P e)) |} in
  (with_est s e', []).

Definition correction_imu_stage (dt : R) (s : State) : State * list action :=
  let e' :=
    e <- est (kf s) ;;
    let hx := vblock (X e) 3 3 in
    let Y := vblock (imuMeasure (imu s)) 6 3 in
    let H := mzero 3 N_STATES in
    let H := mset_block H 0 3 3 3 (identity 3) in
    let E := mblock (E_imu (imu s)) 6 6 3 3 in
    let S := madd (mmul (mmul H (P e)) (transpose H)) E in
    Si <- inverse S ;;
    let K := mmul (mmul (P e) (transpose H)) Si in
    Some {| X := vadd (X e) (mvmul K (vsub Y hx));
            P := msub (P e) (mmul (mmul K H) (P e)) |} in
  (with_est s e', []).

Definition publish_indirect_lidar_measurement
    (y : option Vec) (Pi : option Mat) : list action :=
  [PublishIndirect y Pi].

Definition correction_lidar_stage (dt : R) (s : State) : State * list action :=
  let Y := indirect_lidar_measurement
             (lidarMeasure (lidar s)) (lidarMeasureL (kf s)) dt in
  let H := mzero N_LIDAR N_STATES in
  let H := mset_block H 0 6 6 6 (identity N_LIDAR) in
  let G := jacobian_lidar_measurement
             (lidarMeasure (lidar s)) (lidarMeasureL (kf s)) dt in
  let Gl := jacobian_lidar_measurementL
              (lidarMeasure (lidar s)) (lidarMeasureL (kf s)) dt in
  let Q :=
    G <- G ;;
    Gl <- Gl ;;
    Some (madd (mmul (mmul G (E_lidar (lidar s))) (transpose G))
               (mmul (mmul Gl (E_lidarL (kf s))) (transpose Gl))) in
  let out := publish_indirect_lidar_measurement Y Q in
  let e' :=
    e <- est (kf s) ;;
    let hx := vblock (X e) 6 6 in
    Y <- Y ;;
    Q <- Q ;;
    let S := madd (mmul (mmul H (P e)) (transpose H)) Q in
    Si <- inverse S ;;
    let K := mmul (mmul (P e) (transpose H)) Si in
    Some {| X := vadd (X e) (mvmul K (vsub Y hx));
            P := msub (P e) (mmul (mmul K H) (P e)) |} in
  ({| imu := imu s; wheel := wheel s; lidar := lidar s;
      kf := {| est := e'; E_pred := E_pred (kf s);
               lidarMeasureL := lidarMeasure (lidar s);
               E_lidarL := E_lidar (lidar s) |} |},
   out).

(** [publish_odom]: the estimate is copied into the outgoing message. *)
Definition publish_odom (model : ascii) (s : State) : list action :=
  [PublishOdom model (est (kf s))].

(** ** Callbacks and the loop *)

Section Node.

(** [tf2::Matrix3x3(q).getRPY(roll, pitch, yaw)]. *)
Variable getRPY : Quaternion -> R * R * R.
Variable cfg : Config.

Definition vec3 (p : R * R * R) : Vec :=
  let '(a, b, c) := p in [a; b; c].

Definition imuHandler (imuIn : Imu) (s : State) : State :=
  let i := imu s in
  let '(imuTimeLast', imuTimeCurrent') :=
    if imuActivated i
    then (imuTimeCurrent i, imu_stamp imuIn)
    else (imu_stamp imuIn + 0.01, imu_stamp imuIn) in
  let rpy := getRPY (imu_orientation imuIn) in
  let m := imuMeasure i in
  let m := vset_block m 0 3 (vec3 (linear_acceleration imuIn)) in
  let m := vset_block m 3 3 (vec3 (angular_velocity imuIn)) in
  let m := vset_block m 6 3 (vec3 rpy) in
  let E := E_imu i in
  let E := mset_block E 0 0 3 3
             (mat3_of_array (linear_acceleration_covariance imuIn)) in
  let E := mset_block E 3 3 3 3
             (mat3_of_array (angular_velocity_covariance imuIn)) in
  let E := mset_block E 6 6 3 3
             (mat3_of_array (orientation_covariance imuIn)) in
  let E := mset_block E 6 6 3 3 (mscale (imuG cfg) (mblock E 6 6 3 3)) in
  let imu_dt' := imuTimeCurrent' - imuTimeLast' in
  let imu_dt' := 0.01 in
  {| imu := {| imuMeasure := m; E_imu := E;
               imuTimeLast := imuTimeLast';
               imuTimeCurrent := imuTimeCurrent';
               imu_dt := imu_dt';
               imuActivated := true; imuNew := true |};
     wheel := wheel s; lidar := lidar s; kf := kf s |}.

Definition wheelOdometryHandler (wheelOdometry : Odometry) (s : State) : State :=
  let w := wheel s in
  let '(wheelTimeLast', wheelTimeCurrent') :=
    if wheelActivated w
    then (wheelTimeCurrent w, odom_stamp wheelOdometry)
    else (odom_stamp wheelOdometry + 0.05, odom_stamp wheelOdometry) in
  let m := [1 * fst (fst (twist_linear wheelOdometry));
            snd (twist_angular wheelOdometry)] in
  let E := E_wheel w in
  let E := mset E 0 0 (wheelG cfg * vget (twist_covariance wheelOdometry) 0) in
  let E := mset E 1 1 (100 * vget (twist_covariance wheelOdometry) 35) in
  let wheel_dt' := wheelTimeCurrent' - wheelTimeLast' in
  let wheel_dt' := 0.05 in
  {| imu := imu s;
     wheel := {| wheelMeasure := m; E_wheel := E;
                 wheelTimeLast := wheelTimeLast';
                 wheelTimeCurrent := wheelTimeCurrent';
                 wheel_dt := wheel_dt';
                 wheelActivated := true; wheelNew := true |};
     lidar := lidar s; kf := kf s |}.

Definition laserOdometryHandler (laserOdometry : Odometry) (s : State) : State :=
  let l := lidar s in
  let '(lidarTimeLast', lidarTimeCurrent') :=
    if lidarActivated l
    then (lidarTimeCurrent l, odom_stamp laserOdometry)
    else (odom_stamp laserOdometry + 0.1, odom_stamp laserOdometry) in
  let rpy := getRPY (pose_orientation laserOdometry) in
  let m := lidarMeasure l in
  let m := vset_block m 0 3 (vec3 (pose_position laserOdometry)) in
  let m := vset_block m 3 3 (vec3 rpy) in
  let corner := fst (fst (twist_linear laserOdometry)) in
  let surf := fst (fst (twist_angular laserOdometry)) in
  let E := adaptive_covariance cfg corner surf in
  let lidar_dt' := lidarTimeCurrent' - lidarTimeLast' in
  let lidar_dt' := 0.1 in
  {| imu := imu s; wheel := wheel s;
     lidar := {| lidarMeasure := m; E_lidar := E;
                 lidarTimeLast := lidarTimeLast';
                 lidarTimeCurrent := lidarTimeCurrent';
                 lidar_dt := lidar_dt';
                 lidarActivated := true; lidarNew := true |};
     kf := kf s |}.

Definition clear_imuNew (s : State) : State :=
  let i := imu s in
  {| imu := {| imuMeasure := imuMeasure i; E_imu := E_imu i;
               imuTimeLast := imuTimeLast i;
               imuTimeCurrent := imuTimeCurrent i; imu_dt := imu_dt i;
               imuActivated := imuActivated i; imuNew := false |};
     wheel := wheel s; lidar := lidar s; kf := kf s |}.

Definition clear_wheelNew (s : State) : State :=
  let w := wheel s in
  {| imu := imu s;
     wheel := {| wheelMeasure := wheelMeasure w; E_wheel := E_wheel w;
                 wheelTimeLast := wheelTimeLast w;
                 wheelTimeCurrent := wheelTimeCurrent w;
                 wheel_dt := wheel_dt w;
                 wheelActivated := wheelActivated w; wheelNew := false |};
     lidar := lidar s; kf := kf s |}.

Definition clear_lidarNew (s : State) : State :=
  let l := lidar s in
  {| imu := imu s; wheel := wheel s;
     lidar := {| lidarMeasure := lidarMeasure l; E_lidar := E_lidar l;
                 lidarTimeLast := lidarTimeLast l;
                 lidarTimeCurrent := lidarTimeCurrent l;
                 lidar_dt := lidar_dt l;
                 lidarActivated := lidarActivated l; lidarNew := false |};
     kf := kf s |}.

Definition publish_if (trigger : string) (model : ascii) (s : State) : list action :=
  if String.eqb (filterFreq cfg) trigger then publish_odom model s else [].

(** The four guarded blocks of one pass of the [while] loop of [run];
    [dt_now] is the clock difference [t_now - t_last]. *)
Definition run_prediction (dt_now : R) (s : State) : State * list action :=
  if enableFilter cfg then
    let '(s1, o) := prediction_stage dt_now s in
    (s1, Invoke Prediction dt_now :: o ++ publish_if "p" "p" s1)
  else (s, []).

Definition run_imu (s : State) : State * list action :=
  if enableFilter cfg && enableImu cfg
     && imuActivated (imu s) && imuNew (imu s) then
    let '(s1, o) := correction_imu_stage (imu_dt (imu s)) s in
    (clear_imuNew s1, Invoke CorrImu (imu_dt (imu s)) :: o ++ publish_if "i" "i" s1)
  else (s, []).

Definition run_wheel (s : State) : State * list action :=
  if enableFilter cfg && enableWheel cfg
     && wheelActivated (wheel s) && wheelNew (wheel s) then
    let '(s1, o) := correction_wheel_stage (wheel_dt (wheel s)) s in
    (clear_wheelNew s1,
     Invoke CorrWheel (wheel_dt (wheel s)) :: o ++ publish_if "w" "w" s1)
  else (s, []).

Definition run_lidar (s : State) : State * list action :=
  if enableFilter cfg && enableLidar cfg
     && lidarActivated (lidar s) && lidarNew (lidar s) then
    let '(s1, o) := correction_lidar_stage (lidar_dt (lidar s)) s in
    (clear_lidarNew s1,
     Invoke CorrLidar (lidar_dt (lidar s)) :: o ++ publish_if "l" "l" s1)
  else (s, []).

Definition run_iteration (dt_now : R) (s : State) : State * list action :=
  let '(s1, o1) := run_prediction dt_now s in
  let '(s2, o2) := run_imu s1 in
  let '(s3, o3) := run_wheel s2 in
  let '(s4, o4) := run_lidar s3 in
  (s4, o1 ++ o2 ++ o3 ++ o4).

(** What happens to the node: a pass of the loop, or a message delivered by
    [spin_some] to its callback. *)
Inductive event : Type :=
| Tick (dt_now : R)
| ImuIn (m : Imu)
| WheelIn (m : Odometry)
| LaserIn (m : Odometry).

Definition step (s : State) (ev : event) : State * list action :=
  match ev with
  | Tick dt_now => run_iteration dt_now s
  | ImuIn m => (imuHandler m s, [])
  | WheelIn m => (wheelOdometryHandler m s, [])
  | LaserIn m => (laserOdometryHandler m s, [])
  end.

Fixpoint exec (evs : list event) (s : State) : State * list action :=
  match evs with
  | [] => (s, [])
  | ev :: rest =>
      let '(s1, o1) := step s ev in
      let '(s2, o2) := exec rest s1 in
      (s2, o1 ++ o2)
  end.

(** The states the node can be in: after [initialization], then after any
    sequence of loop passes and delivered messages. *)
Inductive reachable : State -> Prop :=
| reach_init (imu_dt0 : R) : reachable (initialization imu_dt0)
| reach_step (s : State) (ev : event) :
    reachable s -> reachable (fst (step s ev)).

End Node.

(** [main]: what is logged before the loop starts. *)
Definition main_log (cfg : Config) : list action :=
  if enableFilter cfg then [LogInfo "Adaptive Filter Started."]
  else [LogInfo "Adaptive Filter Stopped."].

(** ** Reference definitions, written from the design description *)

Definition diag (d : Vec) : Mat :=
  mk_mat (length d) (length d) (fun i j => if Nat.eqb i j then vget d i else 0).

(** Adaptive covariance: [scale = (N - min(f, N)) / N + floor]. *)
Definition scale (N f : R) : R := (N - Rmin f N) / N + l_min.

(** Per-axis gains in the order x, y, z, roll, pitch, yaw. *)
Definition axis_gains : Vec := [Gx; Gy; Gz; Gphi; Gtheta; Gpsi].

(** The feature count that informs each axis: corners for x, y and yaw,
    surfaces for z, roll and pitch. *)
Definition axis_scales (fCorner fSurf : R) : Vec :=
  [scale nCorner fCorner; scale nCorner fCorner; scale nSurf fSurf;
   scale nSurf fSurf; scale nSurf fSurf; scale nCorner fCorner].

Definition adaptive_covariance_spec (cfg : Config) (fCorner fSurf : R) : Mat :=
  diag (mk_vec 6 (fun i => vget (axis_scales fCorner fSurf) i
                           * vget axis_gains i * lidarG cfg)).

(** Rotation matrix of the Z-Y-X composition, multiplied out. *)
Definition rotation_zyx (roll pitch yaw : R) : Mat :=
  [[cos yaw * cos pitch;
    cos yaw * sin pitch * sin roll - sin yaw * cos roll;
    cos yaw * sin pitch * cos roll + sin yaw * sin roll];
   [sin yaw * cos pitch;
    sin yaw * sin pitch * sin roll + cos yaw * cos roll;
    sin yaw * sin pitch * cos roll - cos yaw * sin roll];
   [- sin pitch; cos pitch * sin roll; cos pitch * cos roll]].

(** Euler-rate Jacobian: body angular rate to Euler-angle rate. *)
Definition euler_rate (roll pitch : R) : Mat :=
  [[1; sin roll * tan pitch; cos roll * tan pitch];
   [0; cos roll; - sin roll];
   [0; sin roll / cos pitch; cos roll / cos pitch]].

(** Its inverse: Euler-angle rate to body angular rate. *)
Definition euler_rate_inv (roll pitch : R) : Mat :=
  [[1; 0; - sin pitch];
   [0; cos roll; sin roll * cos pitch];
   [0; - sin roll; cos roll * cos pitch]].

(** Block-diagonal [A]: rotation in the position block, Euler-rate Jacobian
    in the angle block. *)
Definition block_diag (B1 B2 : Mat) : Mat :=
  mk_mat 6 6 (fun i j =>
    if Nat.ltb i 3 && Nat.ltb j 3 then mget B1 i j
    else if Nat.leb 3 i && Nat.leb 3 j then mget B2 (i - 3) (j - 3)
    else 0).

Definition A_spec (roll pitch yaw : R) : Mat :=
  block_diag (rotation_zyx roll pitch yaw) (euler_rate roll pitch).

(** [pose' = pose + A(angles) * velocity * dt], velocity kept. *)
Definition prediction_spec (x : Vec) (dt : R) : Vec :=
  vadd (vblock x 0 6)
       (vscale dt (mvmul (A_spec (vget x 3) (vget x 4) (vget x 5)) (vblock x 6 6)))
  ++ vblock x 6 6.

(** The pose difference with wrapped angle rows, and the body-frame twist
    derived from two poses: position delta through the transposed rotation,
    angle delta through the inverse Euler-rate Jacobian, both over [dt]. *)
Definition pose_diff (u ul : Vec) : Vec :=
  [vget u 0 - vget ul 0; vget u 1 - vget ul 1; vget u 2 - vget ul 2;
   wrap_diff (vget u 3) (vget ul 3);
   wrap_diff (vget u 4) (vget ul 4);
   wrap_diff (vget u 5) (vget ul 5)].

Definition indirect_spec (u ul : Vec) (dt : R) : Vec :=
  vdiv_const
    (mvmul (block_diag
              (transpose (rotation_zyx (vget ul 3) (vget ul 4) (vget ul 5)))
              (euler_rate_inv (vget ul 3) (vget ul 4)))
           (pose_diff u ul))
    dt.

(** Observation matrices and the innovation covariance [S = H P H^T + R]. *)
Definition H_wheel : Mat := mset (mset (mzero N_WHEEL N_STATES) 0 6 1) 1 11 1.
Definition H_imu : Mat := mset_block (mzero 3 N_STATES) 0 3 3 3 (identity 3).
Definition H_lidar : Mat :=
  mset_block (mzero N_LIDAR N_STATES) 0 6 6 6 (identity N_LIDAR).

Definition innovation_cov (H P0 E : Mat) : Mat :=
  madd (mmul (mmul H P0) (transpose H)) E.

Definition singular (M : Mat) : Prop :=
  ~ exists Mi, is_inverse (nrows M) M Mi.

(** The propagated covariance of the derived twist,
    [Q = G R_cur G^T + G_prev R_prev G_prev^T]. *)
Definition lidar_Q (s : State) (dt : R) : option Mat :=
  G <- jacobian_lidar_measurement
         (lidarMeasure (lidar s)) (lidarMeasureL (kf s)) dt ;;
  Gl <- jacobian_lidar_measurementL
          (lidarMeasure (lidar s)) (lidarMeasureL (kf s)) dt ;;
  Some (madd (mmul (mmul G (E_lidar (lidar s))) (transpose G))
             (mmul (mmul Gl (E_lidarL (kf s))) (transpose Gl))).

(** The numeric Jacobian of the prediction model at [dt = 0]: the identity,
    except that the angle rows hold [sin(step) / step]. *)
Definition angle_gain (i : nat) : R :=
  if in_range 3 3 i then sin 0.0001 / 0.0001 else 1.

Definition F_dt0 : Mat := diag (mk_vec N_STATES angle_gain).

(** A state with zero covariance and zero wheel noise. *)
Definition degenerate_state : State :=
  with_est (initialization 0)
           (Some {| X := vzero N_STATES; P := mzero N_STATES N_STATES |}).

(** ** Invariants of the node state *)

(** The elapsed-time members hold the constants written by the callbacks
    (and, for the wheel and the lidar, by [initialization]). *)
Definition dt_inv (s : State) : Prop :=
  wheel_dt (wheel s) = 0.05
  /\ lidar_dt (lidar s) = 0.1
  /\ (imuActivated (imu s) = true -> imu_dt (imu s) = 0.01).

(** The stored wheel covariance is a 2x2 diagonal matrix. *)
Definition wheel_cov_inv (s : State) : Prop :=
  exists a b, E_wheel (wheel s) = [[a; 0]; [0; b]].

(** The members a pass of the loop only reads: measurements, their
    covariances and the process noise. *)
Definition frame (s : State) :=
  (imuMeasure (imu s), E_imu (imu s), wheelMeasure (wheel s),
   E_wheel (wheel s), lidarMeasure (lidar s), E_lidar (lidar s),
   E_pred (kf s)).

(** The retained previous scan and the current one. *)
Definition retained (s : State) : Vec * Mat :=
  (lidarMeasureL (kf s), E_lidarL (kf s)).

Definition scan (s : State) : Vec * Mat :=
  (lidarMeasure (lidar s), E_lidar (lidar s)).

(** The elapsed times the corrections are given. *)
Definition fixed_dt (a : action) : Prop :=
  match a with
  | Invoke CorrImu dt => dt = 0.01
  | Invoke CorrWheel dt => dt = 0.05
  | Invoke CorrLidar dt => dt = 0.1
  | _ => True
  end.

(** Sample inputs used in the examples below. *)
Definition q_identity : Quaternion := {| qx := 0; qy := 0; qz := 0; qw := 1 |}.

Definition rpy_zero (q : Quaternion) : R * R * R := (0, 0, 0).

(** A wheel message at rest whose twist covariance entries are all 1. *)
Definition wheel_msg_unit_cov : Odometry :=
  {| odom_stamp := 0; pose_position := (0, 0, 0);
     pose_orientation := q_identity;
     twist_linear := (0, 0, 0); twist_angular := (0, 0, 0);
     twist_covariance := repeat 1 36 |}.

(** Degrees, for the angle examples. *)
Definition deg (d : R) : R := d * PI / 180.

(** ** Invariants, guards and example inputs for Part III *)

Definition est_sized (o : option Estimate) : Prop :=
  forall e, o = Some e ->
            length (X e) = N_STATES /\ wf_mat N_STATES N_STATES (P e).

(** The sizes fixed by [allocateMemory]. *)
Definition sizes_ok (s : State) : Prop :=
  length (imuMeasure (imu s)) = N_IMU
  /\ wf_mat N_IMU N_IMU (E_imu (imu s))
  /\ length (wheelMeasure (wheel s)) = N_WHEEL
  /\ wf_mat N_WHEEL N_WHEEL (E_wheel (wheel s))
  /\ length (lidarMeasure (lidar s)) = N_LIDAR
  /\ wf_mat N_LIDAR N_LIDAR (E_lidar (lidar s))
  /\ length (lidarMeasureL (kf s)) = N_LIDAR
  /\ wf_mat N_LIDAR N_LIDAR (E_lidarL (kf s))
  /\ wf_mat N_STATES N_STATES (E_pred (kf s))
  /\ est_sized (est (kf s)).


(** The guards of the three correction blocks of [run]. *)
Definition imu_due (cfg : Config) (s : State) : bool :=
  enableFilter cfg && enableImu cfg && imuActivated (imu s) && imuNew (imu s).

Definition wheel_due (cfg : Config) (s : State) : bool :=
  enableFilter cfg && enableWheel cfg
  && wheelActivated (wheel s) && wheelNew (wheel s).

Definition lidar_due (cfg : Config) (s : State) : bool :=
  enableFilter cfg && enableLidar cfg
  && lidarActivated (lidar s) && lidarNew (lidar s).

Definition is_correction (a : action) : bool :=
  match a with
  | Invoke CorrImu _ | Invoke CorrWheel _ | Invoke CorrLidar _ => true
  | _ => false
  end.

Definition is_publish_odom (a : action) : bool :=
  match a with
  | PublishOdom _ _ => true
  | _ => false
  end.

(** A configuration with the filter switched off, and one with an unknown
    publish trigger. *)
Definition filter_off_config : Config :=
  {| enableFilter := false; enableImu := true; enableWheel := true;
     enableLidar := true; filterFreq := "l"%string;
     lidarG := 1000; wheelG := 0.05; imuG := 0.1 |}.

(** A configuration whose range gain is negative; the parameter is read
    as it is given. *)
Definition negative_gain_config : Config :=
  {| enableFilter := true; enableImu := true; enableWheel := true;
     enableLidar := true; filterFreq := "l"%string;
     lidarG := -1; wheelG := 0.05; imuG := 0.1 |}.

Definition imu_msg_rest : Imu :=
  {| imu_stamp := 0; imu_orientation := q_identity;
     orientation_covariance := repeat 0 9;
     angular_velocity := (0, 0, 0);
     angular_velocity_covariance := repeat 0 9;
     linear_acceleration := (0, 0, 0);
     linear_acceleration_covariance := repeat 0 9 |}.

(** What a published odometry message may carry as its trigger. *)
Definition publish_matches (cfg : Config) (a : action) : Prop :=
  match a with
  | PublishOdom model _ =>
      filterFreq cfg = String model EmptyString
      /\ In model ["p"%char; "i"%char; "w"%char; "l"%char]
  | _ => True
  end.

(** A stage call is made by its own block, with the stored elapsed time. *)
Definition invoked_when_due (cfg : Config) (s : State) (a : action) : Prop :=
  match a with
  | Invoke CorrImu dt => imu_due cfg s = true /\ dt = imu_dt (imu s)
  | Invoke CorrWheel dt => wheel_due cfg s = true /\ dt = wheel_dt (wheel s)
  | Invoke CorrLidar dt => lidar_due cfg s = true /\ dt = lidar_dt (lidar s)
  | _ => True
  end.

(** Whatever shows in a trace was switched on. *)
Definition enabled_stage (cfg : Config) (a : action) : Prop :=
  match a with
  | Invoke Prediction _ => enableFilter cfg = true
  | Invoke CorrImu _ => enableFilter cfg = true /\ enableImu cfg = true
  | Invoke CorrWheel _ => enableFilter cfg = true /\ enableWheel cfg = true
  | Invoke CorrLidar _ => enableFilter cfg = true /\ enableLidar cfg = true
  | PublishOdom _ _ => enableFilter cfg = true
  | PublishIndirect _ _ => enableFilter cfg = true /\ enableLidar cfg = true
  | LogInfo _ => True
  end.

Definition odd_trigger_config : Config :=
  {| enableFilter := true; enableImu := true; enableWheel := true;
     enableLidar := true; filterFreq := "x"%string;
     lidarG := 1000; wheelG := 0.05; imuG := 0.1 |}.

Definition laser_msg_rest : Odometry :=
  {| odom_stamp := 0; pose_position := (0, 0, 0);
     pose_orientation := q_identity;
     twist_linear := (500, 0, 0); twist_angular := (5000, 0, 0);
     twist_covariance := repeat 0 36 |}.

(** A state moving forward at 1 m/s from the origin. *)
Definition forward_state : Vec := [0; 0; 0; 0; 0; 0; 1; 0; 0; 0; 0; 0].

(** One entry of a numeric Jacobian: the forward difference of row [i],
    through [sin] on the three angle rows. *)
Definition jacobian_entry (f0 f1 : Vec) (delta : R) (i : nat) : R :=
  if in_range 3 3 i then sin (vget f1 i - vget f0 i) / delta
  else (vget f1 i - vget f0 i) / delta.

(** What the filter can see of a state: everything but the acceleration and
    angular-rate parts of the stored IMU measurement and of its covariance. *)
Definition imu_used (s : State) :=
  (vblock (imuMeasure (imu s)) 6 3, mblock (E_imu (imu s)) 6 6 3 3,
   imuTimeLast (imu s), imuTimeCurrent (imu s), imu_dt (imu s),
   imuActivated (imu s), imuNew (imu s),
   wheel s, lidar s, kf s).

(** An IMU message with its acceleration and angular rate, and their
    covariances, blanked. *)
Definition imu_orientation_only (m : Imu) : Imu :=
  {| imu_stamp := imu_stamp m;
     imu_orientation := imu_orientation m;
     orientation_covariance := orientation_covariance m;
     angular_velocity := (0, 0, 0);
     angular_velocity_covariance := [];
     linear_acceleration := (0, 0, 0);
     linear_acceleration_covariance := [] |}.

Definition forget_imu_rates (ev : event) : event :=
  match ev with
  | ImuIn m => ImuIn (imu_orientation_only m)
  | _ => ev
  end.

(** A matrix equal to its transpose; the covariances of a state, and the
    IMU messages whose orientation covariance is symmetric. *)
Definition symmetric (M : Mat) : Prop := transpose M = M.

Definition covariances_symmetric (s : State) : Prop :=
  symmetric (E_pred (kf s))
  /\ symmetric (E_wheel (wheel s))
  /\ symmetric (mblock (E_imu (imu s)) 6 6 3 3)
  /\ symmetric (E_lidar (lidar s))
  /\ symmetric (E_lidarL (kf s))
  /\ (forall e, est (kf s) = Some e -> symmetric (P e)).

Definition imu_covariance_symmetric (ev : event) : Prop :=
  match ev with
  | ImuIn m => symmetric (mat3_of_array (orientation_covariance m))
  | _ => True
  end.

(** The process noise set by [initialization], and a state with no message
    received yet. *)
Definition E_pred_init : Mat :=
  mset_block (mzero N_STATES N_STATES) 6 6 6 6
             (mscale 0.01 (mblock P_init 6 6 6 6)).

Definition no_message_yet (s : State) : Prop :=
  imuActivated (imu s) = false /\ wheelActivated (wheel s) = false
  /\ lidarActivated (lidar s) = false.

(** ** The published messages

    [publish_odom] and [publish_indirect_lidar_measurement] fill a message
    that is a member of the node: what a call does not write keeps the value
    an earlier call left.  The 36-entry covariance arrays are written by two
    nested loops with a running index [k]; an index is always in range
    there.  The header stamp is left out. *)
Record OdometryMsg : Type := {
  frame_id : string;
  child_frame_id : string;
  msg_position : R * R * R;
  msg_orientation : Quaternion;
  msg_pose_covariance : list R;
  msg_twist_linear : R * R * R;
  msg_twist_angular : R * R * R;
  msg_twist_covariance : list R
}.

Definition fill_covariance (M : Mat) (lo : nat) (cov : list R) : list R :=
  snd (fold_left
         (fun kc i =>
            fold_left (fun kc j =>
                         (S (fst kc), vset (snd kc) (fst kc) (mget M i j)))
                      (seq lo 6) kc)
         (seq lo 6) (0%nat, cov)).

(** [setRPY] stands for [tf2::Quaternion::setRPY] followed by [tf2::toMsg]. *)
Definition odom_message (setRPY : R -> R -> R -> Quaternion)
    (prev : OdometryMsg) (e : Estimate) : OdometryMsg :=
  let x := X e in
  {| frame_id := "chassis_init";
     child_frame_id := "ekf_odom_frame";
     msg_position := (vget x 0, vget x 1, vget x 2);
     msg_orientation := setRPY (vget x 3) (vget x 4) (vget x 5);
     msg_pose_covariance := fill_covariance (P e) 0 (msg_pose_covariance prev);
     msg_twist_linear := (vget x 6, vget x 7, vget x 8);
     msg_twist_angular := (vget x 9, vget x 10, vget x 11);
     msg_twist_covariance :=
       fill_covariance (P e) 6 (msg_twist_covariance prev) |}.

Definition indirect_message (prev : OdometryMsg) (y : Vec) (Pi : Mat)
    : OdometryMsg :=
  {| frame_id := "chassis_init";
     child_frame_id := "ind_lidar_frame";
     msg_position := msg_position prev;
     msg_orientation := msg_orientation prev;
     msg_pose_covariance := msg_pose_covariance prev;
     msg_twist_linear := (vget y 0, vget y 1, vget y 2);
     msg_twist_angular := (vget y 3, vget y 4, vget y 5);
     msg_twist_covariance := fill_covariance Pi 0 (msg_twist_covariance prev) |}.

(** A message as the node holds it before the first publication. *)
Definition blank_message : OdometryMsg :=
  {| frame_id := EmptyString; child_frame_id := EmptyString;
     msg_position := (0, 0, 0);
     msg_orientation := {| qx := 0; qy := 0; qz := 0; qw := 1 |};
     msg_pose_covariance := repeat 0 36;
     msg_twist_linear := (0, 0, 0); msg_twist_angular := (0, 0, 0);
     msg_twist_covariance := repeat 0 36 |}.

(** The stages a trace calls, in the order of the calls. *)
Fixpoint stages_of (o : list action) : list Stage :=
  match o with
  | [] => []
  | Invoke st _ :: rest => st :: stages_of rest
  | _ :: rest => stages_of rest
  end.

(** The pose a lidar odometry message carries, as [laserOdometryHandler]
    stores it: position, then roll, pitch and yaw. *)
Definition message_pose (getRPY : Quaternion -> R * R * R) (m : Odometry)
    : Vec :=
  vec3 (pose_position m) ++ vec3 (getRPY (pose_orientation m)).

(** A first scan away from the origin, with 100 corner and 1000 surface
    features. *)
Definition laser_msg_first : Odometry :=
  {| odom_stamp := 7; pose_position := (1, 2, 3);
     pose_orientation := q_identity;
     twist_linear := (100, 0, 0); twist_angular := (1000, 0, 0);
     twist_covariance := repeat 0 36 |}.

(** A second message with the pose of [laser_msg_first], a later stamp and
    other feature counts. *)
Definition laser_msg_again : Odometry :=
  {| odom_stamp := 7.1; pose_position := (1, 2, 3);
     pose_orientation := q_identity;
     twist_linear := (120, 0, 0); twist_angular := (900, 0, 0);
     twist_covariance := repeat 0 36 |}.

(* ================================================================== *)
(** * Part II: properties *)
(* ================================================================== *)

(** ** Index lemmas for vectors and matrices *)

Ltac eigen_unfold :=
  cbv [adaptive_covariance adaptive_covariance_spec diag axis_scales axis_gains
       mset mset_col mset_block vset vset_block vblock mblock
       mzero vzero identity mk_mat mk_vec mat3_of_array
       madd msub mscale transpose mmul mvmul vadd vsub vscale vdiv_const
       nrows ncols vget mget sum_n in_range AngleAxisd
       rotation_zyx euler_rate euler_rate_inv block_diag A_spec pose_diff
       indirect_spec H_wheel H_imu H_lidar innovation_cov jacobian_column
       N_STATES N_IMU N_WHEEL N_LIDAR
       map seq nth hd length fold_left app fst snd
       Nat.eqb Nat.leb Nat.ltb Nat.add Nat.sub Nat.mul andb orb negb].

Tactic Notation "eigen_unfold" "in" hyp(H) :=
  cbv [adaptive_covariance adaptive_covariance_spec diag axis_scales axis_gains
       mset mset_col mset_block vset vset_block vblock mblock
       mzero vzero identity mk_mat mk_vec mat3_of_array
       madd msub mscale transpose mmul mvmul vadd vsub vscale vdiv_const
       nrows ncols vget mget sum_n in_range AngleAxisd
       rotation_zyx euler_rate euler_rate_inv block_diag A_spec pose_diff
       indirect_spec H_wheel H_imu H_lidar innovation_cov jacobian_column
       N_STATES N_IMU N_WHEEL N_LIDAR
       map seq nth hd length fold_left app fst snd
       Nat.eqb Nat.leb Nat.ltb Nat.add Nat.sub Nat.mul andb orb negb] in H.

Lemma length_mk_vec n f : length (mk_vec n f) = n.
Proof. unfold mk_vec. now rewrite length_map, length_seq. Qed.

Lemma vget_mk_vec n f i : (i < n)%nat -> vget (mk_vec n f) i = f i.
Proof.
  intros Hi. unfold vget, mk_vec.
  rewrite (nth_indep _ 0 (f 0%nat)) by now rewrite length_map, length_seq.
  now rewrite map_nth, seq_nth.
Qed.

Lemma mk_vec_ext n f g :
  (forall i, (i < n)%nat -> f i = g i) -> mk_vec n f = mk_vec n g.
Proof.
  intros H. unfold mk_vec. apply map_ext_in.
  intros i Hi. apply in_seq in Hi. apply H. lia.
Qed.

Lemma vec_eta (v : Vec) : v = mk_vec (length v) (vget v).
Proof.
  apply (nth_ext _ _ 0 0).
  - now rewrite length_mk_vec.
  - intros i Hi. fold (vget v i). fold (vget (mk_vec (length v) (vget v)) i).
    now rewrite vget_mk_vec.
Qed.

Lemma vec_ext (u v : Vec) n :
  length u = n -> length v = n ->
  (forall i, (i < n)%nat -> vget u i = vget v i) -> u = v.
Proof.
  intros Hu Hv H. rewrite (vec_eta u), (vec_eta v), Hu, Hv.
  now apply mk_vec_ext.
Qed.

Lemma nrows_mk_mat n m f : nrows (mk_mat n m f) = n.
Proof. unfold nrows, mk_mat. now rewrite length_map, length_seq. Qed.

Lemma ncols_mk_mat n m f : (0 < n)%nat -> ncols (mk_mat n m f) = m.
Proof.
  intros Hn. destruct n as [|n]; [lia|].
  unfold ncols, mk_mat. simpl. now rewrite length_map, length_seq.
Qed.

Lemma row_mk_mat n m f i :
  (i < n)%nat -> nth i (mk_mat n m f) [] = mk_vec m (f i).
Proof.
  intros Hi. unfold mk_mat, mk_vec.
  set (g := fun i => map (fun j => f i j) (seq 0 m)).
  rewrite (nth_indep _ [] (g 0%nat)) by now rewrite length_map, length_seq.
  rewrite map_nth, seq_nth by assumption. reflexivity.
Qed.

Lemma mget_mk_mat n m f i j :
  (i < n)%nat -> (j < m)%nat -> mget (mk_mat n m f) i j = f i j.
Proof.
  intros Hi Hj. unfold mget. rewrite row_mk_mat by assumption.
  now apply vget_mk_vec.
Qed.

Lemma wf_mk_mat n m f : wf_mat n m (mk_mat n m f).
Proof.
  split.
  - apply nrows_mk_mat.
  - apply Forall_forall. intros r Hr. unfold mk_mat in Hr.
    apply in_map_iff in Hr. destruct Hr as [i [<- _]].
    now rewrite length_map, length_seq.
Qed.

Lemma mk_mat_ext n m f g :
  (forall i j, (i < n)%nat -> (j < m)%nat -> f i j = g i j) ->
  mk_mat n m f = mk_mat n m g.
Proof.
  intros H. unfold mk_mat. apply map_ext_in. intros i Hi.
  apply in_seq in Hi. apply map_ext_in. intros j Hj.
  apply in_seq in Hj. apply H; lia.
Qed.

Lemma wf_row n m M i : wf_mat n m M -> (i < n)%nat -> length (nth i M []) = m.
Proof.
  intros [Hn Hr] Hi. rewrite Forall_forall in Hr. apply Hr.
  apply nth_In. lia.
Qed.

Lemma mat_eta n m M : wf_mat n m M -> M = mk_mat n m (mget M).
Proof.
  intros HM. pose proof HM as [Hn _].
  apply (nth_ext _ _ [] []).
  - now rewrite (proj1 (wf_mk_mat n m _)).
  - intros i Hi. rewrite Hn in Hi. rewrite row_mk_mat by assumption.
    rewrite (vec_eta (nth i M [])) at 1.
    now rewrite (wf_row n m M i HM Hi).
Qed.

Lemma mat_ext n m A B :
  wf_mat n m A -> wf_mat n m B ->
  (forall i j, (i < n)%nat -> (j < m)%nat -> mget A i j = mget B i j) ->
  A = B.
Proof.
  intros HA HB H. rewrite (mat_eta n m A HA), (mat_eta n m B HB).
  now apply mk_mat_ext.
Qed.

Lemma wf_nrows n m M : wf_mat n m M -> nrows M = n.
Proof. now intros [H _]. Qed.

Lemma wf_ncols n m M : wf_mat n m M -> (0 < n)%nat -> ncols M = m.
Proof.
  intros [Hl Hr] Hn. unfold ncols.
  destruct M as [|r M]; simpl in *; [lia|].
  now inversion Hr.
Qed.

(** ** Finite sums *)

Lemma sum_n_ext n f g :
  (forall k, (k < n)%nat -> f k = g k) -> sum_n n f = sum_n n g.
Proof.
  induction n as [|n IH]; intros H; simpl; [reflexivity|].
  rewrite IH, H; auto.
Qed.

Lemma sum_n_zero n f : (forall k, (k < n)%nat -> f k = 0) -> sum_n n f = 0.
Proof.
  induction n as [|n IH]; intros H; simpl; [reflexivity|].
  rewrite IH, H; auto. lra.
Qed.

Lemma sum_n_plus n f g :
  sum_n n (fun k => f k + g k) = sum_n n f + sum_n n g.
Proof. induction n as [|n IH]; simpl; [lra|]. rewrite IH. lra. Qed.

Lemma sum_n_scal_l n c f : sum_n n (fun k => c * f k) = c * sum_n n f.
Proof. induction n as [|n IH]; simpl; [lra|]. rewrite IH. lra. Qed.

Lemma sum_n_scal_r n c f : sum_n n (fun k => f k * c) = sum_n n f * c.
Proof. induction n as [|n IH]; simpl; [lra|]. rewrite IH. lra. Qed.

Lemma sum_n_swap n m (f : nat -> nat -> R) :
  sum_n n (fun i => sum_n m (fun j => f i j))
  = sum_n m (fun j => sum_n n (fun i => f i j)).
Proof.
  induction n as [|n IH]; simpl.
  - symmetry. now apply sum_n_zero.
  - rewrite IH, <- sum_n_plus. reflexivity.
Qed.

(** A sum against a Kronecker delta picks one term. *)
Lemma sum_n_delta_l n i f :
  (i < n)%nat ->
  sum_n n (fun k => (if Nat.eqb i k then 1 else 0) * f k) = f i.
Proof.
  induction n as [|n IH]; intros Hi; [lia|]. simpl.
  destruct (Nat.eq_dec i n) as [->|Hne].
  - rewrite Nat.eqb_refl. rewrite sum_n_zero; [lra|].
    intros k Hk. destruct (Nat.eqb_spec n k); [lia|lra].
  - rewrite IH by lia. destruct (Nat.eqb_spec i n); [lia|lra].
Qed.

Lemma sum_n_delta_r n j f :
  (j < n)%nat ->
  sum_n n (fun k => f k * (if Nat.eqb k j then 1 else 0)) = f j.
Proof.
  intros Hj. rewrite <- (sum_n_delta_l n j f Hj).
  apply sum_n_ext. intros k _. rewrite (Nat.eqb_sym k j). lra.
Qed.

(** ** Matrix algebra *)

Lemma wf_mmul n m p A B : wf_mat n m A -> wf_mat m p B -> (0 < m)%nat ->
  wf_mat n p (mmul A B).
Proof.
  intros HA HB Hm. unfold mmul.
  rewrite (wf_nrows _ _ _ HA), (wf_ncols _ _ _ HB Hm). apply wf_mk_mat.
Qed.

Lemma mget_mmul n m p A B i j :
  wf_mat n m A -> wf_mat m p B -> (0 < n)%nat -> (0 < m)%nat ->
  (i < n)%nat -> (j < p)%nat ->
  mget (mmul A B) i j = sum_n m (fun k => mget A i k * mget B k j).
Proof.
  intros HA HB Hn Hm Hi Hj. unfold mmul.
  rewrite (wf_nrows _ _ _ HA), (wf_ncols _ _ _ HB Hm), (wf_ncols _ _ _ HA Hn).
  now rewrite mget_mk_mat.
Qed.

Lemma mmul_assoc n m p q A B C :
  wf_mat n m A -> wf_mat m p B -> wf_mat p q C ->
  (0 < n)%nat -> (0 < m)%nat -> (0 < p)%nat ->
  mmul (mmul A B) C = mmul A (mmul B C).
Proof.
  intros HA HB HC Hn Hm Hp.
  pose proof (wf_mmul _ _ _ _ _ HA HB Hm) as HAB.
  pose proof (wf_mmul _ _ _ _ _ HB HC Hp) as HBC.
  apply (mat_ext n q).
  - now apply (wf_mmul n p q).
  - now apply (wf_mmul n m q).
  - intros i j Hi Hj.
    rewrite (mget_mmul n p q) by assumption.
    rewrite (mget_mmul n m q) by assumption.
    rewrite (sum_n_ext p _
      (fun k => sum_n m (fun l => mget A i l * mget B l k * mget C k j))).
    2:{ intros k Hk. rewrite (mget_mmul n m p) by assumption.
        now rewrite sum_n_scal_r. }
    rewrite sum_n_swap. apply sum_n_ext. intros l Hl.
    rewrite (mget_mmul m p q) by assumption.
    rewrite <- sum_n_scal_l. apply sum_n_ext. intros k _. lra.
Qed.

Lemma wf_identity n : wf_mat n n (identity n).
Proof. apply wf_mk_mat. Qed.

Lemma mmul_identity_l n m A : wf_mat n m A -> (0 < n)%nat ->
  mmul (identity n) A = A.
Proof.
  intros HA Hn. apply (mat_ext n m); [|assumption|].
  - apply (wf_mmul n n m); [apply wf_identity|assumption|assumption].
  - intros i j Hi Hj.
    rewrite (mget_mmul n n m) by (try apply wf_identity; assumption).
    rewrite (sum_n_ext n _
      (fun k => (if Nat.eqb i k then 1 else 0) * mget A k j)).
    + now apply (sum_n_delta_l n i (fun k => mget A k j)).
    + intros k Hk. unfold identity. now rewrite mget_mk_mat.
Qed.

Lemma mmul_identity_r n m A : wf_mat n m A -> (0 < n)%nat -> (0 < m)%nat ->
  mmul A (identity m) = A.
Proof.
  intros HA Hn Hm. apply (mat_ext n m); [|assumption|].
  - apply (wf_mmul n m m); [assumption|apply wf_identity|assumption].
  - intros i j Hi Hj.
    rewrite (mget_mmul n m m) by (try apply wf_identity; assumption).
    rewrite (sum_n_ext m _
      (fun k => mget A i k * (if Nat.eqb k j then 1 else 0))).
    + now apply (sum_n_delta_r m j (fun k => mget A i k)).
    + intros k Hk. unfold identity. now rewrite mget_mk_mat.
Qed.

(** ** The inverse *)

Lemma inverse_Some M Mi : inverse M = Some Mi -> is_inverse (nrows M) M Mi.
Proof.
  unfold inverse.
  destruct (excluded_middle_informative _) as [H|H]; [|discriminate].
  intros [= <-]. apply proj2_sig.
Qed.

Lemma inverse_None M : inverse M = None <-> ~ exists Mi, is_inverse (nrows M) M Mi.
Proof.
  unfold inverse.
  destruct (excluded_middle_informative _) as [H|H]; split; intros H';
    try discriminate; try reflexivity; try assumption.
  contradiction.
Qed.

Lemma is_inverse_unique n M A B :
  wf_mat n n M -> (0 < n)%nat ->
  is_inverse n M A -> is_inverse n M B -> A = B.
Proof.
  intros HM Hn (HA & _ & HAM) (HB & HMB & _).
  rewrite <- (mmul_identity_r n n A HA Hn Hn), <- HMB.
  rewrite <- (mmul_assoc n n n n A M B) by assumption.
  rewrite HAM. now apply (mmul_identity_l n n).
Qed.

Lemma inverse_unique n M Mi :
  wf_mat n n M -> (0 < n)%nat -> is_inverse n M Mi -> inverse M = Some Mi.
Proof.
  intros HM Hn Hi. pose proof (wf_nrows n n M HM) as Hr.
  destruct (inverse M) as [Mi'|] eqn:E.
  - apply inverse_Some in E. rewrite Hr in E.
    f_equal. now apply (is_inverse_unique n M).
  - apply inverse_None in E. exfalso. apply E. exists Mi. now rewrite Hr.
Qed.

(** ** Adaptive covariance *)

Lemma scale_at_N N : N <> 0 -> scale N N = l_min.
Proof.
  intros HN. unfold scale. rewrite Rmin_left by lra. field. exact HN.
Qed.

Lemma scale_at_0 N : 0 < N -> scale N 0 = 1 + l_min.
Proof.
  intros HN. unfold scale. rewrite Rmin_left by lra. field. lra.
Qed.

Lemma scale_antitone N f f' : 0 < N -> f <= f' -> scale N f' <= scale N f.
Proof.
  intros HN Hf. unfold scale.
  pose proof (Rle_min_compat_r f f' N Hf) as Hm.
  apply Rplus_le_compat_r. unfold Rdiv.
  apply Rmult_le_compat_r; [|lra].
  left. now apply Rinv_0_lt_compat.
Qed.

Lemma scale_bounds N f : 0 < N -> 0 <= f -> l_min <= scale N f <= 1 + l_min.
Proof.
  intros HN Hf. split.
  - unfold scale. pose proof (Rmin_r f N) as Hm.
    assert (0 <= (N - Rmin f N) / N); [|lra].
    unfold Rdiv. apply Rmult_le_pos; [lra|].
    left. now apply Rinv_0_lt_compat.
  - rewrite <- (scale_at_0 N HN). now apply scale_antitone.
Qed.

Lemma adaptive_covariance_entries cfg fC fS :
  adaptive_covariance cfg fC fS = adaptive_covariance_spec cfg fC fS.
Proof.
  eigen_unfold. unfold scale.
  repeat (f_equal; try lra).
Qed.

Lemma gains_pos i : (i < 6)%nat -> 0 < vget axis_gains i.
Proof.
  intros Hi. unfold axis_gains, Gx, Gy, Gz, Gphi, Gtheta, Gpsi.
  do 6 (destruct i as [|i]; [cbv [vget nth]; lra|]). lia.
Qed.

Lemma adaptive_covariance_diag_entry cfg fC fS i :
  (i < 6)%nat ->
  mget (adaptive_covariance cfg fC fS) i i
  = vget (axis_scales fC fS) i * vget axis_gains i * lidarG cfg.
Proof.
  intros Hi. rewrite adaptive_covariance_entries.
  unfold adaptive_covariance_spec, diag.
  rewrite length_mk_vec, mget_mk_mat by assumption.
  rewrite Nat.eqb_refl. now rewrite vget_mk_vec.
Qed.

Lemma axis_scales_antitone fC fC' fS fS' i :
  fC <= fC' -> fS <= fS' -> (i < 6)%nat ->
  vget (axis_scales fC' fS') i <= vget (axis_scales fC fS) i.
Proof.
  intros HC HS Hi. unfold axis_scales.
  do 6 (destruct i as [|i];
        [cbv [vget nth]; apply scale_antitone;
         [unfold nCorner, nSurf; lra|assumption]|]).
  lia.
Qed.

Lemma axis_scales_bounds fC fS i :
  0 <= fC -> 0 <= fS -> (i < 6)%nat ->
  l_min <= vget (axis_scales fC fS) i <= 1 + l_min.
Proof.
  intros HC HS Hi. unfold axis_scales.
  do 6 (destruct i as [|i];
        [cbv [vget nth]; apply scale_bounds;
         [unfold nCorner, nSurf; lra|assumption]|]).
  lia.
Qed.

(** C2, with the condition on the range gain that it needs.  The adaptive
    covariance is the diagonal matrix whose entries are
    [scale * per-axis gain * range gain], with the corner count scaling the
    x, y and yaw axes and the surface count the z, roll and pitch axes.  At
    full feature counts every entry is [floor * gain], at zero feature counts
    [(1 + floor) * gain].  For a non-negative range gain the entries do not
    increase with the feature counts, and for non-negative feature counts
    they lie between those two values. *)
Theorem adaptive_covariance_correct (cfg : Config) :
  (forall fCorner fSurf,
      adaptive_covariance cfg fCorner fSurf
      = diag (mk_vec 6 (fun i => vget (axis_scales fCorner fSurf) i
                                 * vget axis_gains i * lidarG cfg)))
  /\ adaptive_covariance cfg nCorner nSurf
     = diag (mk_vec 6 (fun i => l_min * vget axis_gains i * lidarG cfg))
  /\ adaptive_covariance cfg 0 0
     = diag (mk_vec 6 (fun i => (1 + l_min) * vget axis_gains i * lidarG cfg))
  /\ (0 <= lidarG cfg ->
      (forall fCorner fCorner' fSurf fSurf' i,
          fCorner <= fCorner' -> fSurf <= fSurf' -> (i < 6)%nat ->
          mget (adaptive_covariance cfg fCorner' fSurf') i i
          <= mget (adaptive_covariance cfg fCorner fSurf) i i)
      /\ (forall fCorner fSurf i,
             0 <= fCorner -> 0 <= fSurf -> (i < 6)%nat ->
             mget (adaptive_covariance cfg nCorner nSurf) i i
             <= mget (adaptive_covariance cfg fCorner fSurf) i i
             <= mget (adaptive_covariance cfg 0 0) i i)).
Proof.
  assert (HN : axis_scales nCorner nSurf = mk_vec 6 (fun _ => l_min)).
  { unfold axis_scales. rewrite !scale_at_N by (unfold nCorner, nSurf; lra).
    reflexivity. }
  assert (H0 : axis_scales 0 0 = mk_vec 6 (fun _ => 1 + l_min)).
  { unfold axis_scales. rewrite !scale_at_0 by (unfold nCorner, nSurf; lra).
    reflexivity. }
  split; [|split; [|split]].
  - intros. apply adaptive_covariance_entries.
  - rewrite adaptive_covariance_entries. unfold adaptive_covariance_spec.
    rewrite HN. reflexivity.
  - rewrite adaptive_covariance_entries. unfold adaptive_covariance_spec.
    rewrite H0. reflexivity.
  - intros Hg.
    assert (Hgain : forall i, (i < 6)%nat ->
                              0 <= vget axis_gains i * lidarG cfg).
    { intros i Hi. apply Rmult_le_pos; [left; now apply gains_pos|assumption]. }
    split.
    + intros fC fC' fS fS' i HC HS Hi.
      rewrite !adaptive_covariance_diag_entry by assumption.
      rewrite !Rmult_assoc. apply Rmult_le_compat_r; [now apply Hgain|].
      now apply axis_scales_antitone.
    + intros fC fS i HC HS Hi.
      rewrite !adaptive_covariance_diag_entry by assumption.
      rewrite HN, H0, !vget_mk_vec by assumption.
      pose proof (axis_scales_bounds fC fS i HC HS Hi) as [Hlo Hhi].
      rewrite !Rmult_assoc.
      split; apply Rmult_le_compat_r; try (now apply Hgain); assumption.
Qed.

Lemma default_gain_nonneg : 0 <= lidarG default_config.
Proof. simpl. lra. Qed.

Lemma adaptive_covariance_correct_witness :
  mget (adaptive_covariance default_config 500 5000) 0 0
  <= mget (adaptive_covariance default_config 100 1000) 0 0.
Proof.
  apply (proj1 (proj2 (proj2 (proj2
           (adaptive_covariance_correct default_config)))
           default_gain_nonneg)
           100 500 1000 5000 0%nat); [lra|lra|lia].
Defined.

(** C2, as stated, fails: the range gain is read from the parameters
    unchecked, and with a negative gain the diagonal entries grow with the
    feature counts, so that full counts give the largest entry and zero
    counts the smallest. *)
Lemma negative_gain_covariance_increases :
  0 <= 0 <= nCorner /\ 0 <= 0 <= nSurf
  /\ forall i, (i < 6)%nat ->
       mget (adaptive_covariance negative_gain_config 0 0) i i
       < mget (adaptive_covariance negative_gain_config nCorner nSurf) i i.
Proof.
  split; [unfold nCorner; lra|]. split; [unfold nSurf; lra|].
  intros i Hi. rewrite !adaptive_covariance_diag_entry by assumption.
  assert (Hg : lidarG negative_gain_config = -1) by reflexivity.
  rewrite Hg. pose proof (gains_pos i Hi) as Hpos.
  assert (H0 : vget (axis_scales 0 0) i = 1 + l_min).
  { unfold axis_scales.
    rewrite !scale_at_0 by (unfold nCorner, nSurf; lra).
    do 6 (destruct i as [|i]; [reflexivity|]). lia. }
  assert (HN : vget (axis_scales nCorner nSurf) i = l_min).
  { unfold axis_scales.
    rewrite !scale_at_N by (unfold nCorner, nSurf; lra).
    do 6 (destruct i as [|i]; [reflexivity|]). lia. }
  rewrite H0, HN. unfold l_min. nra.
Qed.

(** ** Control state of the node *)

Ltac node_simpl :=
  cbn [fst snd imu wheel lidar kf est E_pred lidarMeasureL E_lidarL
       imuMeasure E_imu imuTimeLast imuTimeCurrent imu_dt imuActivated imuNew
       wheelMeasure E_wheel wheelTimeLast wheelTimeCurrent wheel_dt
       wheelActivated wheelNew
       lidarMeasure E_lidar lidarTimeLast lidarTimeCurrent lidar_dt
       lidarActivated lidarNew
       with_est prediction_stage correction_imu_stage correction_wheel_stage
       correction_lidar_stage clear_imuNew clear_wheelNew clear_lidarNew
       imuHandler wheelOdometryHandler laserOdometryHandler initialization
       publish_indirect_lidar_measurement publish_odom app].

Section NodeFacts.

Variable getRPY : Quaternion -> R * R * R.
Variable cfg : Config.

Lemma fixed_dt_publish_if trigger model s :
  Forall fixed_dt (publish_if cfg trigger model s).
Proof.
  unfold publish_if, publish_odom.
  destruct (String.eqb _ _); repeat constructor.
Qed.

Lemma run_prediction_dt dt_now s :
  dt_inv s ->
  dt_inv (fst (run_prediction cfg dt_now s))
  /\ Forall fixed_dt (snd (run_prediction cfg dt_now s)).
Proof.
  intros H. unfold run_prediction.
  destruct (enableFilter cfg); node_simpl.
  - split; [exact H|]. constructor; [exact I|apply fixed_dt_publish_if].
  - split; [exact H|constructor].
Qed.

Lemma run_imu_dt s :
  dt_inv s ->
  dt_inv (fst (run_imu cfg s)) /\ Forall fixed_dt (snd (run_imu cfg s)).
Proof.
  intros H. unfold run_imu.
  destruct (enableFilter cfg && enableImu cfg); simpl andb;
    [|split; [exact H|constructor]].
  destruct (imuActivated (imu s)) eqn:Ha; simpl andb;
    [|split; [exact H|constructor]].
  destruct (imuNew (imu s)); [|split; [exact H|constructor]].
  node_simpl. split.
  - destruct H as (Hw & Hl & Hi). unfold dt_inv. node_simpl.
    rewrite Ha. auto.
  - constructor; [apply H; exact Ha|apply fixed_dt_publish_if].
Qed.

Lemma run_wheel_dt s :
  dt_inv s ->
  dt_inv (fst (run_wheel cfg s)) /\ Forall fixed_dt (snd (run_wheel cfg s)).
Proof.
  intros H. unfold run_wheel.
  destruct (enableFilter cfg && enableWheel cfg && wheelActivated (wheel s)
            && wheelNew (wheel s)); [|split; [exact H|constructor]].
  node_simpl. split; [exact H|].
  constructor; [apply H|apply fixed_dt_publish_if].
Qed.

Lemma run_lidar_dt s :
  dt_inv s ->
  dt_inv (fst (run_lidar cfg s)) /\ Forall fixed_dt (snd (run_lidar cfg s)).
Proof.
  intros H. unfold run_lidar.
  destruct (enableFilter cfg && enableLidar cfg && lidarActivated (lidar s)
            && lidarNew (lidar s)); [|split; [exact H|constructor]].
  node_simpl. split; [exact H|].
  constructor; [apply H|].
  constructor; [exact I|apply fixed_dt_publish_if].
Qed.

Lemma run_iteration_dt dt_now s :
  dt_inv s ->
  dt_inv (fst (run_iteration cfg dt_now s))
  /\ Forall fixed_dt (snd (run_iteration cfg dt_now s)).
Proof.
  intros H0. unfold run_iteration.
  destruct (run_prediction_dt dt_now s H0) as [H1 F1].
  destruct (run_prediction cfg dt_now s) as [s1 o1]. simpl in H1, F1.
  destruct (run_imu_dt s1 H1) as [H2 F2].
  destruct (run_imu cfg s1) as [s2 o2]. simpl in H2, F2.
  destruct (run_wheel_dt s2 H2) as [H3 F3].
  destruct (run_wheel cfg s2) as [s3 o3]. simpl in H3, F3.
  destruct (run_lidar_dt s3 H3) as [H4 F4].
  destruct (run_lidar cfg s3) as [s4 o4]. simpl in H4, F4.
  simpl. split; [exact H4|].
  repeat (apply Forall_app; split); assumption.
Qed.

Lemma handlers_dt s :
  (forall m, imu_dt (imu (imuHandler getRPY cfg m s)) = 0.01)
  /\ (forall m, wheel_dt (wheel (wheelOdometryHandler cfg m s)) = 0.05)
  /\ (forall m, lidar_dt (lidar (laserOdometryHandler getRPY cfg m s)) = 0.1).
Proof.
  repeat split; intros m.
  - unfold imuHandler. destruct (imuActivated (imu s)); reflexivity.
  - unfold wheelOdometryHandler. destruct (wheelActivated (wheel s)); reflexivity.
  - unfold laserOdometryHandler. destruct (lidarActivated (lidar s)); reflexivity.
Qed.

Lemma step_dt s ev :
  dt_inv s ->
  dt_inv (fst (step getRPY cfg s ev))
  /\ Forall fixed_dt (snd (step getRPY cfg s ev)).
Proof.
  intros H. destruct ev as [dt_now|m|m|m]; simpl.
  - now apply run_iteration_dt.
  - split; [|constructor]. destruct H as (Hw & Hl & Hi).
    unfold imuHandler. destruct (imuActivated (imu s)); repeat split; auto.
  - split; [|constructor]. destruct H as (Hw & Hl & Hi).
    unfold wheelOdometryHandler.
    destruct (wheelActivated (wheel s)); repeat split; auto.
  - split; [|constructor]. destruct H as (Hw & Hl & Hi).
    unfold laserOdometryHandler.
    destruct (lidarActivated (lidar s)); repeat split; auto.
Qed.

Lemma exec_dt evs : forall s,
  dt_inv s ->
  dt_inv (fst (exec getRPY cfg evs s))
  /\ Forall fixed_dt (snd (exec getRPY cfg evs s)).
Proof.
  induction evs as [|ev rest IH]; intros s H; simpl.
  - split; [exact H|constructor].
  - destruct (step_dt s ev H) as [H1 F1].
    destruct (step getRPY cfg s ev) as [s1 o1]. simpl in H1, F1.
    destruct (IH s1 H1) as [H2 F2].
    destruct (exec getRPY cfg rest s1) as [s2 o2]. simpl in H2, F2.
    simpl. split; [exact H2|]. apply Forall_app. now split.
Qed.

Lemma dt_inv_init imu_dt0 : dt_inv (initialization imu_dt0).
Proof. repeat split. simpl. discriminate. Qed.

End NodeFacts.

(** The statement on the elapsed times is in Part IV, where the pass that
    follows a message is at hand. *)

(** ** The wheel measurement covariance *)

Section WheelCovariance.

Variable getRPY : Quaternion -> R * R * R.
Variable cfg : Config.

Lemma run_prediction_frame dt_now s :
  frame (fst (run_prediction cfg dt_now s)) = frame s.
Proof. unfold run_prediction. destruct (enableFilter cfg); reflexivity. Qed.

Lemma run_imu_frame s : frame (fst (run_imu cfg s)) = frame s.
Proof.
  unfold run_imu.
  destruct (enableFilter cfg && enableImu cfg && imuActivated (imu s)
            && imuNew (imu s)); reflexivity.
Qed.

Lemma run_wheel_frame s : frame (fst (run_wheel cfg s)) = frame s.
Proof.
  unfold run_wheel.
  destruct (enableFilter cfg && enableWheel cfg && wheelActivated (wheel s)
            && wheelNew (wheel s)); reflexivity.
Qed.

Lemma run_lidar_frame s : frame (fst (run_lidar cfg s)) = frame s.
Proof.
  unfold run_lidar.
  destruct (enableFilter cfg && enableLidar cfg && lidarActivated (lidar s)
            && lidarNew (lidar s)); reflexivity.
Qed.

Lemma run_iteration_frame dt_now s :
  frame (fst (run_iteration cfg dt_now s)) = frame s.
Proof.
  unfold run_iteration.
  pose proof (run_prediction_frame dt_now s) as H1.
  destruct (run_prediction cfg dt_now s) as [s1 o1].
  pose proof (run_imu_frame s1) as H2.
  destruct (run_imu cfg s1) as [s2 o2].
  pose proof (run_wheel_frame s2) as H3.
  destruct (run_wheel cfg s2) as [s3 o3].
  pose proof (run_lidar_frame s3) as H4.
  destruct (run_lidar cfg s3) as [s4 o4].
  simpl in *. congruence.
Qed.

Lemma run_iteration_wheel_slot dt_now s :
  E_wheel (wheel (fst (run_iteration cfg dt_now s))) = E_wheel (wheel s).
Proof.
  pose proof (run_iteration_frame dt_now s) as H. unfold frame in H.
  congruence.
Qed.

Lemma wheel_cov_inv_reachable s : reachable getRPY cfg s -> wheel_cov_inv s.
Proof.
  induction 1 as [imu_dt0|s ev Hs IH].
  - exists 0, 0. reflexivity.
  - destruct ev as [dt_now|m|m|m]; simpl.
    + unfold wheel_cov_inv. now rewrite run_iteration_wheel_slot.
    + unfold imuHandler. destruct (imuActivated (imu s)); exact IH.
    + destruct IH as (a & b & E). unfold wheel_cov_inv, wheelOdometryHandler.
      destruct (wheelActivated (wheel s)); node_simpl; rewrite E;
        eexists; eexists; reflexivity.
    + unfold laserOdometryHandler. destruct (lidarActivated (lidar s)); exact IH.
Qed.

End WheelCovariance.

(** C7, as the code has it.  After a wheel odometry message the stored 2x2
    covariance is diagonal; its first entry is the message's forward-velocity
    covariance times the wheel gain, its second entry the message's yaw-rate
    covariance times the fixed factor 100. *)
Theorem wheel_covariance_stored
    (getRPY : Quaternion -> R * R * R) (cfg : Config) (s : State) (m : Odometry) :
  reachable getRPY cfg s ->
  E_wheel (wheel (wheelOdometryHandler cfg m s))
  = diag [wheelG cfg * vget (twist_covariance m) 0;
          100 * vget (twist_covariance m) 35].
Proof.
  intros Hs. destruct (wheel_cov_inv_reachable getRPY cfg s Hs) as (a & b & E).
  unfold wheelOdometryHandler.
  destruct (wheelActivated (wheel s)); node_simpl; rewrite E; reflexivity.
Qed.

Lemma wheel_covariance_stored_witness :
  E_wheel (wheel (wheelOdometryHandler default_config wheel_msg_unit_cov
                                       (initialization 0)))
  = diag [wheelG default_config * 1; 100 * 1].
Proof.
  exact (wheel_covariance_stored rpy_zero default_config (initialization 0)
           wheel_msg_unit_cov (reach_init rpy_zero default_config 0)).
Defined.

(** C7, as stated, fails: with the default gain 0.05 and a message whose
    covariance entries are 1, the yaw-rate entry stored is 100, not 0.05. *)
Lemma wheel_covariance_yaw_not_gain_scaled :
  E_wheel (wheel (wheelOdometryHandler default_config wheel_msg_unit_cov
                                       (initialization 0)))
  <> diag [wheelG default_config * vget (twist_covariance wheel_msg_unit_cov) 0;
           wheelG default_config * vget (twist_covariance wheel_msg_unit_cov) 35].
Proof.
  intros H.
  assert (E : mget (E_wheel (wheel (wheelOdometryHandler default_config
                       wheel_msg_unit_cov (initialization 0)))) 1 1
              = mget (diag [wheelG default_config
                              * vget (twist_covariance wheel_msg_unit_cov) 0;
                            wheelG default_config
                              * vget (twist_covariance wheel_msg_unit_cov) 35])
                     1 1)
    by now rewrite H.
  cbv [wheelOdometryHandler initialization wheel E_wheel wheelActivated
       wheel_msg_unit_cov twist_covariance default_config wheelG repeat] in E.
  eigen_unfold in E. lra.
Qed.

(** ** The prediction model *)

Lemma ftan_defined x : cos x <> 0 -> ftan x = Some (tan x).
Proof.
  intros H. unfold ftan.
  destruct (Req_dec_T (cos x) 0); [contradiction|reflexivity].
Qed.

Lemma ftan_undefined x : cos x = 0 -> ftan x = None.
Proof.
  intros H. unfold ftan.
  destruct (Req_dec_T (cos x) 0); [reflexivity|contradiction].
Qed.

Lemma fdiv_defined a b : b <> 0 -> fdiv a b = Some (a / b).
Proof.
  intros H. unfold fdiv.
  destruct (Req_dec_T b 0); [contradiction|reflexivity].
Qed.

Lemma vdiv_defined v c : c <> 0 -> vdiv v c = Some (vdiv_const v c).
Proof.
  intros H. unfold vdiv.
  destruct (Req_dec_T c 0); [contradiction|reflexivity].
Qed.

(** A vector of known length, as the list of its components. *)
Ltac explode_vec x H :=
  repeat (destruct x as [|? x]; [discriminate H|]);
  destruct x as [|? ?]; [clear H|discriminate H].

Lemma f_prediction_model_spec (x : Vec) (dt : R) :
  length x = 12%nat -> cos (vget x 4) <> 0 ->
  f_prediction_model x dt = Some (prediction_spec x dt).
Proof.
  intros Hx Hc. explode_vec x Hx.
  unfold f_prediction_model.
  rewrite ftan_defined, !fdiv_defined by exact Hc.
  cbn [bind]. unfold prediction_spec.
  cbv [vget nth] in Hc |- *.
  f_equal. eigen_unfold. unfold tan.
  repeat (f_equal; try (field; assumption)).
Qed.

Lemma f_prediction_model_singular (x : Vec) (dt : R) :
  cos (vget x 4) = 0 -> f_prediction_model x dt = None.
Proof.
  intros Hc. unfold f_prediction_model. now rewrite ftan_undefined.
Qed.

Lemma length_prediction_spec x dt : length (prediction_spec x dt) = 12%nat.
Proof.
  unfold prediction_spec.
  rewrite length_app. unfold vadd, vblock. now rewrite !length_mk_vec.
Qed.

Lemma vblock_app_l (u v : Vec) n : length u = n -> vblock (u ++ v) 0 n = u.
Proof.
  intros Hu. apply (vec_ext _ _ n); [apply length_mk_vec|exact Hu|].
  intros i Hi. unfold vblock. rewrite vget_mk_vec by assumption.
  unfold vget. simpl. apply app_nth1. lia.
Qed.

Lemma vblock_app_r (u v : Vec) n m :
  length u = n -> length v = m -> vblock (u ++ v) n m = v.
Proof.
  intros Hu Hv. apply (vec_ext _ _ m); [apply length_mk_vec|exact Hv|].
  intros i Hi. unfold vblock. rewrite vget_mk_vec by assumption.
  unfold vget. rewrite app_nth2 by lia. f_equal. lia.
Qed.

(** C1.  On a 12-dimensional state the prediction model returns the state
    whose pose block is [pose + A(angles) * velocity * dt], with [A]
    block-diagonal (the rotation [Rz(yaw) Ry(pitch) Rx(roll)], then the
    Euler-rate Jacobian), and whose velocity block is the input's.  The
    Euler-rate Jacobian exists where the cosine of the pitch is not zero. *)
Theorem prediction_model_correct (x : Vec) (dt : R) :
  length x = 12%nat -> cos (vget x 4) <> 0 ->
  exists xp,
    f_prediction_model x dt = Some xp
    /\ length xp = 12%nat
    /\ vblock xp 0 6
       = vadd (vblock x 0 6)
              (vscale dt (mvmul (A_spec (vget x 3) (vget x 4) (vget x 5))
                                (vblock x 6 6)))
    /\ vblock xp 6 6 = vblock x 6 6.
Proof.
  intros Hx Hc. exists (prediction_spec x dt).
  split; [now apply f_prediction_model_spec|].
  split; [apply length_prediction_spec|].
  unfold prediction_spec. split.
  - apply vblock_app_l. unfold vadd, vblock. now rewrite !length_mk_vec.
  - apply vblock_app_r.
    + unfold vadd, vblock. now rewrite !length_mk_vec.
    + unfold vblock. now rewrite length_mk_vec.
Qed.

Lemma cos_0_neq_0 : cos 0 <> 0.
Proof. rewrite cos_0. lra. Qed.

Lemma prediction_model_correct_witness :
  exists xp,
    f_prediction_model (vzero 12) 1 = Some xp
    /\ length xp = 12%nat
    /\ vblock xp 0 6
       = vadd (vblock (vzero 12) 0 6)
              (vscale 1 (mvmul (A_spec (vget (vzero 12) 3) (vget (vzero 12) 4)
                                       (vget (vzero 12) 5))
                               (vblock (vzero 12) 6 6)))
    /\ vblock xp 6 6 = vblock (vzero 12) 6 6.
Proof.
  apply (prediction_model_correct (vzero 12) 1).
  - reflexivity.
  - exact cos_0_neq_0.
Defined.

(** ** Wrapped angle differences *)

Lemma atan_nonpos t : t <= 0 -> atan t <= 0.
Proof.
  intros [Ht| ->].
  - left. rewrite <- atan_0. now apply atan_increasing.
  - rewrite atan_0. lra.
Qed.

Lemma atan_pos t : 0 < t -> 0 < atan t.
Proof. intros Ht. rewrite <- atan_0. now apply atan_increasing. Qed.

Lemma atan2_range y x : - PI < atan2 y x <= PI.
Proof.
  pose proof PI_RGT_0 as Hpi. pose proof (atan_bound (y / x)) as Hb.
  unfold atan2.
  destruct (Rlt_dec 0 x) as [Hx|Hx]; [lra|].
  destruct (Rlt_dec x 0) as [Hx'|Hx'].
  - destruct (Rle_dec 0 y) as [Hy|Hy].
    + assert (atan (y / x) <= 0); [|lra].
      apply atan_nonpos.
      replace (y / x) with (- (y * / - x)) by (field; lra).
      assert (0 < / - x) by (apply Rinv_0_lt_compat; lra).
      assert (0 <= y * / - x) by (apply Rmult_le_pos; lra).
      lra.
    + assert (0 < atan (y / x)); [|lra].
      apply atan_pos.
      replace (y / x) with ((- y) * / (- x)) by (field; lra).
      apply Rmult_lt_0_compat; [lra|]. apply Rinv_0_lt_compat. lra.
  - destruct (Rlt_dec 0 y); [lra|]. destruct (Rlt_dec y 0); lra.
Qed.

(** Where the cosine is positive, zero or negative on [(-PI, PI]]. *)
Lemma cos_sign_cases d :
  - PI < d <= PI ->
  (- (PI / 2) < d < PI / 2 /\ 0 < cos d)
  \/ (d = PI / 2 /\ cos d = 0 /\ sin d = 1)
  \/ (d = - (PI / 2) /\ cos d = 0 /\ sin d = -1)
  \/ (PI / 2 < d /\ cos d < 0 /\ 0 <= sin d)
  \/ (d < - (PI / 2) /\ cos d < 0 /\ sin d < 0).
Proof.
  intros [Hlo Hhi]. pose proof PI_RGT_0 as Hpi.
  destruct (Rtotal_order d (PI / 2)) as [H1|[H1|H1]].
  - destruct (Rtotal_order d (- (PI / 2))) as [H2|[H2|H2]].
    + right. right. right. right.
      pose proof (cos_gt_0 (d + PI)) as Hc. rewrite neg_cos in Hc.
      pose proof (sin_lt_0_var d). lra.
    + right. right. left. subst d.
      rewrite cos_neg, sin_neg, cos_PI2, sin_PI2. lra.
    + left. pose proof (cos_gt_0 d). lra.
  - right. left. subst d. rewrite cos_PI2, sin_PI2. lra.
  - right. right. right. left.
    pose proof (cos_lt_0 d). pose proof (sin_ge_0 d). lra.
Qed.

Lemma wrap_id d : - PI < d <= PI -> atan2 (sin d) (cos d) = d.
Proof.
  intros Hd. pose proof PI_RGT_0 as Hpi. unfold atan2.
  destruct (cos_sign_cases d Hd)
    as [[Hr Hc]|[(-> & Hc & Hs)|[(-> & Hc & Hs)|[(Hr & Hc & Hs)|(Hr & Hc & Hs)]]]].
  - destruct (Rlt_dec 0 (cos d)); [|contradiction].
    change (sin d / cos d) with (tan d). now apply atan_tan.
  - rewrite Hc, Hs.
    destruct (Rlt_dec 0 0); [lra|]. destruct (Rlt_dec 0 1); [reflexivity|lra].
  - rewrite Hc, Hs.
    destruct (Rlt_dec 0 0); [lra|]. destruct (Rlt_dec 0 (-1)); [lra|].
    destruct (Rlt_dec (-1) 0); [reflexivity|lra].
  - destruct (Rlt_dec 0 (cos d)); [lra|].
    destruct (Rlt_dec (cos d) 0); [|contradiction].
    destruct (Rle_dec 0 (sin d)); [|contradiction].
    replace (sin d / cos d) with (tan (d - PI + PI - PI)).
    2:{ unfold tan. replace (d - PI + PI - PI) with (- (PI - d)) by lra.
        rewrite sin_neg, cos_neg.
        replace (PI - d) with (- d + PI) by lra.
        rewrite neg_sin, neg_cos, sin_neg, cos_neg. field. lra. }
    rewrite atan_tan by lra. lra.
  - destruct (Rlt_dec 0 (cos d)); [lra|].
    destruct (Rlt_dec (cos d) 0); [|contradiction].
    destruct (Rle_dec 0 (sin d)); [lra|].
    replace (sin d / cos d) with (tan (d + PI)).
    2:{ unfold tan. rewrite neg_sin, neg_cos. field. lra. }
    rewrite atan_tan by lra. lra.
Qed.

Lemma sin_period_Z x (k : Z) : sin (x + 2 * IZR k * PI) = sin x.
Proof.
  destruct (Z.le_gt_cases 0 k) as [Hk|Hk].
  - rewrite <- (Z2Nat.id k Hk), <- INR_IZR_INZ. apply sin_period.
  - rewrite <- (sin_period (x + 2 * IZR k * PI) (Z.to_nat (- k))).
    f_equal. rewrite INR_IZR_INZ, Z2Nat.id by lia. rewrite opp_IZR. lra.
Qed.

Lemma cos_period_Z x (k : Z) : cos (x + 2 * IZR k * PI) = cos x.
Proof.
  destruct (Z.le_gt_cases 0 k) as [Hk|Hk].
  - rewrite <- (Z2Nat.id k Hk), <- INR_IZR_INZ. apply cos_period.
  - rewrite <- (cos_period (x + 2 * IZR k * PI) (Z.to_nat (- k))).
    f_equal. rewrite INR_IZR_INZ, Z2Nat.id by lia. rewrite opp_IZR. lra.
Qed.

(** Every real has a representative in [(-PI, PI]] modulo [2 PI]. *)
Lemma angle_representative d :
  exists k : Z, - PI < d + 2 * IZR k * PI <= PI.
Proof.
  pose proof PI_RGT_0 as Hpi.
  exists (Int_part ((PI - d) / (2 * PI))).
  destruct (base_Int_part ((PI - d) / (2 * PI))) as [H1 H2].
  set (k := IZR (Int_part ((PI - d) / (2 * PI)))) in *.
  assert (E : (PI - d) / (2 * PI) * (2 * PI) = PI - d) by (field; lra).
  split.
  - assert ((PI - d) / (2 * PI) * (2 * PI) < (k + 1) * (2 * PI))
      by (apply Rmult_lt_compat_r; lra).
    lra.
  - assert (k * (2 * PI) <= (PI - d) / (2 * PI) * (2 * PI))
      by (apply Rmult_le_compat_r; lra).
    lra.
Qed.

Lemma wrap_representative d :
  exists k : Z, atan2 (sin d) (cos d) = d + 2 * IZR k * PI.
Proof.
  destruct (angle_representative d) as [k Hk]. exists k.
  rewrite <- (sin_period_Z d k), <- (cos_period_Z d k).
  now apply wrap_id.
Qed.

(** C8.  The wrapped difference [atan2(sin D, cos D)] of 359 and 1 degrees
    is -2 degrees, not 358 degrees; for any two angles it lies in
    [(-PI, PI]] and differs from the raw difference by a multiple of
    [2 PI]. *)
Theorem wrapped_angle_difference :
  wrap_diff (deg 359) (deg 1) = deg (-2)
  /\ wrap_diff (deg 359) (deg 1) <> deg 358
  /\ (forall a b,
         - PI < wrap_diff a b <= PI
         /\ exists k : Z, wrap_diff a b = (a - b) + 2 * IZR k * PI).
Proof.
  pose proof PI_RGT_0 as Hpi.
  assert (E : wrap_diff (deg 359) (deg 1) = deg (-2)).
  { unfold wrap_diff, deg.
    replace (359 * PI / 180 - 1 * PI / 180)
      with (-2 * PI / 180 + 2 * IZR 1 * PI) by lra.
    rewrite sin_period_Z, cos_period_Z. apply wrap_id. lra. }
  split; [exact E|]. split.
  - rewrite E. unfold deg. lra.
  - intros a b. split.
    + apply atan2_range.
    + apply wrap_representative.
Qed.

(** ** The indirect lidar measurement *)

Lemma wf_mat_3_3 (a b c d e f g h i : R) :
  wf_mat 3 3 [[a; b; c]; [d; e; f]; [g; h; i]].
Proof. split; [reflexivity|]. repeat constructor. Qed.

Lemma euler_rate_inverse r p :
  cos p <> 0 -> is_inverse 3 (euler_rate r p) (euler_rate_inv r p).
Proof.
  intros Hc.
  assert (Hr : cos r ^ 2 = 1 - sin r ^ 2).
  { pose proof (sin2_cos2 r) as H. unfold Rsqr in H. simpl. lra. }
  split; [apply wf_mat_3_3|].
  split; eigen_unfold; unfold tan;
    repeat (f_equal;
            try solve [ring | field; assumption
                      | field_simplify_eq; try assumption;
                        rewrite ?Hr; ring]).
Qed.

Lemma inverse_euler_rate r p :
  cos p <> 0 -> inverse (euler_rate r p) = Some (euler_rate_inv r p).
Proof.
  intros Hc. apply (inverse_unique 3).
  - apply wf_mat_3_3.
  - lia.
  - now apply euler_rate_inverse.
Qed.

(** Where the pitch cosine vanishes the Jacobian has a zero row. *)
Lemma euler_rate_invertible r p :
  (exists Ji, is_inverse 3 (euler_rate r p) Ji) <-> cos p <> 0.
Proof.
  split.
  - intros (Ji & HJi & HJ & _) Hc.
    assert (E : mget (mmul (euler_rate r p) Ji) 2 2 = mget (identity 3) 2 2)
      by now rewrite HJ.
    rewrite (mget_mmul 3 3 3) in E; try lia; try assumption;
      [|apply wf_mat_3_3].
    unfold euler_rate in E. rewrite Hc in E.
    cbv [sum_n mget nth identity mk_mat map seq Nat.eqb] in E.
    unfold Rdiv in E. rewrite Rinv_0 in E. lra.
  - intros Hc. exists (euler_rate_inv r p). now apply euler_rate_inverse.
Qed.

Lemma indirect_lidar_measurement_defined (u ul : Vec) (dt : R) :
  length u = 6%nat -> length ul = 6%nat ->
  cos (vget ul 4) <> 0 -> dt <> 0 ->
  indirect_lidar_measurement u ul dt = Some (indirect_spec u ul dt).
Proof.
  intros Hu Hul Hc Hdt. unfold indirect_lidar_measurement.
  rewrite ftan_defined, !fdiv_defined by exact Hc. cbn [bind].
  change [[1; sin (vget ul 3) * tan (vget ul 4);
           cos (vget ul 3) * tan (vget ul 4)];
          [0; cos (vget ul 3); - sin (vget ul 3)];
          [0; sin (vget ul 3) / cos (vget ul 4);
           cos (vget ul 3) / cos (vget ul 4)]]
    with (euler_rate (vget ul 3) (vget ul 4)).
  rewrite inverse_euler_rate by exact Hc. cbn [bind].
  rewrite vdiv_defined by exact Hdt. f_equal.
  explode_vec u Hu. explode_vec ul Hul.
  eigen_unfold. repeat (f_equal; try ring).
Qed.

Lemma indirect_lidar_measurement_singular (u ul : Vec) (dt : R) :
  cos (vget ul 4) = 0 -> indirect_lidar_measurement u ul dt = None.
Proof.
  intros Hc. unfold indirect_lidar_measurement. now rewrite ftan_undefined.
Qed.

Lemma atan2_0_1 : atan2 0 1 = 0.
Proof.
  unfold atan2. destruct (Rlt_dec 0 1); [|lra].
  unfold Rdiv. now rewrite Rmult_0_l, atan_0.
Qed.

Lemma wrap_diff_same a : wrap_diff a a = 0.
Proof.
  unfold wrap_diff. replace (a - a) with 0 by ring.
  rewrite sin_0, cos_0. apply atan2_0_1.
Qed.

(** C3.  With the current pose equal to the previous one, the Euler-rate
    Jacobian at that pose invertible and a positive elapsed time, the
    synthetic twist is the zero 6-vector. *)
Theorem indirect_measurement_same_pose (u : Vec) (dt : R) :
  length u = 6%nat ->
  (exists Ji, is_inverse 3 (euler_rate (vget u 3) (vget u 4)) Ji) ->
  0 < dt ->
  indirect_lidar_measurement u u dt = Some (vzero 6).
Proof.
  intros Hu HJ Hdt. apply euler_rate_invertible in HJ.
  rewrite indirect_lidar_measurement_defined by (try assumption; lra).
  f_equal. unfold indirect_spec, pose_diff. rewrite !wrap_diff_same.
  explode_vec u Hu. eigen_unfold.
  repeat (f_equal; try (field; lra)).
Qed.

Lemma euler_rate_at_origin :
  exists Ji, is_inverse 3 (euler_rate (vget (vzero 6) 3) (vget (vzero 6) 4)) Ji.
Proof.
  exists (euler_rate_inv 0 0). apply euler_rate_inverse. exact cos_0_neq_0.
Qed.

Lemma indirect_measurement_same_pose_witness :
  indirect_lidar_measurement (vzero 6) (vzero 6) 0.1 = Some (vzero 6).
Proof.
  apply (indirect_measurement_same_pose (vzero 6) 0.1).
  - reflexivity.
  - exact euler_rate_at_origin.
  - lra.
Defined.

(** ** Kalman corrections *)

Lemma nrows_mmul A B : nrows (mmul A B) = nrows A.
Proof. unfold mmul. apply nrows_mk_mat. Qed.

Lemma nrows_innovation_cov H P0 E :
  nrows (innovation_cov H P0 E) = nrows H.
Proof.
  unfold innovation_cov, madd. now rewrite nrows_mk_mat, !nrows_mmul.
Qed.

Lemma inverse_defined n M :
  nrows M = n -> (exists Mi, is_inverse n M Mi) ->
  exists Mi, inverse M = Some Mi /\ is_inverse n M Mi.
Proof.
  intros Hn HM. destruct (inverse M) as [Mi|] eqn:E.
  - exists Mi. split; [reflexivity|]. apply inverse_Some in E. now rewrite Hn in E.
  - apply inverse_None in E. rewrite Hn in E. contradiction.
Qed.

Lemma inverse_singular M : singular M -> inverse M = None.
Proof. intros H. now apply inverse_None. Qed.

Lemma vget_overflow (v : Vec) k : (length v <= k)%nat -> vget v k = 0.
Proof. intros H. unfold vget. now apply nth_overflow. Qed.

Lemma vget_vsub_self (u : Vec) k : vget (vsub u u) k = 0.
Proof.
  unfold vsub. destruct (Nat.lt_ge_cases k (length u)) as [Hk|Hk].
  - rewrite vget_mk_vec by assumption. ring.
  - apply vget_overflow. now rewrite length_mk_vec.
Qed.

Lemma mvmul_zero K (v : Vec) :
  (forall k, vget v k = 0) -> mvmul K v = vzero (nrows K).
Proof.
  intros Hv. unfold mvmul, vzero. apply mk_vec_ext. intros i _.
  apply sum_n_zero. intros k _. rewrite Hv. ring.
Qed.

Lemma vadd_zero_r (u : Vec) n : length u = n -> vadd u (vzero n) = u.
Proof.
  intros Hu. rewrite (vec_eta u) at 2. unfold vadd. apply mk_vec_ext.
  intros i Hi. unfold vzero. rewrite vget_mk_vec by lia. ring.
Qed.

(** With a zero innovation the gain does not matter. *)
Lemma zero_innovation_update (x hx : Vec) (K : Mat) :
  nrows K = length x -> vadd x (mvmul K (vsub hx hx)) = x.
Proof.
  intros HK. rewrite mvmul_zero by apply vget_vsub_self.
  now apply vadd_zero_r.
Qed.

Lemma correction_wheel_zero_innovation s e dt :
  est (kf s) = Some e ->
  length (X e) = 12%nat -> wf_mat 12 12 (P e) ->
  wheelMeasure (wheel s) = [vget (X e) 6; vget (X e) 11] ->
  (exists Si, is_inverse 2 (innovation_cov H_wheel (P e) (E_wheel (wheel s))) Si) ->
  exists P', est (kf (fst (correction_wheel_stage dt s)))
             = Some {| X := X e; P := P' |}.
Proof.
  intros He HX [HP _] HY HS.
  destruct (inverse_defined 2 _ (nrows_innovation_cov H_wheel _ _) HS)
    as (Si & E & _).
  unfold correction_wheel_stage. cbn [fst with_est kf est].
  rewrite He. cbn [bind].
  change (vset (vset (vzero N_WHEEL) 0 (vget (X e) 6)) 1 (vget (X e) 11))
    with [vget (X e) 6; vget (X e) 11].
  rewrite HY.
  change (madd (mmul (mmul (mset (mset (mzero N_WHEEL N_STATES) 0 6 1) 1 11 1)
                           (P e))
                     (transpose (mset (mset (mzero N_WHEEL N_STATES) 0 6 1)
                                      1 11 1)))
               (E_wheel (wheel s)))
    with (innovation_cov H_wheel (P e) (E_wheel (wheel s))).
  rewrite E. cbn [bind]. eexists. f_equal. f_equal.
  apply zero_innovation_update. rewrite !nrows_mmul. unfold nrows. congruence.
Qed.

Lemma correction_imu_zero_innovation s e dt :
  est (kf s) = Some e ->
  length (X e) = 12%nat -> wf_mat 12 12 (P e) ->
  vblock (imuMeasure (imu s)) 6 3 = vblock (X e) 3 3 ->
  (exists Si, is_inverse 3 (innovation_cov H_imu (P e)
                              (mblock (E_imu (imu s)) 6 6 3 3)) Si) ->
  exists P', est (kf (fst (correction_imu_stage dt s)))
             = Some {| X := X e; P := P' |}.
Proof.
  intros He HX [HP _] HY HS.
  destruct (inverse_defined 3 _ (nrows_innovation_cov H_imu _ _) HS)
    as (Si & E & _).
  unfold correction_imu_stage. cbn [fst with_est kf est].
  rewrite He. cbn [bind]. rewrite HY.
  change (madd (mmul (mmul (mset_block (mzero 3 N_STATES) 0 3 3 3 (identity 3))
                           (P e))
                     (transpose (mset_block (mzero 3 N_STATES) 0 3 3 3
                                            (identity 3))))
               (mblock (E_imu (imu s)) 6 6 3 3))
    with (innovation_cov H_imu (P e) (mblock (E_imu (imu s)) 6 6 3 3)).
  rewrite E. cbn [bind]. eexists. f_equal. f_equal.
  apply zero_innovation_update. rewrite !nrows_mmul. unfold nrows. congruence.
Qed.

(** C6, as the code has it.  When the innovation covariance is invertible,
    the wheel correction with the measurement equal to [(X(6), X(11))], and
    the inertial correction with the measured angles equal to [X(3..5)],
    leave the state vector unchanged. *)
Theorem corrections_fixed_point (s : State) (e : Estimate) (dt : R) :
  est (kf s) = Some e ->
  length (X e) = 12%nat -> wf_mat 12 12 (P e) ->
  (wheelMeasure (wheel s) = [vget (X e) 6; vget (X e) 11] ->
   (exists Si, is_inverse 2 (innovation_cov H_wheel (P e)
                               (E_wheel (wheel s))) Si) ->
   exists P', est (kf (fst (correction_wheel_stage dt s)))
              = Some {| X := X e; P := P' |})
  /\ (vblock (imuMeasure (imu s)) 6 3 = vblock (X e) 3 3 ->
      (exists Si, is_inverse 3 (innovation_cov H_imu (P e)
                                  (mblock (E_imu (imu s)) 6 6 3 3)) Si) ->
      exists P', est (kf (fst (correction_imu_stage dt s)))
                 = Some {| X := X e; P := P' |}).
Proof.
  intros He HX HP. split.
  - now apply correction_wheel_zero_innovation.
  - now apply correction_imu_zero_innovation.
Qed.

Lemma wf_P_init : wf_mat 12 12 P_init.
Proof.
  split; [reflexivity|]. unfold P_init. eigen_unfold. repeat constructor.
Qed.

Lemma wheel_innovation_at_init :
  is_inverse 2 (innovation_cov H_wheel P_init (mzero 2 2)) [[10; 0]; [0; 10]].
Proof.
  split; [split; [reflexivity|repeat constructor]|].
  unfold P_init.
  split; eigen_unfold; repeat (f_equal; try lra).
Qed.

Lemma imu_innovation_at_init :
  is_inverse 3 (innovation_cov H_imu P_init (mblock (mzero 9 9) 6 6 3 3))
             [[10; 0; 0]; [0; 10; 0]; [0; 0; 10]].
Proof.
  split; [apply wf_mat_3_3|].
  unfold P_init.
  split; eigen_unfold; repeat (f_equal; try lra).
Qed.

Lemma corrections_fixed_point_witness :
  (exists P', est (kf (fst (correction_wheel_stage 0.05 (initialization 0))))
              = Some {| X := vzero 12; P := P' |})
  /\ (exists P', est (kf (fst (correction_imu_stage 0.01 (initialization 0))))
                 = Some {| X := vzero 12; P := P' |}).
Proof.
  destruct (corrections_fixed_point (initialization 0)
              {| X := vzero 12; P := P_init |} 0.05
              eq_refl eq_refl wf_P_init) as [Hw _].
  destruct (corrections_fixed_point (initialization 0)
              {| X := vzero 12; P := P_init |} 0.01
              eq_refl eq_refl wf_P_init) as [_ Hi].
  split.
  - apply Hw; [reflexivity|].
    exists [[10; 0]; [0; 10]]. exact wheel_innovation_at_init.
  - apply Hi; [reflexivity|].
    exists [[10; 0; 0]; [0; 10; 0]; [0; 0; 10]]. exact imu_innovation_at_init.
Defined.

(** The zero matrix has no inverse. *)
Lemma mzero_singular n : (0 < n)%nat -> singular (mzero n n).
Proof.
  intros Hn (Mi & HMi & HM & _).
  unfold mzero in *. rewrite nrows_mk_mat in *.
  assert (E : mget (mmul (mk_mat n n (fun _ _ => 0)) Mi) 0 0
              = mget (identity n) 0 0) by now rewrite HM.
  rewrite (mget_mmul n n n) in E; try assumption; [|apply wf_mk_mat].
  unfold identity in E. rewrite mget_mk_mat in E by assumption.
  rewrite sum_n_zero in E.
  - simpl in E. lra.
  - intros k Hk. rewrite mget_mk_mat by assumption. ring.
Qed.

Lemma degenerate_innovation :
  innovation_cov H_wheel (mzero 12 12) (mzero 2 2) = mzero 2 2.
Proof. eigen_unfold. repeat (f_equal; try lra). Qed.

Lemma degenerate_innovation_singular :
  singular (innovation_cov H_wheel (mzero 12 12) (mzero 2 2)).
Proof. rewrite degenerate_innovation. apply mzero_singular. lia. Qed.

Lemma correction_wheel_singular s e dt :
  est (kf s) = Some e ->
  singular (innovation_cov H_wheel (P e) (E_wheel (wheel s))) ->
  est (kf (fst (correction_wheel_stage dt s))) = None.
Proof.
  intros He HS. unfold correction_wheel_stage. cbn [fst with_est kf est].
  rewrite He. cbn [bind].
  change (madd (mmul (mmul (mset (mset (mzero N_WHEEL N_STATES) 0 6 1) 1 11 1)
                           (P e))
                     (transpose (mset (mset (mzero N_WHEEL N_STATES) 0 6 1)
                                      1 11 1)))
               (E_wheel (wheel s)))
    with (innovation_cov H_wheel (P e) (E_wheel (wheel s))).
  now rewrite (inverse_singular _ HS).
Qed.

Lemma correction_imu_singular s e dt :
  est (kf s) = Some e ->
  singular (innovation_cov H_imu (P e) (mblock (E_imu (imu s)) 6 6 3 3)) ->
  est (kf (fst (correction_imu_stage dt s))) = None.
Proof.
  intros He HS. unfold correction_imu_stage. cbn [fst with_est kf est].
  rewrite He. cbn [bind].
  change (madd (mmul (mmul (mset_block (mzero 3 N_STATES) 0 3 3 3 (identity 3))
                           (P e))
                     (transpose (mset_block (mzero 3 N_STATES) 0 3 3 3
                                            (identity 3))))
               (mblock (E_imu (imu s)) 6 6 3 3))
    with (innovation_cov H_imu (P e) (mblock (E_imu (imu s)) 6 6 3 3)).
  now rewrite (inverse_singular _ HS).
Qed.

Lemma correction_lidar_singular s e dt Q :
  est (kf s) = Some e ->
  lidar_Q s dt = Some Q ->
  singular (innovation_cov H_lidar (P e) Q) ->
  est (kf (fst (correction_lidar_stage dt s))) = None.
Proof.
  intros He HQ HS. unfold correction_lidar_stage. cbn [fst kf est].
  rewrite He. cbn [bind].
  destruct (indirect_lidar_measurement _ _ _) as [Y|]; [|reflexivity].
  cbn [bind]. fold (lidar_Q s dt). rewrite HQ. cbn [bind].
  change (madd (mmul (mmul (mset_block (mzero N_LIDAR N_STATES) 0 6 6 6
                                       (identity N_LIDAR)) (P e))
                     (transpose (mset_block (mzero N_LIDAR N_STATES) 0 6 6 6
                                            (identity N_LIDAR))))
               Q)
    with (innovation_cov H_lidar (P e) Q).
  now rewrite (inverse_singular _ HS).
Qed.

Lemma corrections_report_nothing s dt :
  Forall (fun a => is_diagnostic a = false)
         (snd (correction_wheel_stage dt s)
          ++ snd (correction_imu_stage dt s)
          ++ snd (correction_lidar_stage dt s)).
Proof. repeat constructor. Qed.

Lemma degenerate_wheel_correction dt :
  est (kf (fst (correction_wheel_stage dt degenerate_state))) = None.
Proof.
  apply (correction_wheel_singular degenerate_state
           {| X := vzero N_STATES; P := mzero N_STATES N_STATES |} dt eq_refl).
  exact degenerate_innovation_singular.
Qed.

(** C6, as stated, fails where the innovation covariance is singular: with
    zero state covariance and zero wheel noise the measurement equals
    [(X(6), X(11))], and the correction leaves no state vector at all. *)
Lemma wheel_fixed_point_needs_invertible_S :
  wheelMeasure (wheel degenerate_state)
  = [vget (vzero 12) 6; vget (vzero 12) 11]
  /\ est (kf degenerate_state)
     = Some {| X := vzero 12; P := mzero 12 12 |}
  /\ ~ (exists e', est (kf (fst (correction_wheel_stage 0.05 degenerate_state)))
                   = Some e'
                   /\ X e' = vzero 12).
Proof.
  split; [reflexivity|]. split; [reflexivity|].
  intros (e' & He' & _). rewrite degenerate_wheel_correction in He'.
  discriminate.
Qed.

(** C4, as the code has it.  No correction guards the inversion of the
    innovation covariance, and none reports a diagnostic, whatever its input.
    When the innovation covariance is the zero matrix the update is not
    skipped: every pivot is zero, the inverse has no finite value, and
    neither has the estimate after the correction. *)
Theorem singular_innovation_not_skipped (s : State) (e : Estimate) (dt : R) :
  est (kf s) = Some e ->
  (innovation_cov H_wheel (P e) (E_wheel (wheel s)) = mzero 2 2 ->
   est (kf (fst (correction_wheel_stage dt s))) = None)
  /\ (innovation_cov H_imu (P e) (mblock (E_imu (imu s)) 6 6 3 3) = mzero 3 3 ->
      est (kf (fst (correction_imu_stage dt s))) = None)
  /\ (forall Q, lidar_Q s dt = Some Q ->
                innovation_cov H_lidar (P e) Q = mzero 6 6 ->
                est (kf (fst (correction_lidar_stage dt s))) = None)
  /\ Forall (fun a => is_diagnostic a = false)
            (snd (correction_wheel_stage dt s)
             ++ snd (correction_imu_stage dt s)
             ++ snd (correction_lidar_stage dt s)).
Proof.
  intros He. split; [|split; [|split]].
  - intros HS. apply (correction_wheel_singular s e dt He).
    rewrite HS. apply mzero_singular. lia.
  - intros HS. apply (correction_imu_singular s e dt He).
    rewrite HS. apply mzero_singular. lia.
  - intros Q HQ HS. apply (correction_lidar_singular s e dt Q He HQ).
    rewrite HS. apply mzero_singular. lia.
  - apply corrections_report_nothing.
Qed.

Lemma singular_innovation_not_skipped_witness :
  est (kf (fst (correction_wheel_stage 0.05 degenerate_state))) = None.
Proof.
  apply (proj1 (singular_innovation_not_skipped degenerate_state
                  {| X := vzero N_STATES; P := mzero N_STATES N_STATES |}
                  0.05 eq_refl)).
  exact degenerate_innovation.
Defined.

(** C4, as stated, fails: with a singular innovation covariance the wheel
    correction does not leave the estimate as predicted, and reports
    nothing. *)
Lemma singular_wheel_update_not_skipped :
  singular (innovation_cov H_wheel (mzero 12 12)
                           (E_wheel (wheel degenerate_state)))
  /\ est (kf (fst (correction_wheel_stage 0.05 degenerate_state)))
     <> est (kf degenerate_state)
  /\ snd (correction_wheel_stage 0.05 degenerate_state) = [].
Proof.
  split; [exact degenerate_innovation_singular|]. split; [|reflexivity].
  rewrite degenerate_wheel_correction. discriminate.
Qed.

(** ** Prediction with zero elapsed time *)

Lemma prediction_spec_dt0 (x : Vec) :
  length x = 12%nat -> prediction_spec x 0 = x.
Proof.
  intros Hx. explode_vec x Hx. unfold prediction_spec.
  eigen_unfold. repeat (f_equal; try ring).
Qed.

Lemma f_prediction_model_dt0 (x : Vec) :
  length x = 12%nat -> cos (vget x 4) <> 0 -> f_prediction_model x 0 = Some x.
Proof.
  intros Hx Hc. rewrite f_prediction_model_spec by assumption.
  now rewrite prediction_spec_dt0.
Qed.

(** The forward differences of the identity map: 1 on the diagonal, but
    [sin(step)/step] on the three angle rows. *)
Lemma jacobian_state_dt0 (x : Vec) :
  length x = 12%nat ->
  cos (vget x 4) <> 0 -> cos (vget x 4 + 0.0001) <> 0 ->
  jacobian_state x 0 = Some F_dt0.
Proof.
  intros Hx Hc Hc'. explode_vec x Hx.
  unfold jacobian_state.
  cbv [vget nth] in Hc, Hc'.
  rewrite f_prediction_model_dt0 by (try reflexivity; exact Hc).
  cbn [bind N_STATES seq fold_left].
  cbv [vset mk_vec map seq length vget nth Nat.eqb].
  rewrite !f_prediction_model_dt0
    by (try reflexivity; cbv [vget nth]; assumption).
  cbn [bind]. f_equal.
  eigen_unfold. unfold F_dt0, angle_gain. eigen_unfold.
  repeat match goal with
         | |- context [sin (?a - ?a)] => replace (a - a) with 0 by ring
         | |- context [sin (?a + ?d - ?a)] => replace (a + d - a) with d by ring
         end.
  rewrite sin_0.
  repeat (f_equal; try lra).
Qed.

Lemma sum_n_pick_l n i c f :
  (i < n)%nat ->
  sum_n n (fun k => (if Nat.eqb i k then c else 0) * f k) = c * f i.
Proof.
  intros Hi. rewrite <- (sum_n_delta_l n i f Hi), <- sum_n_scal_l.
  apply sum_n_ext. intros k _. destruct (Nat.eqb i k); ring.
Qed.

Lemma sum_n_pick_r n j c f :
  (j < n)%nat ->
  sum_n n (fun k => f k * (if Nat.eqb k j then c else 0)) = f j * c.
Proof.
  intros Hj. rewrite <- (sum_n_delta_r n j f Hj), <- sum_n_scal_r.
  apply sum_n_ext. intros k _. destruct (Nat.eqb k j); ring.
Qed.

Lemma wf_diag (d : Vec) : wf_mat (length d) (length d) (diag d).
Proof. apply wf_mk_mat. Qed.

Lemma mget_diag (d : Vec) i j :
  (i < length d)%nat -> (j < length d)%nat ->
  mget (diag d) i j = if Nat.eqb i j then vget d i else 0.
Proof. intros Hi Hj. unfold diag. now rewrite mget_mk_mat. Qed.

Lemma transpose_diag (d : Vec) : (0 < length d)%nat -> transpose (diag d) = diag d.
Proof.
  intros Hd. unfold transpose.
  rewrite (wf_nrows _ _ _ (wf_diag d)), (wf_ncols _ _ _ (wf_diag d) Hd).
  unfold diag at 2. apply mk_mat_ext. intros i j Hi Hj.
  rewrite mget_diag by assumption.
  destruct (Nat.eqb_spec j i) as [->|Hne].
  - now rewrite Nat.eqb_refl.
  - destruct (Nat.eqb_spec i j); [congruence|reflexivity].
Qed.

Lemma mmul_diag_l (d : Vec) n m A :
  length d = n -> wf_mat n m A -> (0 < n)%nat ->
  mmul (diag d) A = mk_mat n m (fun i j => vget d i * mget A i j).
Proof.
  intros Hd HA Hn. subst n. unfold mmul.
  rewrite (wf_nrows _ _ _ (wf_diag d)), (wf_ncols _ _ _ (wf_diag d) Hn),
    (wf_ncols _ _ _ HA Hn).
  apply mk_mat_ext. intros i j Hi Hj.
  rewrite (sum_n_ext _ _
    (fun k => (if Nat.eqb i k then vget d i else 0) * mget A k j)).
  - now apply (sum_n_pick_l (length d) i (vget d i) (fun k => mget A k j)).
  - intros k Hk. now rewrite mget_diag.
Qed.

Lemma mmul_diag_r (d : Vec) n m A :
  length d = m -> wf_mat n m A -> (0 < n)%nat -> (0 < m)%nat ->
  mmul A (diag d) = mk_mat n m (fun i j => mget A i j * vget d j).
Proof.
  intros Hd HA Hn Hm. subst m. unfold mmul.
  rewrite (wf_nrows _ _ _ HA), (wf_ncols _ _ _ (wf_diag d) Hm),
    (wf_ncols _ _ _ HA Hn).
  apply mk_mat_ext. intros i j Hi Hj.
  rewrite (sum_n_ext _ _
    (fun k => mget A i k * (if Nat.eqb k j then vget d j else 0))).
  - now apply (sum_n_pick_r (length d) j (vget d j) (fun k => mget A i k)).
  - intros k Hk. rewrite mget_diag by assumption.
    destruct (Nat.eqb_spec k j) as [->|]; reflexivity.
Qed.

Lemma madd_mk_mat n m f E :
  (0 < n)%nat ->
  madd (mk_mat n m f) E = mk_mat n m (fun i j => f i j + mget E i j).
Proof.
  intros Hn. unfold madd. rewrite nrows_mk_mat, ncols_mk_mat by assumption.
  apply mk_mat_ext. intros i j Hi Hj. now rewrite mget_mk_mat.
Qed.

(** [F P F^T + Q] for the Jacobian at [dt = 0]. *)
Lemma covariance_dt0 (P0 E : Mat) :
  wf_mat 12 12 P0 ->
  madd (mmul (mmul F_dt0 P0) (transpose F_dt0)) E
  = mk_mat 12 12 (fun i j => angle_gain i * mget P0 i j * angle_gain j
                             + mget E i j).
Proof.
  intros HP. unfold F_dt0.
  assert (Hl : length (mk_vec N_STATES angle_gain) = 12%nat)
    by apply length_mk_vec.
  rewrite transpose_diag by (rewrite Hl; lia).
  rewrite (mmul_diag_l _ 12 12) by (try assumption; lia).
  rewrite (mmul_diag_r _ 12 12) by (try assumption; try apply wf_mk_mat; lia).
  rewrite madd_mk_mat by lia.
  apply mk_mat_ext. intros i j Hi Hj.
  rewrite mget_mk_mat by assumption.
  unfold N_STATES. now rewrite !vget_mk_vec.
Qed.

Lemma prediction_stage_dt0 s e :
  est (kf s) = Some e ->
  length (X e) = 12%nat -> wf_mat 12 12 (P e) ->
  cos (vget (X e) 4) <> 0 -> cos (vget (X e) 4 + 0.0001) <> 0 ->
  est (kf (fst (prediction_stage 0 s)))
  = Some {| X := X e;
            P := madd (mmul (mmul F_dt0 (P e)) (transpose F_dt0))
                      (E_pred (kf s)) |}.
Proof.
  intros He HX HP Hc Hc'. unfold prediction_stage. cbn [fst with_est kf est].
  rewrite He. cbn [bind].
  rewrite jacobian_state_dt0 by assumption. cbn [bind].
  rewrite f_prediction_model_dt0 by assumption. reflexivity.
Qed.

Lemma angle_gain_off i : in_range 3 3 i = false -> angle_gain i = 1.
Proof. intros H. unfold angle_gain. now rewrite H. Qed.

(** C5, as the code has it.  Prediction with [dt = 0] leaves [X] unchanged.
    The covariance becomes [F P F^T + Q_pred] where [F] is the identity
    except for [sin(1e-4)/1e-4] on the three angle rows: outside the angle
    rows and columns the covariance changes by the addition of [Q_pred]
    only, inside them [P] is first scaled by that factor. *)
Theorem prediction_with_zero_dt (s : State) (e : Estimate) :
  est (kf s) = Some e ->
  length (X e) = 12%nat -> wf_mat 12 12 (P e) ->
  cos (vget (X e) 4) <> 0 -> cos (vget (X e) 4 + 0.0001) <> 0 ->
  exists P',
    est (kf (fst (prediction_stage 0 s))) = Some {| X := X e; P := P' |}
    /\ P' = madd (mmul (mmul F_dt0 (P e)) (transpose F_dt0)) (E_pred (kf s))
    /\ (forall i j, (i < 12)%nat -> (j < 12)%nat ->
          mget P' i j = angle_gain i * mget (P e) i j * angle_gain j
                        + mget (E_pred (kf s)) i j)
    /\ (forall i j, (i < 12)%nat -> (j < 12)%nat ->
          in_range 3 3 i = false -> in_range 3 3 j = false ->
          mget P' i j = mget (P e) i j + mget (E_pred (kf s)) i j).
Proof.
  intros He HX HP Hc Hc'. eexists.
  split; [now apply prediction_stage_dt0|]. split; [reflexivity|].
  rewrite covariance_dt0 by assumption. split.
  - intros i j Hi Hj. now rewrite mget_mk_mat.
  - intros i j Hi Hj Hai Haj. rewrite mget_mk_mat by assumption.
    rewrite !angle_gain_off by assumption. ring.
Qed.

Lemma step_small : 0 < 0.0001 < PI / 2.
Proof. pose proof PI2_1. lra. Qed.

Lemma cos_step_neq_0 : cos (0 + 0.0001) <> 0.
Proof.
  pose proof step_small as [H1 H2]. pose proof (cos_gt_0 (0 + 0.0001)). lra.
Qed.

Lemma prediction_with_zero_dt_witness :
  exists P',
    est (kf (fst (prediction_stage 0 (initialization 0))))
    = Some {| X := vzero 12; P := P' |}
    /\ P' = madd (mmul (mmul F_dt0 P_init) (transpose F_dt0))
                 (E_pred (kf (initialization 0)))
    /\ (forall i j, (i < 12)%nat -> (j < 12)%nat ->
          mget P' i j = angle_gain i * mget P_init i j * angle_gain j
                        + mget (E_pred (kf (initialization 0))) i j)
    /\ (forall i j, (i < 12)%nat -> (j < 12)%nat ->
          in_range 3 3 i = false -> in_range 3 3 j = false ->
          mget P' i j = mget P_init i j
                        + mget (E_pred (kf (initialization 0))) i j).
Proof.
  exact (prediction_with_zero_dt (initialization 0)
           {| X := vzero 12; P := P_init |} eq_refl eq_refl wf_P_init
           cos_0_neq_0 cos_step_neq_0).
Defined.

Lemma angle_gain_lt_1 : 0 < angle_gain 3 < 1.
Proof.
  pose proof step_small as [H1 H2].
  pose proof (sin_lt_x 0.0001 H1) as Hlt.
  assert (Hpos : 0 < sin 0.0001) by (apply sin_gt_0; lra).
  unfold angle_gain. cbn [in_range Nat.leb Nat.ltb Nat.add andb].
  split.
  - apply Rdiv_lt_0_compat; lra.
  - apply (Rmult_lt_reg_r 0.0001); [lra|].
    unfold Rdiv. rewrite Rmult_assoc, Rinv_l by lra. lra.
Qed.

(** C5, as stated, fails: from the initial state, prediction with [dt = 0]
    does not give [P + Q_pred]; the roll variance 0.1 is scaled down. *)
Lemma zero_dt_prediction_rescales_angles :
  est (kf (fst (prediction_stage 0 (initialization 0))))
  <> Some {| X := vzero 12;
             P := madd P_init (E_pred (kf (initialization 0))) |}.
Proof.
  rewrite (prediction_stage_dt0 (initialization 0)
             {| X := vzero 12; P := P_init |} eq_refl eq_refl wf_P_init
             cos_0_neq_0 cos_step_neq_0).
  intros H.
  apply (f_equal (fun o => match o with
                           | Some e0 => mget (P e0) 3 3
                           | None => 0
                           end)) in H.
  cbn [P] in H. rewrite covariance_dt0 in H by exact wf_P_init.
  rewrite mget_mk_mat in H by lia. rename H into E.
  pose proof angle_gain_lt_1 as [Hg0 Hg1].
  assert (E1 : mget P_init 3 3 = 0.1) by reflexivity.
  assert (E2 : mget (E_pred (kf (initialization 0))) 3 3 = 0) by reflexivity.
  assert (E3 : mget (madd P_init (E_pred (kf (initialization 0)))) 3 3
               = 0.1 + 0) by reflexivity.
  rewrite E1, E2, E3 in E. nra.
Qed.

(** ** The retained previous lidar pose *)

Section Retained.

Variable getRPY : Quaternion -> R * R * R.
Variable cfg : Config.

Lemma run_prediction_retained dt_now s :
  retained (fst (run_prediction cfg dt_now s)) = retained s.
Proof. unfold run_prediction. destruct (enableFilter cfg); reflexivity. Qed.

Lemma run_imu_retained s : retained (fst (run_imu cfg s)) = retained s.
Proof.
  unfold run_imu.
  destruct (enableFilter cfg && enableImu cfg && imuActivated (imu s)
            && imuNew (imu s)); reflexivity.
Qed.

Lemma run_wheel_retained s : retained (fst (run_wheel cfg s)) = retained s.
Proof.
  unfold run_wheel.
  destruct (enableFilter cfg && enableWheel cfg && wheelActivated (wheel s)
            && wheelNew (wheel s)); reflexivity.
Qed.

Lemma run_lidar_retained s :
  (retained (fst (run_lidar cfg s)) = retained s
   /\ snd (run_lidar cfg s) = [])
  \/ (retained (fst (run_lidar cfg s)) = scan s
      /\ In (Invoke CorrLidar (lidar_dt (lidar s))) (snd (run_lidar cfg s))).
Proof.
  unfold run_lidar.
  destruct (enableFilter cfg && enableLidar cfg && lidarActivated (lidar s)
            && lidarNew (lidar s)).
  - right. split; [reflexivity|]. now left.
  - left. split; reflexivity.
Qed.

Lemma scan_of_frame s s' : frame s' = frame s -> scan s' = scan s.
Proof. unfold frame, scan. congruence. Qed.

Lemma run_iteration_retained dt_now s :
  retained (fst (run_iteration cfg dt_now s)) = retained s
  \/ (retained (fst (run_iteration cfg dt_now s)) = scan s
      /\ exists dt, In (Invoke CorrLidar dt) (snd (run_iteration cfg dt_now s))).
Proof.
  unfold run_iteration.
  pose proof (run_prediction_retained dt_now s) as R1.
  pose proof (run_prediction_frame cfg dt_now s) as F1.
  destruct (run_prediction cfg dt_now s) as [s1 o1].
  pose proof (run_imu_retained s1) as R2.
  pose proof (run_imu_frame cfg s1) as F2.
  destruct (run_imu cfg s1) as [s2 o2].
  pose proof (run_wheel_retained s2) as R3.
  pose proof (run_wheel_frame cfg s2) as F3.
  destruct (run_wheel cfg s2) as [s3 o3].
  pose proof (run_lidar_retained s3) as R4.
  destruct (run_lidar cfg s3) as [s4 o4].
  simpl in *.
  destruct R4 as [[R4 _]|[R4 Hin]].
  - left. congruence.
  - right. split.
    + rewrite R4. apply scan_of_frame. congruence.
    + exists (lidar_dt (lidar s3)). rewrite !in_app_iff. auto.
Qed.

Lemma step_retained s ev :
  retained (fst (step getRPY cfg s ev)) = retained s
  \/ (retained (fst (step getRPY cfg s ev)) = scan s
      /\ exists dt, In (Invoke CorrLidar dt) (snd (step getRPY cfg s ev))).
Proof.
  destruct ev as [dt_now|m|m|m]; simpl.
  - apply run_iteration_retained.
  - left. unfold imuHandler. destruct (imuActivated (imu s)); reflexivity.
  - left. unfold wheelOdometryHandler.
    destruct (wheelActivated (wheel s)); reflexivity.
  - left. unfold laserOdometryHandler.
    destruct (lidarActivated (lidar s)); reflexivity.
Qed.

Lemma exec_retained evs : forall s,
  (forall dt, ~ In (Invoke CorrLidar dt) (snd (exec getRPY cfg evs s))) ->
  retained (fst (exec getRPY cfg evs s)) = retained s.
Proof.
  induction evs as [|ev rest IH]; intros s Hno; simpl in *; [reflexivity|].
  pose proof (step_retained s ev) as Hs.
  destruct (step getRPY cfg s ev) as [s1 o1].
  specialize (IH s1).
  destruct (exec getRPY cfg rest s1) as [s2 o2]. simpl in *.
  assert (H1 : forall dt, ~ In (Invoke CorrLidar dt) o1).
  { intros dt Hin. apply (Hno dt). apply in_or_app. now left. }
  assert (H2 : forall dt, ~ In (Invoke CorrLidar dt) o2).
  { intros dt Hin. apply (Hno dt). apply in_or_app. now right. }
  rewrite (IH H2).
  destruct Hs as [Hs|[_ [dt Hin]]]; [exact Hs|].
  exfalso. exact (H1 dt Hin).
Qed.

End Retained.

Lemma wf_mset n m M i j x :
  wf_mat n m M -> (0 < n)%nat -> wf_mat n m (mset M i j x).
Proof.
  intros HM Hn. unfold mset.
  rewrite (wf_nrows _ _ _ HM), (wf_ncols _ _ _ HM Hn). apply wf_mk_mat.
Qed.

Lemma wf_mset_col n m M j v :
  wf_mat n m M -> (0 < n)%nat -> wf_mat n m (mset_col M j v).
Proof.
  intros HM Hn. unfold mset_col.
  rewrite (wf_nrows _ _ _ HM), (wf_ncols _ _ _ HM Hn). apply wf_mk_mat.
Qed.

Lemma wf_jacobian_column n m J i f0 f1 delta :
  wf_mat n m J -> (0 < n)%nat -> wf_mat n m (jacobian_column J i f0 f1 delta).
Proof.
  intros HJ Hn. unfold jacobian_column.
  repeat apply wf_mset; try assumption. now apply wf_mset_col.
Qed.

Lemma wf_mzero n m : wf_mat n m (mzero n m).
Proof. apply wf_mk_mat. Qed.

Lemma length_vset (v : Vec) i x : length (vset v i x) = length v.
Proof. unfold vset. apply length_mk_vec. Qed.

Lemma jacobian_lidar_measurement_defined (u ul : Vec) (dt : R) :
  length u = 6%nat -> length ul = 6%nat ->
  cos (vget ul 4) <> 0 -> dt <> 0 ->
  exists G, jacobian_lidar_measurement u ul dt = Some G /\ wf_mat 6 6 G.
Proof.
  intros Hu Hul Hc Hdt. unfold jacobian_lidar_measurement.
  rewrite indirect_lidar_measurement_defined by assumption.
  cbn [bind N_LIDAR seq fold_left].
  rewrite !indirect_lidar_measurement_defined
    by (try assumption; now rewrite length_vset).
  cbn [bind]. eexists. split; [reflexivity|].
  repeat apply wf_jacobian_column; try lia. apply wf_mzero.
Qed.

Lemma small_step : 0 < 0.0000001 < PI / 2.
Proof. pose proof PI2_1. lra. Qed.

Lemma cos_small_step_neq_0 : cos (0 + 0.0000001) <> 0.
Proof.
  pose proof small_step as [H1 H2].
  pose proof (cos_gt_0 (0 + 0.0000001)). lra.
Qed.

Lemma jacobian_lidar_measurementL_at_origin (u : Vec) (dt : R) :
  length u = 6%nat -> dt <> 0 ->
  exists Gl, jacobian_lidar_measurementL u (vzero 6) dt = Some Gl
             /\ wf_mat 6 6 Gl.
Proof.
  intros Hu Hdt. unfold jacobian_lidar_measurementL.
  rewrite indirect_lidar_measurement_defined
    by (try assumption; try reflexivity; exact cos_0_neq_0).
  cbn [bind N_LIDAR seq fold_left].
  cbv [vset vzero mk_vec map seq length vget nth Nat.eqb].
  rewrite !indirect_lidar_measurement_defined
    by (try assumption; try reflexivity; cbv [vget nth];
        first [exact cos_0_neq_0 | exact cos_small_step_neq_0]).
  cbn [bind]. eexists. split; [reflexivity|].
  repeat apply wf_jacobian_column; try lia. apply wf_mzero.
Qed.

Lemma indirect_spec_at_origin (u : Vec) (dt : R) :
  length u = 6%nat ->
  indirect_spec u (vzero 6) dt = vdiv_const (pose_diff u (vzero 6)) dt.
Proof.
  intros Hu. explode_vec u Hu. eigen_unfold. rewrite sin_0, cos_0.
  unfold Rdiv. repeat (f_equal; try ring).
Qed.

Lemma ncols_transpose n m A :
  wf_mat n m A -> (0 < n)%nat -> (0 < m)%nat -> ncols (transpose A) = n.
Proof.
  intros HA Hn Hm. unfold transpose.
  rewrite (wf_nrows _ _ _ HA), (wf_ncols _ _ _ HA Hn).
  now apply ncols_mk_mat.
Qed.

Lemma mmul_zero_r n m p A :
  wf_mat n m A -> (0 < n)%nat -> (0 < m)%nat ->
  mmul A (mzero m p) = mzero n p.
Proof.
  intros HA Hn Hm. unfold mmul, mzero.
  rewrite (wf_nrows _ _ _ HA), (wf_ncols _ _ _ HA Hn),
    (ncols_mk_mat m p _ Hm).
  apply mk_mat_ext. intros i j Hi Hj. apply sum_n_zero.
  intros k Hk. rewrite (mget_mk_mat m p) by assumption. ring.
Qed.

Lemma mmul_zero_l n m p B :
  wf_mat m p B -> (0 < n)%nat -> (0 < m)%nat ->
  mmul (mzero n m) B = mzero n p.
Proof.
  intros HB Hn Hm. unfold mmul, mzero.
  rewrite nrows_mk_mat, (ncols_mk_mat n m _ Hn), (wf_ncols _ _ _ HB Hm).
  apply mk_mat_ext. intros i j Hi Hj. apply sum_n_zero.
  intros k Hk. rewrite (mget_mk_mat n m) by assumption. ring.
Qed.

Lemma wf_transpose n m A :
  wf_mat n m A -> (0 < n)%nat -> wf_mat m n (transpose A).
Proof.
  intros HA Hn. unfold transpose.
  rewrite (wf_nrows _ _ _ HA), (wf_ncols _ _ _ HA Hn). apply wf_mk_mat.
Qed.

Lemma madd_zero_r n m A :
  wf_mat n m A -> (0 < n)%nat -> madd A (mzero n m) = A.
Proof.
  intros HA Hn. rewrite (mat_eta n m A HA) at 2. unfold madd.
  rewrite (wf_nrows _ _ _ HA), (wf_ncols _ _ _ HA Hn).
  apply mk_mat_ext. intros i j Hi Hj.
  unfold mzero. rewrite mget_mk_mat by assumption. ring.
Qed.

(** With no retained covariance the second term of [Q] vanishes. *)
Lemma propagated_covariance_first_scan (G Gl E : Mat) :
  wf_mat 6 6 G -> wf_mat 6 6 Gl ->
  madd (mmul (mmul G E) (transpose G))
       (mmul (mmul Gl (mzero 6 6)) (transpose Gl))
  = mmul (mmul G E) (transpose G).
Proof.
  intros HG HGl.
  rewrite (mmul_zero_r 6 6 6 Gl) by (try assumption; lia).
  rewrite (mmul_zero_l 6 6 6) by (try apply wf_transpose; try assumption; lia).
  apply (madd_zero_r 6 6); [|lia].
  unfold mmul at 1. rewrite nrows_mmul, (wf_nrows _ _ _ HG).
  rewrite (ncols_transpose 6 6) by (try assumption; lia).
  apply wf_mk_mat.
Qed.

Lemma first_lidar_correction_output s dt :
  dt <> 0 ->
  length (lidarMeasure (lidar s)) = 6%nat ->
  lidarMeasureL (kf s) = vzero 6 ->
  E_lidarL (kf s) = mzero 6 6 ->
  exists G,
    jacobian_lidar_measurement (lidarMeasure (lidar s)) (vzero 6) dt = Some G
    /\ snd (correction_lidar_stage dt s)
       = [PublishIndirect
            (Some (vdiv_const (pose_diff (lidarMeasure (lidar s)) (vzero 6)) dt))
            (Some (mmul (mmul G (E_lidar (lidar s))) (transpose G)))].
Proof.
  intros Hdt Hu HL HEL.
  destruct (jacobian_lidar_measurement_defined (lidarMeasure (lidar s))
              (vzero 6) dt Hu eq_refl cos_0_neq_0 Hdt) as (G & HG & HGwf).
  destruct (jacobian_lidar_measurementL_at_origin (lidarMeasure (lidar s))
              dt Hu Hdt) as (Gl & HGl & HGlwf).
  exists G. split; [exact HG|].
  unfold correction_lidar_stage, publish_indirect_lidar_measurement.
  cbn [snd]. rewrite HL, HEL, HG, HGl. cbn [bind].
  rewrite indirect_lidar_measurement_defined
    by (try assumption; try reflexivity; exact cos_0_neq_0).
  rewrite indirect_spec_at_origin by assumption.
  now rewrite propagated_covariance_first_scan.
Qed.

Lemma tenth_neq_0 : 0.1 <> 0.
Proof. lra. Qed.

(** The statement on the retained scan is in Part IV, with the first lidar
    correction of a run. *)

(* ================================================================== *)
(** * Part III: further properties of the node *)
(* ================================================================== *)

(** ** Sizes *)

Lemma length_vset_block (v : Vec) i n b : length (vset_block v i n b) = length v.
Proof. unfold vset_block. apply length_mk_vec. Qed.

Lemma wf_mset_block n m M i j p q B :
  wf_mat n m M -> (0 < n)%nat -> wf_mat n m (mset_block M i j p q B).
Proof.
  intros HM Hn. unfold mset_block.
  rewrite (wf_nrows _ _ _ HM), (wf_ncols _ _ _ HM Hn). apply wf_mk_mat.
Qed.

Lemma wf_msub n m A B : wf_mat n m A -> (0 < n)%nat -> wf_mat n m (msub A B).
Proof.
  intros HA Hn. unfold msub.
  rewrite (wf_nrows _ _ _ HA), (wf_ncols _ _ _ HA Hn). apply wf_mk_mat.
Qed.

Lemma wf_madd n m A B : wf_mat n m A -> (0 < n)%nat -> wf_mat n m (madd A B).
Proof.
  intros HA Hn. unfold madd.
  rewrite (wf_nrows _ _ _ HA), (wf_ncols _ _ _ HA Hn). apply wf_mk_mat.
Qed.

Lemma length_vadd (u v : Vec) : length (vadd u v) = length u.
Proof. unfold vadd. apply length_mk_vec. Qed.

Lemma bind_Some {A B : Type} (o : option A) (f : A -> option B) (b : B) :
  bind o f = Some b -> exists a, o = Some a /\ f a = Some b.
Proof. destruct o as [a|]; simpl; [eauto|discriminate]. Qed.

(** The loop of a numeric Jacobian keeps the size of the matrix it fills. *)
Lemma jacobian_loop_wf n m (f0 : Vec) (delta : R) (g : nat -> option Vec) l :
  (0 < n)%nat ->
  forall J0 F,
    fold_left (fun (J : option Mat) (i : nat) =>
                 J <- J ;; f1 <- g i ;;
                 Some (jacobian_column J i f0 f1 delta)) l J0 = Some F ->
    (forall J, J0 = Some J -> wf_mat n m J) ->
    wf_mat n m F.
Proof.
  intros Hn. induction l as [|i l IH]; intros J0 F HF HJ0; simpl in HF.
  - now apply HJ0.
  - apply (IH _ _ HF). intros J HJ.
    apply bind_Some in HJ. destruct HJ as (J1 & -> & HJ).
    apply bind_Some in HJ. destruct HJ as (f1 & _ & [= <-]).
    apply wf_jacobian_column; [now apply HJ0|assumption].
Qed.

Lemma jacobian_state_wf x dt F :
  jacobian_state x dt = Some F -> wf_mat 12 12 F.
Proof.
  unfold jacobian_state. intros H.
  apply bind_Some in H. destruct H as (f0 & _ & H).
  apply (jacobian_loop_wf 12 12 f0 0.0001
           (fun i => f_prediction_model (vset x i (vget x i + 0.0001)) dt)
           (seq 0 N_STATES)) in H; [assumption|lia|].
  intros J [= <-]. apply wf_mzero.
Qed.

Lemma jacobian_lidar_measurement_wf u ul dt G :
  jacobian_lidar_measurement u ul dt = Some G -> wf_mat 6 6 G.
Proof.
  unfold jacobian_lidar_measurement. intros H.
  apply bind_Some in H. destruct H as (f0 & _ & H).
  apply (jacobian_loop_wf 6 6 f0 0.0000001
           (fun i => indirect_lidar_measurement
                       (vset u i (vget u i + 0.0000001)) ul dt)
           (seq 0 N_LIDAR)) in H; [assumption|lia|].
  intros J [= <-]. apply wf_mzero.
Qed.

Lemma jacobian_lidar_measurementL_wf u ul dt G :
  jacobian_lidar_measurementL u ul dt = Some G -> wf_mat 6 6 G.
Proof.
  unfold jacobian_lidar_measurementL. intros H.
  apply bind_Some in H. destruct H as (f0 & _ & H).
  apply (jacobian_loop_wf 6 6 f0 0.0000001
           (fun i => indirect_lidar_measurement u
                       (vset ul i (vget ul i + 0.0000001)) dt)
           (seq 0 N_LIDAR)) in H; [assumption|lia|].
  intros J [= <-]. apply wf_mzero.
Qed.

Lemma f_prediction_model_length x dt xp :
  f_prediction_model x dt = Some xp -> length xp = 12%nat.
Proof.
  unfold f_prediction_model. intros H.
  apply bind_Some in H. destruct H as (t & _ & H).
  apply bind_Some in H. destruct H as (j21 & _ & H).
  apply bind_Some in H. destruct H as (j22 & _ & [= <-]).
  now rewrite !length_vset_block.
Qed.

Lemma wf_covariance_propagation F P0 E :
  wf_mat 12 12 F -> wf_mat 12 12 (madd (mmul (mmul F P0) (transpose F)) E).
Proof.
  intros HF. unfold madd.
  rewrite !nrows_mmul, (wf_nrows _ _ _ HF).
  unfold mmul at 1. rewrite (ncols_mk_mat _ _ _) by (rewrite nrows_mmul, (wf_nrows _ _ _ HF); lia).
  rewrite (ncols_transpose 12 12) by (try assumption; lia).
  apply wf_mk_mat.
Qed.

Lemma kalman_update_sized (x y hx : Vec) (P0 K H : Mat) :
  length x = 12%nat -> wf_mat 12 12 P0 ->
  length (vadd x (mvmul K (vsub y hx))) = 12%nat
  /\ wf_mat 12 12 (msub P0 (mmul (mmul K H) P0)).
Proof.
  intros Hx HP. split.
  - now rewrite length_vadd.
  - apply wf_msub; [assumption|lia].
Qed.

Lemma prediction_stage_sized dt s :
  est_sized (est (kf s)) -> est_sized (est (kf (fst (prediction_stage dt s)))).
Proof.
  intros Hs e1 H. unfold prediction_stage in H. cbn [fst with_est kf est] in H.
  apply bind_Some in H. destruct H as (e & He & H).
  apply bind_Some in H. destruct H as (F & HF & H).
  apply bind_Some in H. destruct H as (X' & HX & [= <-]).
  cbn [X P]. split.
  - now apply (f_prediction_model_length (X e) dt).
  - apply wf_covariance_propagation. now apply (jacobian_state_wf (X e) dt).
Qed.

Lemma correction_wheel_stage_sized dt s :
  est_sized (est (kf s)) ->
  est_sized (est (kf (fst (correction_wheel_stage dt s)))).
Proof.
  intros Hs e1 H. unfold correction_wheel_stage in H.
  cbn [fst with_est kf est] in H.
  apply bind_Some in H. destruct H as (e & He & H).
  apply bind_Some in H. destruct H as (Si & _ & [= <-]).
  destruct (Hs e He) as [HX HP]. cbn [X P].
  now apply kalman_update_sized.
Qed.

Lemma correction_imu_stage_sized dt s :
  est_sized (est (kf s)) ->
  est_sized (est (kf (fst (correction_imu_stage dt s)))).
Proof.
  intros Hs e1 H. unfold correction_imu_stage in H.
  cbn [fst with_est kf est] in H.
  apply bind_Some in H. destruct H as (e & He & H).
  apply bind_Some in H. destruct H as (Si & _ & [= <-]).
  destruct (Hs e He) as [HX HP]. cbn [X P].
  now apply kalman_update_sized.
Qed.

Lemma correction_lidar_stage_sized dt s :
  est_sized (est (kf s)) ->
  est_sized (est (kf (fst (correction_lidar_stage dt s)))).
Proof.
  intros Hs e1 H. unfold correction_lidar_stage in H.
  cbn [fst kf est] in H.
  apply bind_Some in H. destruct H as (e & He & H).
  apply bind_Some in H. destruct H as (Y & _ & H).
  apply bind_Some in H. destruct H as (Q & _ & H).
  apply bind_Some in H. destruct H as (Si & _ & [= <-]).
  destruct (Hs e He) as [HX HP]. cbn [X P].
  now apply kalman_update_sized.
Qed.

Lemma wf_adaptive_covariance cfg fC fS :
  wf_mat 6 6 (adaptive_covariance cfg fC fS).
Proof.
  unfold adaptive_covariance. cbv zeta.
  repeat apply wf_mset; try lia. apply wf_mzero.
Qed.

Ltac split_conj := repeat match goal with |- _ /\ _ => split end.

Section Sizes.

Variable getRPY : Quaternion -> R * R * R.
Variable cfg : Config.

Lemma run_prediction_sizes dt_now s :
  sizes_ok s -> sizes_ok (fst (run_prediction cfg dt_now s)).
Proof.
  intros H. unfold run_prediction. destruct (enableFilter cfg); [|exact H].
  unfold sizes_ok in *. cbn [fst prediction_stage with_est imu wheel lidar kf
    E_pred lidarMeasureL E_lidarL est].
  pose proof (prediction_stage_sized dt_now s) as Hp.
  unfold prediction_stage in Hp. cbn [fst with_est kf est] in Hp. tauto.
Qed.

Lemma run_imu_sizes s : sizes_ok s -> sizes_ok (fst (run_imu cfg s)).
Proof.
  intros H. unfold run_imu.
  destruct (enableFilter cfg && enableImu cfg && imuActivated (imu s)
            && imuNew (imu s)); [|exact H].
  pose proof (correction_imu_stage_sized (imu_dt (imu s)) s) as Hp.
  unfold sizes_ok in *. unfold correction_imu_stage in *.
  cbn [fst with_est clear_imuNew imu wheel lidar kf imuMeasure E_imu
       E_pred lidarMeasureL E_lidarL est] in *. tauto.
Qed.

Lemma run_wheel_sizes s : sizes_ok s -> sizes_ok (fst (run_wheel cfg s)).
Proof.
  intros H. unfold run_wheel.
  destruct (enableFilter cfg && enableWheel cfg && wheelActivated (wheel s)
            && wheelNew (wheel s)); [|exact H].
  pose proof (correction_wheel_stage_sized (wheel_dt (wheel s)) s) as Hp.
  unfold sizes_ok in *. unfold correction_wheel_stage in *.
  cbn [fst with_est clear_wheelNew imu wheel lidar kf wheelMeasure E_wheel
       E_pred lidarMeasureL E_lidarL est] in *. tauto.
Qed.

Lemma run_lidar_sizes s : sizes_ok s -> sizes_ok (fst (run_lidar cfg s)).
Proof.
  intros H. unfold run_lidar.
  destruct (enableFilter cfg && enableLidar cfg && lidarActivated (lidar s)
            && lidarNew (lidar s)); [|exact H].
  pose proof (correction_lidar_stage_sized (lidar_dt (lidar s)) s) as Hp.
  unfold sizes_ok in *. unfold correction_lidar_stage in *.
  cbn [fst clear_lidarNew imu wheel lidar kf lidarMeasure E_lidar
       E_pred lidarMeasureL E_lidarL est] in *. tauto.
Qed.

Lemma run_iteration_sizes dt_now s :
  sizes_ok s -> sizes_ok (fst (run_iteration cfg dt_now s)).
Proof.
  intros H0. unfold run_iteration.
  pose proof (run_prediction_sizes dt_now s H0) as H1.
  destruct (run_prediction cfg dt_now s) as [s1 o1].
  pose proof (run_imu_sizes s1 H1) as H2.
  destruct (run_imu cfg s1) as [s2 o2].
  pose proof (run_wheel_sizes s2 H2) as H3.
  destruct (run_wheel cfg s2) as [s3 o3].
  pose proof (run_lidar_sizes s3 H3) as H4.
  destruct (run_lidar cfg s3) as [s4 o4].
  exact H4.
Qed.

Lemma imuHandler_sizes m s : sizes_ok s -> sizes_ok (imuHandler getRPY cfg m s).
Proof.
  intros H. unfold sizes_ok in *.
  destruct H as (H1 & H2 & H3 & H4 & H5 & H6 & H7 & H8 & H9 & H10).
  unfold imuHandler.
  destruct (imuActivated (imu s));
    cbn [imu wheel lidar kf imuMeasure E_imu]; rewrite !length_vset_block;
    split_conj; try assumption;
    repeat apply wf_mset_block; try assumption; unfold N_IMU; lia.
Qed.

Lemma wheelOdometryHandler_sizes m s :
  sizes_ok s -> sizes_ok (wheelOdometryHandler cfg m s).
Proof.
  intros H. unfold sizes_ok in *.
  destruct H as (H1 & H2 & H3 & H4 & H5 & H6 & H7 & H8 & H9 & H10).
  unfold wheelOdometryHandler.
  destruct (wheelActivated (wheel s));
    cbn [imu wheel lidar kf wheelMeasure E_wheel];
    split_conj; try assumption; try reflexivity;
    repeat apply wf_mset; try assumption; unfold N_WHEEL; lia.
Qed.

Lemma laserOdometryHandler_sizes m s :
  sizes_ok s -> sizes_ok (laserOdometryHandler getRPY cfg m s).
Proof.
  intros H. unfold sizes_ok in *.
  destruct H as (H1 & H2 & H3 & H4 & H5 & H6 & H7 & H8 & H9 & H10).
  unfold laserOdometryHandler.
  destruct (lidarActivated (lidar s));
    cbn [imu wheel lidar kf lidarMeasure E_lidar];
    rewrite !length_vset_block;
    split_conj; try assumption; apply wf_adaptive_covariance.
Qed.

Lemma sizes_ok_init imu_dt0 : sizes_ok (initialization imu_dt0).
Proof.
  unfold sizes_ok, initialization.
  cbn [imu wheel lidar kf imuMeasure E_imu wheelMeasure E_wheel lidarMeasure
       E_lidar lidarMeasureL E_lidarL E_pred est].
  split_conj; try apply wf_mzero; try apply length_mk_vec.
  - apply wf_mset_block; [apply wf_mzero|unfold N_STATES; lia].
  - intros e [= <-]. split; [reflexivity|apply wf_P_init].
Qed.

Lemma sizes_ok_reachable s : reachable getRPY cfg s -> sizes_ok s.
Proof.
  induction 1 as [imu_dt0|s ev Hs IH].
  - apply sizes_ok_init.
  - destruct ev as [dt_now|m|m|m]; simpl.
    + now apply run_iteration_sizes.
    + now apply imuHandler_sizes.
    + now apply wheelOdometryHandler_sizes.
    + now apply laserOdometryHandler_sizes.
Qed.

End Sizes.

(** X1.  Every vector and matrix of the node keeps the size that
    [allocateMemory] gave it: in every state reached from [initialization]
    by loop passes and callbacks the measurements have 9, 2 and 6 entries,
    their covariances are 9x9, 2x2 and 6x6, the process noise is 12x12, and
    the estimate, when it has a value, is a 12-vector with a 12x12
    covariance. *)
Theorem sizes_are_preserved (getRPY : Quaternion -> R * R * R)
    (cfg : Config) (s : State) :
  reachable getRPY cfg s -> sizes_ok s.
Proof. apply sizes_ok_reachable. Qed.

Lemma sizes_are_preserved_witness :
  sizes_ok (fst (step rpy_zero default_config
                   (fst (step rpy_zero default_config (initialization 0)
                           (WheelIn wheel_msg_unit_cov)))
                   (Tick 0.1))).
Proof.
  exact (sizes_are_preserved rpy_zero default_config _
           (reach_step rpy_zero default_config _ (Tick 0.1)
              (reach_step rpy_zero default_config _
                 (WheelIn wheel_msg_unit_cov)
                 (reach_init rpy_zero default_config 0)))).
Defined.

(** ** Freshness flags and the order of a pass *)

Section Passes.

Variable getRPY : Quaternion -> R * R * R.
Variable cfg : Config.

(** The control members: everything but the estimate, the retained scan and
    the three freshness flags. *)
Lemma run_prediction_flags dt_now s :
  imu (fst (run_prediction cfg dt_now s)) = imu s
  /\ wheel (fst (run_prediction cfg dt_now s)) = wheel s
  /\ lidar (fst (run_prediction cfg dt_now s)) = lidar s.
Proof. unfold run_prediction. destruct (enableFilter cfg); repeat split. Qed.

Lemma run_imu_due s :
  imu_due cfg (fst (run_imu cfg s)) = false
  /\ wheel (fst (run_imu cfg s)) = wheel s
  /\ lidar (fst (run_imu cfg s)) = lidar s.
Proof.
  unfold run_imu. fold (imu_due cfg s).
  destruct (imu_due cfg s) eqn:E; [|now repeat split].
  repeat split. unfold imu_due. cbn [fst clear_imuNew imu imuNew].
  apply andb_false_r.
Qed.

Lemma run_wheel_due s :
  wheel_due cfg (fst (run_wheel cfg s)) = false
  /\ imu (fst (run_wheel cfg s)) = imu s
  /\ lidar (fst (run_wheel cfg s)) = lidar s.
Proof.
  unfold run_wheel. fold (wheel_due cfg s).
  destruct (wheel_due cfg s) eqn:E; [|now repeat split].
  repeat split. unfold wheel_due. cbn [fst clear_wheelNew wheel wheelNew].
  apply andb_false_r.
Qed.

Lemma run_lidar_due s :
  lidar_due cfg (fst (run_lidar cfg s)) = false
  /\ imu (fst (run_lidar cfg s)) = imu s
  /\ wheel (fst (run_lidar cfg s)) = wheel s.
Proof.
  unfold run_lidar. fold (lidar_due cfg s).
  destruct (lidar_due cfg s) eqn:E; [|now repeat split].
  repeat split. unfold lidar_due. cbn [fst clear_lidarNew lidar lidarNew].
  apply andb_false_r.
Qed.

Lemma due_of_slots s s' :
  imu s' = imu s -> imu_due cfg s' = imu_due cfg s.
Proof. unfold imu_due. now intros ->. Qed.

Lemma wheel_due_of_slots s s' :
  wheel s' = wheel s -> wheel_due cfg s' = wheel_due cfg s.
Proof. unfold wheel_due. now intros ->. Qed.

Lemma lidar_due_of_slots s s' :
  lidar s' = lidar s -> lidar_due cfg s' = lidar_due cfg s.
Proof. unfold lidar_due. now intros ->. Qed.

Lemma run_iteration_clears dt_now s :
  imu_due cfg (fst (run_iteration cfg dt_now s)) = false
  /\ wheel_due cfg (fst (run_iteration cfg dt_now s)) = false
  /\ lidar_due cfg (fst (run_iteration cfg dt_now s)) = false.
Proof.
  unfold run_iteration.
  destruct (run_prediction cfg dt_now s) as [s1 o1].
  pose proof (run_imu_due s1) as (I2 & W2 & L2).
  destruct (run_imu cfg s1) as [s2 o2].
  pose proof (run_wheel_due s2) as (W3 & I3 & L3).
  destruct (run_wheel cfg s2) as [s3 o3].
  pose proof (run_lidar_due s3) as (L4 & I4 & W4).
  destruct (run_lidar cfg s3) as [s4 o4].
  cbn [fst] in *. repeat split.
  - rewrite (due_of_slots s3 s4 I4), (due_of_slots s2 s3 I3). exact I2.
  - rewrite (wheel_due_of_slots s3 s4 W4). exact W3.
  - exact L4.
Qed.

(** With no fresh data a pass is the prediction block alone. *)
Lemma run_iteration_idle dt_now s :
  imu_due cfg s = false -> wheel_due cfg s = false -> lidar_due cfg s = false ->
  run_iteration cfg dt_now s = run_prediction cfg dt_now s.
Proof.
  intros HI HW HL. unfold run_iteration.
  pose proof (run_prediction_flags dt_now s) as (I1 & W1 & L1).
  destruct (run_prediction cfg dt_now s) as [s1 o1]. cbn [fst] in *.
  unfold run_imu. fold (imu_due cfg s1).
  rewrite (due_of_slots s s1 I1), HI.
  unfold run_wheel. fold (wheel_due cfg s1).
  rewrite (wheel_due_of_slots s s1 W1), HW.
  unfold run_lidar. fold (lidar_due cfg s1).
  rewrite (lidar_due_of_slots s s1 L1), HL.
  now rewrite !app_nil_r.
Qed.

End Passes.

(** X2.  Each measurement is used at most once: after a pass of the loop
    the three freshness guards are off, so a second pass with no message in
    between runs the prediction block only. *)
Theorem second_pass_only_predicts
    (cfg : Config) (dt1 dt2 : R) (s : State) :
  let s1 := fst (run_iteration cfg dt1 s) in
  imu_due cfg s1 = false /\ wheel_due cfg s1 = false
  /\ lidar_due cfg s1 = false
  /\ run_iteration cfg dt2 s1 = run_prediction cfg dt2 s1
  /\ forallb (fun a => negb (is_correction a))
             (snd (run_iteration cfg dt2 s1)) = true.
Proof.
  intros s1. destruct (run_iteration_clears cfg dt1 s) as (HI & HW & HL).
  fold s1 in HI, HW, HL.
  split; [exact HI|]. split; [exact HW|]. split; [exact HL|].
  rewrite (run_iteration_idle cfg dt2 s1 HI HW HL).
  split; [reflexivity|].
  unfold run_prediction. destruct (enableFilter cfg); [|reflexivity].
  cbn [prediction_stage snd app forallb is_correction negb andb].
  unfold publish_if, publish_odom.
  destruct (String.eqb _ _); reflexivity.
Qed.

Section Triggers.

Variable getRPY : Quaternion -> R * R * R.
Variable cfg : Config.

Lemma invoked_publish_if s0 trigger model s :
  Forall (invoked_when_due cfg s0) (publish_if cfg trigger model s).
Proof.
  unfold publish_if, publish_odom.
  destruct (String.eqb _ _); repeat constructor.
Qed.

Lemma run_prediction_invoked dt_now s s0 :
  Forall (invoked_when_due cfg s0) (snd (run_prediction cfg dt_now s)).
Proof.
  unfold run_prediction. destruct (enableFilter cfg); [|constructor].
  cbn [prediction_stage snd app].
  constructor; [exact I|apply invoked_publish_if].
Qed.

Lemma invoked_of_slots s s' a :
  imu s' = imu s -> wheel s' = wheel s -> lidar s' = lidar s ->
  invoked_when_due cfg s' a -> invoked_when_due cfg s a.
Proof.
  intros HI HW HL. unfold invoked_when_due, imu_due, wheel_due, lidar_due.
  now rewrite HI, HW, HL.
Qed.

Lemma run_imu_invoked s :
  Forall (invoked_when_due cfg s) (snd (run_imu cfg s)).
Proof.
  unfold run_imu. fold (imu_due cfg s).
  destruct (imu_due cfg s) eqn:E; [|constructor].
  cbn [correction_imu_stage snd app].
  constructor; [now split|apply invoked_publish_if].
Qed.

Lemma run_wheel_invoked s :
  Forall (invoked_when_due cfg s) (snd (run_wheel cfg s)).
Proof.
  unfold run_wheel. fold (wheel_due cfg s).
  destruct (wheel_due cfg s) eqn:E; [|constructor].
  cbn [correction_wheel_stage snd app].
  constructor; [now split|apply invoked_publish_if].
Qed.

Lemma run_lidar_invoked s :
  Forall (invoked_when_due cfg s) (snd (run_lidar cfg s)).
Proof.
  unfold run_lidar. fold (lidar_due cfg s).
  destruct (lidar_due cfg s) eqn:E; [|constructor].
  cbn [correction_lidar_stage publish_indirect_lidar_measurement snd app].
  constructor; [now split|].
  constructor; [exact I|apply invoked_publish_if].
Qed.

Lemma Forall_invoked_slots s s' l :
  imu s' = imu s -> wheel s' = wheel s -> lidar s' = lidar s ->
  Forall (invoked_when_due cfg s') l -> Forall (invoked_when_due cfg s) l.
Proof.
  intros HI HW HL. apply Forall_impl. intros a.
  now apply invoked_of_slots.
Qed.

(** The slots seen by each block of a pass are those at its start, up to
    the freshness flag the block before has cleared. *)
Lemma run_iteration_invoked dt_now s :
  Forall (invoked_when_due cfg s) (snd (run_iteration cfg dt_now s)).
Proof.
  unfold run_iteration.
  pose proof (run_prediction_invoked dt_now s s) as F1.
  pose proof (run_prediction_flags cfg dt_now s) as (I1 & W1 & L1).
  destruct (run_prediction cfg dt_now s) as [s1 o1].
  pose proof (run_imu_invoked s1) as F2.
  pose proof (run_imu_due cfg s1) as (D2 & W2 & L2).
  destruct (run_imu cfg s1) as [s2 o2].
  pose proof (run_wheel_invoked s2) as F3.
  pose proof (run_wheel_due cfg s2) as (D3 & I3 & L3).
  destruct (run_wheel cfg s2) as [s3 o3].
  pose proof (run_lidar_invoked s3) as F4.
  destruct (run_lidar cfg s3) as [s4 o4].
  cbn [fst snd] in *.
  assert (D3' : imu_due cfg s3 = false)
    by now rewrite (due_of_slots cfg s2 s3 I3).
  repeat (apply Forall_app; split).
  - exact F1.
  - now apply (Forall_invoked_slots s s1).
  - revert F3. apply Forall_impl. intros a.
    destruct a as [[| | |] dt| | |]; cbn; try tauto.
    + intros [E _]. congruence.
    + unfold wheel_due. now rewrite W2, W1.
    + unfold lidar_due. now rewrite L2, L1.
  - revert F4. apply Forall_impl. intros a.
    destruct a as [[| | |] dt| | |]; cbn; try tauto.
    + intros [E _]. congruence.
    + intros [E _]. congruence.
    + unfold lidar_due. now rewrite L3, L2, L1.
Qed.

Lemma run_imu_fires s :
  imu_due cfg s = true ->
  In (Invoke CorrImu (imu_dt (imu s))) (snd (run_imu cfg s)).
Proof.
  intros E. unfold run_imu. fold (imu_due cfg s). rewrite E. now left.
Qed.

Lemma run_wheel_fires s :
  wheel_due cfg s = true ->
  In (Invoke CorrWheel (wheel_dt (wheel s))) (snd (run_wheel cfg s)).
Proof.
  intros E. unfold run_wheel. fold (wheel_due cfg s). rewrite E. now left.
Qed.

Lemma run_lidar_fires s :
  lidar_due cfg s = true ->
  In (Invoke CorrLidar (lidar_dt (lidar s))) (snd (run_lidar cfg s)).
Proof.
  intros E. unfold run_lidar. fold (lidar_due cfg s). rewrite E. now left.
Qed.

Lemma run_iteration_fires dt_now s :
  (imu_due cfg s = true ->
   In (Invoke CorrImu (imu_dt (imu s))) (snd (run_iteration cfg dt_now s)))
  /\ (wheel_due cfg s = true ->
      In (Invoke CorrWheel (wheel_dt (wheel s)))
         (snd (run_iteration cfg dt_now s)))
  /\ (lidar_due cfg s = true ->
      In (Invoke CorrLidar (lidar_dt (lidar s)))
         (snd (run_iteration cfg dt_now s))).
Proof.
  unfold run_iteration.
  pose proof (run_prediction_flags cfg dt_now s) as (I1 & W1 & L1).
  destruct (run_prediction cfg dt_now s) as [s1 o1].
  pose proof (run_imu_fires s1) as F2.
  pose proof (run_imu_due cfg s1) as (_ & W2 & L2).
  destruct (run_imu cfg s1) as [s2 o2].
  pose proof (run_wheel_fires s2) as F3.
  pose proof (run_wheel_due cfg s2) as (_ & I3 & L3).
  destruct (run_wheel cfg s2) as [s3 o3].
  pose proof (run_lidar_fires s3) as F4.
  destruct (run_lidar cfg s3) as [s4 o4].
  cbn [fst snd] in *. repeat split; intros E; rewrite !in_app_iff.
  - right. left. rewrite <- I1. apply F2.
    now rewrite (due_of_slots cfg s s1 I1).
  - right. right. left. rewrite <- W1, <- W2. apply F3.
    rewrite (wheel_due_of_slots cfg s1 s2 W2).
    now rewrite (wheel_due_of_slots cfg s s1 W1).
  - right. right. right. rewrite <- L1, <- L2, <- L3. apply F4.
    rewrite (lidar_due_of_slots cfg s2 s3 L3).
    rewrite (lidar_due_of_slots cfg s1 s2 L2).
    now rewrite (lidar_due_of_slots cfg s s1 L1).
Qed.

Lemma handlers_set_due m s :
  imu_due cfg (imuHandler getRPY cfg m s) = enableFilter cfg && enableImu cfg.
Proof.
  unfold imu_due, imuHandler. destruct (imuActivated (imu s));
    cbn [imu imuActivated imuNew]; now rewrite !andb_true_r.
Qed.

Lemma wheel_handler_sets_due m s :
  wheel_due cfg (wheelOdometryHandler cfg m s)
  = enableFilter cfg && enableWheel cfg.
Proof.
  unfold wheel_due, wheelOdometryHandler. destruct (wheelActivated (wheel s));
    cbn [wheel wheelActivated wheelNew]; now rewrite !andb_true_r.
Qed.

Lemma laser_handler_sets_due m s :
  lidar_due cfg (laserOdometryHandler getRPY cfg m s)
  = enableFilter cfg && enableLidar cfg.
Proof.
  unfold lidar_due, laserOdometryHandler. destruct (lidarActivated (lidar s));
    cbn [lidar lidarActivated lidarNew]; now rewrite !andb_true_r.
Qed.

End Triggers.

(** X3.  In a pass of the loop a correction is called exactly when its
    guard holds at the start of the pass (filter and sensor enabled, sensor
    seen, measurement fresh), and then with the elapsed time stored for that
    sensor; a callback turns the guard of its sensor on whenever the filter
    and the sensor are enabled. *)
Theorem correction_called_iff_due
    (getRPY : Quaternion -> R * R * R) (cfg : Config) (dt_now : R) (s : State) :
  Forall (invoked_when_due cfg s) (snd (run_iteration cfg dt_now s))
  /\ (imu_due cfg s = true ->
      In (Invoke CorrImu (imu_dt (imu s))) (snd (run_iteration cfg dt_now s)))
  /\ (wheel_due cfg s = true ->
      In (Invoke CorrWheel (wheel_dt (wheel s)))
         (snd (run_iteration cfg dt_now s)))
  /\ (lidar_due cfg s = true ->
      In (Invoke CorrLidar (lidar_dt (lidar s)))
         (snd (run_iteration cfg dt_now s)))
  /\ (forall m, imu_due cfg (imuHandler getRPY cfg m s)
                = enableFilter cfg && enableImu cfg)
  /\ (forall m, wheel_due cfg (wheelOdometryHandler cfg m s)
                = enableFilter cfg && enableWheel cfg)
  /\ (forall m, lidar_due cfg (laserOdometryHandler getRPY cfg m s)
                = enableFilter cfg && enableLidar cfg).
Proof.
  split; [apply run_iteration_invoked|].
  destruct (run_iteration_fires cfg dt_now s) as (HI & HW & HL).
  split; [exact HI|]. split; [exact HW|]. split; [exact HL|].
  split; [intros m; apply handlers_set_due|].
  split; intros m; [apply wheel_handler_sets_due|apply laser_handler_sets_due].
Qed.

Lemma correction_called_iff_due_witness :
  In (Invoke CorrImu
        (imu_dt (imu (imuHandler rpy_zero default_config imu_msg_rest
                                 (initialization 0)))))
     (snd (run_iteration default_config 0.005
             (imuHandler rpy_zero default_config imu_msg_rest
                         (initialization 0)))).
Proof.
  exact (proj1 (proj2 (correction_called_iff_due rpy_zero default_config 0.005
                         (imuHandler rpy_zero default_config imu_msg_rest
                                     (initialization 0))))
           eq_refl).
Defined.

(** ** Switched-off filter and sensors *)

Section Disabled.

Variable getRPY : Quaternion -> R * R * R.
Variable cfg : Config.

Lemma step_kf_handlers s ev :
  (forall dt_now, ev <> Tick dt_now) ->
  kf (fst (step getRPY cfg s ev)) = kf s /\ snd (step getRPY cfg s ev) = [].
Proof.
  intros Hev. destruct ev as [dt_now|m|m|m]; simpl.
  - now destruct (Hev dt_now).
  - unfold imuHandler. destruct (imuActivated (imu s)); now split.
  - unfold wheelOdometryHandler. destruct (wheelActivated (wheel s)); now split.
  - unfold laserOdometryHandler. destruct (lidarActivated (lidar s)); now split.
Qed.

Lemma run_iteration_filter_off dt_now s :
  enableFilter cfg = false -> run_iteration cfg dt_now s = (s, []).
Proof.
  intros HF.
  unfold run_iteration, run_prediction, run_imu, run_wheel, run_lidar.
  now rewrite HF.
Qed.

Lemma exec_filter_off evs : forall s,
  enableFilter cfg = false ->
  kf (fst (exec getRPY cfg evs s)) = kf s
  /\ snd (exec getRPY cfg evs s) = [].
Proof.
  induction evs as [|ev rest IH]; intros s HF; [now split|].
  cbn [exec].
  assert (H1 : kf (fst (step getRPY cfg s ev)) = kf s
               /\ snd (step getRPY cfg s ev) = []).
  { destruct ev as [dt_now|m|m|m];
      try (apply step_kf_handlers; intros; discriminate).
    cbn [step]. rewrite run_iteration_filter_off by assumption. now split. }
  destruct (step getRPY cfg s ev) as [s1 o1]. cbn [fst snd] in H1.
  destruct H1 as [K1 ->].
  destruct (IH s1 HF) as [K2 O2].
  destruct (exec getRPY cfg rest s1) as [s2 o2]. cbn [fst snd] in *.
  split; [congruence|now subst].
Qed.

Lemma due_enabled :
  forall b1 b2 b3 b4, b1 && b2 && b3 && b4 = true -> b1 = true /\ b2 = true.
Proof. intros [] [] [] []; simpl; intros H; split; congruence. Qed.

Lemma enabled_publish_if trigger model s :
  enableFilter cfg = true ->
  Forall (enabled_stage cfg) (publish_if cfg trigger model s).
Proof.
  intros HF. unfold publish_if, publish_odom.
  destruct (String.eqb _ _); repeat constructor. exact HF.
Qed.

Lemma run_prediction_enabled dt_now s :
  Forall (enabled_stage cfg) (snd (run_prediction cfg dt_now s)).
Proof.
  unfold run_prediction. destruct (enableFilter cfg) eqn:HF; [|constructor].
  cbn [prediction_stage snd app].
  constructor; [exact HF|now apply enabled_publish_if].
Qed.

Lemma run_imu_enabled s : Forall (enabled_stage cfg) (snd (run_imu cfg s)).
Proof.
  unfold run_imu.
  destruct (enableFilter cfg && enableImu cfg && imuActivated (imu s)
            && imuNew (imu s)) eqn:E; [|constructor].
  apply due_enabled in E. cbn [correction_imu_stage snd app].
  constructor; [exact E|now apply enabled_publish_if].
Qed.

Lemma run_wheel_enabled s : Forall (enabled_stage cfg) (snd (run_wheel cfg s)).
Proof.
  unfold run_wheel.
  destruct (enableFilter cfg && enableWheel cfg && wheelActivated (wheel s)
            && wheelNew (wheel s)) eqn:E; [|constructor].
  apply due_enabled in E. cbn [correction_wheel_stage snd app].
  constructor; [exact E|now apply enabled_publish_if].
Qed.

Lemma run_lidar_enabled s : Forall (enabled_stage cfg) (snd (run_lidar cfg s)).
Proof.
  unfold run_lidar.
  destruct (enableFilter cfg && enableLidar cfg && lidarActivated (lidar s)
            && lidarNew (lidar s)) eqn:E; [|constructor].
  apply due_enabled in E.
  cbn [correction_lidar_stage publish_indirect_lidar_measurement snd app].
  constructor; [exact E|].
  constructor; [exact E|now apply enabled_publish_if].
Qed.

Lemma run_iteration_enabled dt_now s :
  Forall (enabled_stage cfg) (snd (run_iteration cfg dt_now s)).
Proof.
  unfold run_iteration.
  pose proof (run_prediction_enabled dt_now s) as F1.
  destruct (run_prediction cfg dt_now s) as [s1 o1].
  pose proof (run_imu_enabled s1) as F2.
  destruct (run_imu cfg s1) as [s2 o2].
  pose proof (run_wheel_enabled s2) as F3.
  destruct (run_wheel cfg s2) as [s3 o3].
  pose proof (run_lidar_enabled s3) as F4.
  destruct (run_lidar cfg s3) as [s4 o4].
  cbn [snd] in *. repeat (apply Forall_app; split); assumption.
Qed.

(** A property of every action of a pass holds of every action of a run;
    callbacks emit nothing. *)
Lemma exec_Forall (Q : action -> Prop) :
  (forall dt_now s, Forall Q (snd (run_iteration cfg dt_now s))) ->
  forall evs s, Forall Q (snd (exec getRPY cfg evs s)).
Proof.
  intros HQ. induction evs as [|ev rest IH]; intros s; [constructor|].
  cbn [exec].
  assert (H1 : Forall Q (snd (step getRPY cfg s ev))).
  { destruct ev as [dt_now|m|m|m]; cbn [step snd]; try constructor.
    apply HQ. }
  destruct (step getRPY cfg s ev) as [s1 o1].
  specialize (IH s1).
  destruct (exec getRPY cfg rest s1) as [s2 o2]. cbn [snd] in *.
  apply Forall_app. now split.
Qed.

End Disabled.

(** X4.  Nothing runs on behalf of what is switched off: every stage call
    and every publication in a run was enabled by the filter flag and by the
    flag of its sensor; with the filter off a run leaves the estimate, the
    process noise and the retained scan untouched and emits nothing. *)
Theorem disabled_parts_stay_idle
    (getRPY : Quaternion -> R * R * R) (cfg : Config)
    (evs : list event) (s : State) :
  Forall (enabled_stage cfg) (snd (exec getRPY cfg evs s))
  /\ (enableFilter cfg = false ->
      kf (fst (exec getRPY cfg evs s)) = kf s
      /\ snd (exec getRPY cfg evs s) = []).
Proof.
  split.
  - apply exec_Forall. apply run_iteration_enabled.
  - now apply exec_filter_off.
Qed.

Lemma disabled_parts_stay_idle_witness :
  kf (fst (exec rpy_zero filter_off_config
             [ImuIn imu_msg_rest; Tick 0.005] (initialization 0)))
  = kf (initialization 0)
  /\ snd (exec rpy_zero filter_off_config
            [ImuIn imu_msg_rest; Tick 0.005] (initialization 0)) = [].
Proof.
  exact (proj2 (disabled_parts_stay_idle rpy_zero filter_off_config
                  [ImuIn imu_msg_rest; Tick 0.005] (initialization 0))
           eq_refl).
Defined.

(** ** Publication of the estimate *)

Section Publication.

Variable getRPY : Quaternion -> R * R * R.
Variable cfg : Config.

Lemma publish_if_matches trigger model s :
  trigger = String model EmptyString ->
  In model ["p"%char; "i"%char; "w"%char; "l"%char] ->
  Forall (publish_matches cfg) (publish_if cfg trigger model s).
Proof.
  intros Ht Hm. unfold publish_if, publish_odom.
  destruct (String.eqb_spec (filterFreq cfg) trigger) as [E|E].
  - apply Forall_cons; [|apply Forall_nil].
    split; [congruence|exact Hm].
  - apply Forall_nil.
Qed.

Lemma run_iteration_Forall (Q : action -> Prop) dt_now s :
  (forall s, Forall Q (snd (run_prediction cfg dt_now s))) ->
  (forall s, Forall Q (snd (run_imu cfg s))) ->
  (forall s, Forall Q (snd (run_wheel cfg s))) ->
  (forall s, Forall Q (snd (run_lidar cfg s))) ->
  Forall Q (snd (run_iteration cfg dt_now s)).
Proof.
  intros H1 H2 H3 H4. unfold run_iteration.
  specialize (H1 s). destruct (run_prediction cfg dt_now s) as [s1 o1].
  specialize (H2 s1). destruct (run_imu cfg s1) as [s2 o2].
  specialize (H3 s2). destruct (run_wheel cfg s2) as [s3 o3].
  specialize (H4 s3). destruct (run_lidar cfg s3) as [s4 o4].
  cbn [snd] in *. repeat (apply Forall_app; split); assumption.
Qed.

Lemma run_iteration_publish_matches dt_now s :
  Forall (publish_matches cfg) (snd (run_iteration cfg dt_now s)).
Proof.
  apply run_iteration_Forall; clear s; intros s.
  - unfold run_prediction. destruct (enableFilter cfg); [|constructor].
    cbn [prediction_stage snd app]. constructor; [exact I|].
    apply publish_if_matches; [reflexivity|simpl; tauto].
  - unfold run_imu.
    match goal with |- context [if ?b then _ else _] => destruct b end;
      [|constructor].
    cbn [correction_imu_stage snd app]. constructor; [exact I|].
    apply publish_if_matches; [reflexivity|simpl; tauto].
  - unfold run_wheel.
    match goal with |- context [if ?b then _ else _] => destruct b end;
      [|constructor].
    cbn [correction_wheel_stage snd app]. constructor; [exact I|].
    apply publish_if_matches; [reflexivity|simpl; tauto].
  - unfold run_lidar.
    match goal with |- context [if ?b then _ else _] => destruct b end;
      [|constructor].
    cbn [correction_lidar_stage publish_indirect_lidar_measurement snd app].
    constructor; [exact I|]. constructor; [exact I|].
    apply publish_if_matches; [reflexivity|simpl; tauto].
Qed.

End Publication.

(** X5.  An odometry message is published only under the trigger the
    configuration names: every published message of a run carries the one
    character of [filterFreq], which is then one of p, i, w, l.  Under any
    other setting the node never publishes its estimate. *)
Theorem publication_follows_trigger
    (getRPY : Quaternion -> R * R * R) (cfg : Config)
    (evs : list event) (s : State) :
  Forall (publish_matches cfg) (snd (exec getRPY cfg evs s))
  /\ (~ In (filterFreq cfg) ["p"; "i"; "w"; "l"]%string ->
      forallb (fun a => negb (is_publish_odom a))
              (snd (exec getRPY cfg evs s)) = true).
Proof.
  assert (H : Forall (publish_matches cfg) (snd (exec getRPY cfg evs s))).
  { apply exec_Forall. apply run_iteration_publish_matches. }
  split; [exact H|]. intros Hno.
  apply forallb_forall. intros a Ha.
  rewrite Forall_forall in H. specialize (H a Ha).
  destruct a as [st dt|model e|y Pi|text]; try reflexivity.
  exfalso. apply Hno. destruct H as [E Hm]. rewrite E.
  simpl in Hm. simpl.
  destruct Hm as [<-|[<-|[<-|[<-|[]]]]]; tauto.
Qed.

Lemma odd_trigger_unknown :
  ~ In (filterFreq odd_trigger_config) ["p"; "i"; "w"; "l"]%string.
Proof. simpl. intros [H|[H|[H|[H|[]]]]]; discriminate H. Qed.

Lemma publication_follows_trigger_witness :
  forallb (fun a => negb (is_publish_odom a))
          (snd (exec rpy_zero odd_trigger_config
                  [LaserIn laser_msg_rest; Tick 0.005] (initialization 0)))
  = true.
Proof.
  exact (proj2 (publication_follows_trigger rpy_zero odd_trigger_config
                  [LaserIn laser_msg_rest; Tick 0.005] (initialization 0))
           odd_trigger_unknown).
Defined.

Section LidarTrigger.

Variable cfg : Config.
Hypothesis trigger_l : filterFreq cfg = "l"%string.

Lemma publish_if_other trigger model s :
  String.eqb "l" trigger = false -> publish_if cfg trigger model s = [].
Proof. intros H. unfold publish_if. now rewrite trigger_l, H. Qed.

Lemma publish_if_l s :
  publish_if cfg "l" "l" s = [PublishOdom "l" (est (kf s))].
Proof. unfold publish_if. now rewrite trigger_l. Qed.

Lemma run_prediction_silent dt_now s :
  filter is_publish_odom (snd (run_prediction cfg dt_now s)) = [].
Proof.
  unfold run_prediction. destruct (enableFilter cfg); [|reflexivity].
  cbn [prediction_stage snd app]. now rewrite publish_if_other.
Qed.

Lemma run_imu_silent s :
  filter is_publish_odom (snd (run_imu cfg s)) = []
  /\ lidar (fst (run_imu cfg s)) = lidar s.
Proof.
  unfold run_imu.
  match goal with |- context [if ?b then _ else _] => destruct b end;
    [|now split].
  cbn [correction_imu_stage fst snd app]. now rewrite publish_if_other.
Qed.

Lemma run_wheel_silent s :
  filter is_publish_odom (snd (run_wheel cfg s)) = []
  /\ lidar (fst (run_wheel cfg s)) = lidar s.
Proof.
  unfold run_wheel.
  match goal with |- context [if ?b then _ else _] => destruct b end;
    [|now split].
  cbn [correction_wheel_stage fst snd app]. now rewrite publish_if_other.
Qed.

Lemma run_lidar_publishes s :
  filter is_publish_odom (snd (run_lidar cfg s))
  = if lidar_due cfg s
    then [PublishOdom "l" (est (kf (fst (run_lidar cfg s))))] else [].
Proof.
  unfold run_lidar. fold (lidar_due cfg s).
  destruct (lidar_due cfg s); [|reflexivity].
  cbn [correction_lidar_stage publish_indirect_lidar_measurement fst snd app].
  now rewrite publish_if_l.
Qed.

Lemma run_iteration_publishes dt_now s :
  filter is_publish_odom (snd (run_iteration cfg dt_now s))
  = if lidar_due cfg s
    then [PublishOdom "l" (est (kf (fst (run_iteration cfg dt_now s))))]
    else [].
Proof.
  unfold run_iteration.
  pose proof (run_prediction_silent dt_now s) as F1.
  pose proof (run_prediction_flags cfg dt_now s) as (_ & _ & L1).
  destruct (run_prediction cfg dt_now s) as [s1 o1].
  pose proof (run_imu_silent s1) as (F2 & L2).
  destruct (run_imu cfg s1) as [s2 o2].
  pose proof (run_wheel_silent s2) as (F3 & L3).
  destruct (run_wheel cfg s2) as [s3 o3].
  pose proof (run_lidar_publishes s3) as F4.
  destruct (run_lidar cfg s3) as [s4 o4].
  cbn [fst snd] in *.
  rewrite !filter_app, F1, F2, F3, F4. cbn [app].
  unfold lidar_due. now rewrite L3, L2, L1.
Qed.

End LidarTrigger.

(** X6.  Under the default trigger [l] a pass of the loop publishes the
    estimate exactly when the lidar correction runs in it, once, and what it
    publishes is the estimate at the end of the pass, after every correction
    of that pass. *)
Theorem estimate_published_after_lidar (cfg : Config) (dt_now : R) (s : State) :
  filterFreq cfg = "l"%string ->
  filter is_publish_odom (snd (run_iteration cfg dt_now s))
  = if lidar_due cfg s
    then [PublishOdom "l" (est (kf (fst (run_iteration cfg dt_now s))))]
    else [].
Proof. intros Hl. now apply run_iteration_publishes. Qed.

Lemma estimate_published_after_lidar_witness :
  filter is_publish_odom
         (snd (run_iteration default_config 0.005
                 (laserOdometryHandler rpy_zero default_config laser_msg_rest
                                       (initialization 0))))
  = if lidar_due default_config
         (laserOdometryHandler rpy_zero default_config laser_msg_rest
                               (initialization 0))
    then [PublishOdom "l"
            (est (kf (fst (run_iteration default_config 0.005
                             (laserOdometryHandler rpy_zero default_config
                                laser_msg_rest (initialization 0))))))]
    else [].
Proof.
  exact (estimate_published_after_lidar default_config 0.005
           (laserOdometryHandler rpy_zero default_config laser_msg_rest
                                 (initialization 0))
           eq_refl).
Defined.

(** ** Clipping of the feature counts *)

Lemma scale_saturates N f : 0 < N -> N <= f -> scale N f = l_min.
Proof.
  intros HN Hf. unfold scale. rewrite Rmin_right by assumption.
  field. lra.
Qed.

Lemma scale_unclipped_below N f : 0 < N -> f < 0 -> 1 + l_min < scale N f.
Proof.
  intros HN Hf. unfold scale. rewrite Rmin_left by lra.
  assert (0 < - f / N) by (apply Rdiv_lt_0_compat; lra).
  replace ((N - f) / N) with (1 + - f / N) by (field; lra). lra.
Qed.

Lemma scale_pos N f : 0 < N -> 0 < scale N f.
Proof.
  intros HN. unfold scale. pose proof (Rmin_r f N) as Hm.
  assert (0 <= (N - Rmin f N) / N).
  { unfold Rdiv. apply Rmult_le_pos; [lra|].
    left. now apply Rinv_0_lt_compat. }
  unfold l_min. lra.
Qed.

Lemma axis_scales_pos fC fS i : (i < 6)%nat -> 0 < vget (axis_scales fC fS) i.
Proof.
  intros Hi. unfold axis_scales.
  do 6 (destruct i as [|i];
        [cbv [vget nth]; apply scale_pos; unfold nCorner, nSurf; lra|]).
  lia.
Qed.

(** X7.  The feature counts are clipped from above only: at or beyond the
    reference counts the covariance stays at its floor value, whereas a
    negative count is not clipped and (for a positive gain) yields entries
    above the zero-count value.  For a positive range gain every diagonal
    entry is positive, whatever the counts. *)
Theorem feature_counts_clipped_above (cfg : Config) :
  (forall fCorner fSurf,
      nCorner <= fCorner -> nSurf <= fSurf ->
      adaptive_covariance cfg fCorner fSurf
      = adaptive_covariance cfg nCorner nSurf)
  /\ (0 < lidarG cfg ->
      (forall fCorner fSurf i,
          fCorner < 0 -> fSurf < 0 -> (i < 6)%nat ->
          mget (adaptive_covariance cfg 0 0) i i
          < mget (adaptive_covariance cfg fCorner fSurf) i i)
      /\ (forall fCorner fSurf i,
             (i < 6)%nat ->
             0 < mget (adaptive_covariance cfg fCorner fSurf) i i)).
Proof.
  split.
  - intros fC fS HC HS. rewrite !adaptive_covariance_entries.
    unfold adaptive_covariance_spec, axis_scales.
    rewrite !(scale_saturates nCorner fC), !(scale_saturates nSurf fS),
      !(scale_saturates nCorner nCorner), !(scale_saturates nSurf nSurf);
      unfold nCorner, nSurf in *; try lra.
    reflexivity.
  - intros Hg.
    assert (Hgain : forall i, (i < 6)%nat -> 0 < vget axis_gains i * lidarG cfg).
    { intros i Hi. apply Rmult_lt_0_compat; [now apply gains_pos|assumption]. }
    split.
    + intros fC fS i HC HS Hi.
      rewrite !adaptive_covariance_diag_entry by assumption.
      rewrite !Rmult_assoc. apply Rmult_lt_compat_r; [now apply Hgain|].
      unfold axis_scales.
      do 6 (destruct i as [|i];
            [cbv [vget nth];
             rewrite scale_at_0 by (unfold nCorner, nSurf; lra);
             apply scale_unclipped_below;
             [unfold nCorner, nSurf; lra|assumption]|]).
      lia.
    + intros fC fS i Hi.
      rewrite adaptive_covariance_diag_entry by assumption.
      rewrite Rmult_assoc. apply Rmult_lt_0_compat; [|now apply Hgain].
      now apply axis_scales_pos.
Qed.

Lemma default_gain_pos : 0 < lidarG default_config.
Proof. simpl. lra. Qed.

Lemma feature_counts_clipped_above_witness :
  adaptive_covariance default_config 600 5000
  = adaptive_covariance default_config nCorner nSurf
  /\ 0 < mget (adaptive_covariance default_config 100 100) 0 0.
Proof.
  split.
  - apply (proj1 (feature_counts_clipped_above default_config) 600 5000);
      unfold nCorner, nSurf; lra.
  - apply (proj2 (proj2 (feature_counts_clipped_above default_config)
                    default_gain_pos) 100 100 0%nat). lia.
Defined.

(** ** Rotation, and the round trip through the two models *)

Lemma sin_cos_one a : sin a * sin a + cos a * cos a = 1.
Proof. pose proof (sin2_cos2 a) as H. unfold Rsqr in H. exact H. Qed.

Lemma code_rotation roll pitch yaw :
  mmul (mmul (AngleAxisd yaw UnitZ) (AngleAxisd pitch UnitY))
       (AngleAxisd roll UnitX)
  = rotation_zyx roll pitch yaw.
Proof. eigen_unfold. repeat (f_equal; try ring). Qed.

Lemma rotation_zyx_orthogonal roll pitch yaw :
  mmul (transpose (rotation_zyx roll pitch yaw)) (rotation_zyx roll pitch yaw)
  = identity 3
  /\ mmul (rotation_zyx roll pitch yaw) (transpose (rotation_zyx roll pitch yaw))
     = identity 3.
Proof.
  pose proof (sin_cos_one roll) as Hr.
  pose proof (sin_cos_one pitch) as Hp.
  pose proof (sin_cos_one yaw) as Hy.
  split; eigen_unfold.
  all: repeat (f_equal; try nsatz).
Qed.

Lemma wrap_diff_increment a d : - PI < d <= PI -> wrap_diff (a + d) a = d.
Proof.
  intros Hd. unfold wrap_diff. replace (a + d - a) with d by ring.
  now apply wrap_id.
Qed.

Lemma indirect_inverts_prediction_spec (x : Vec) (dt : R) :
  length x = 12%nat -> cos (vget x 4) <> 0 -> dt <> 0 ->
  (forall k, (3 <= k < 6)%nat ->
             - PI < vget (prediction_spec x dt) k - vget x k <= PI) ->
  indirect_spec (vblock (prediction_spec x dt) 0 6) (vblock x 0 6) dt
  = vblock x 6 6.
Proof.
  intros Hx Hc Hdt Hinc. explode_vec x Hx.
  pose proof (Hinc 3%nat ltac:(lia)) as H3.
  pose proof (Hinc 4%nat ltac:(lia)) as H4.
  pose proof (Hinc 5%nat ltac:(lia)) as H5.
  clear Hinc.
  unfold indirect_spec, pose_diff.
  cbv [prediction_spec A_spec block_diag rotation_zyx euler_rate
       vblock vadd vscale mvmul mk_vec mk_mat map seq length
       vget mget nth nrows ncols hd sum_n app
       Nat.add Nat.sub Nat.ltb Nat.leb Nat.eqb andb] in H3, H4, H5, Hc |- *.
  rewrite !wrap_diff_increment by lra.
  pose proof (sin_cos_one r2) as Hr.
  pose proof (sin_cos_one r3) as Hp.
  pose proof (sin_cos_one r4) as Hy.
  cbv [transpose euler_rate_inv rotation_zyx vdiv_const mvmul mk_vec mk_mat
       map seq length vget mget nth nrows ncols hd sum_n
       Nat.add Nat.sub Nat.ltb Nat.leb Nat.eqb andb].
  unfold tan.
  repeat (f_equal;
          try solve [field_simplify_eq; [cbn [pow]; nsatz | auto]]).
Qed.

Lemma vget_vblock (v : Vec) i n k : (k < n)%nat -> vget (vblock v i n) k = vget v (i + k).
Proof. intros Hk. unfold vblock. now rewrite vget_mk_vec. Qed.

Lemma length_vblock (v : Vec) i n : length (vblock v i n) = n.
Proof. unfold vblock. apply length_mk_vec. Qed.

(** X8.  The rotation matrix the two models build, [Rz(yaw) Ry(pitch)
    Rx(roll)], is orthogonal: its transpose, which the indirect measurement
    uses to go from the world frame to the body frame, is its inverse. *)
Theorem rotation_is_orthogonal (roll pitch yaw : R) :
  let Rm := mmul (mmul (AngleAxisd yaw UnitZ) (AngleAxisd pitch UnitY))
                 (AngleAxisd roll UnitX) in
  is_inverse 3 Rm (transpose Rm).
Proof.
  intros Rm. unfold Rm. rewrite code_rotation.
  destruct (rotation_zyx_orthogonal roll pitch yaw) as [H1 H2].
  split; [|split; assumption].
  apply wf_transpose; [apply wf_mat_3_3|lia].
Qed.

(** X9.  Round trip: the twist derived from a pose and the pose the
    prediction model propagates it to over [dt] is the body velocity the
    prediction started from, as long as no angle moves by more than half a
    turn in the step. *)
Theorem indirect_measurement_inverts_prediction (x xp : Vec) (dt : R) :
  length x = 12%nat -> cos (vget x 4) <> 0 -> dt <> 0 ->
  f_prediction_model x dt = Some xp ->
  (forall k, (3 <= k < 6)%nat -> - PI < vget xp k - vget x k <= PI) ->
  indirect_lidar_measurement (vblock xp 0 6) (vblock x 0 6) dt
  = Some (vblock x 6 6).
Proof.
  intros Hx Hc Hdt Hxp Hinc.
  rewrite f_prediction_model_spec in Hxp by assumption.
  injection Hxp as <-.
  rewrite indirect_lidar_measurement_defined;
    try apply length_vblock; try assumption.
  f_equal. now apply indirect_inverts_prediction_spec.
Qed.

Lemma forward_state_increments k :
  (3 <= k < 6)%nat ->
  - PI < vget (prediction_spec forward_state 0.1) k - vget forward_state k <= PI.
Proof.
  intros Hk. pose proof PI_RGT_0 as Hpi.
  assert (E : vget (prediction_spec forward_state 0.1) k
              - vget forward_state k = 0).
  { destruct k as [|[|[|[|[|[|k]]]]]]; try lia;
      unfold forward_state; eigen_unfold;
      cbv [prediction_spec vadd vblock vscale mvmul mk_vec map seq length
           vget nth app Nat.add]; eigen_unfold; lra. }
  rewrite E. lra.
Qed.

Lemma indirect_measurement_inverts_prediction_witness :
  indirect_lidar_measurement
    (vblock (prediction_spec forward_state 0.1) 0 6)
    (vblock forward_state 0 6) 0.1
  = Some (vblock forward_state 6 6).
Proof.
  exact (indirect_measurement_inverts_prediction forward_state
           (prediction_spec forward_state 0.1) 0.1
           eq_refl cos_0_neq_0 tenth_neq_0
           (f_prediction_model_spec forward_state 0.1 eq_refl cos_0_neq_0)
           forward_state_increments).
Defined.

(** ** A scan received twice *)

Lemma indirect_same_pose_zero (u : Vec) (dt : R) :
  length u = 6%nat -> cos (vget u 4) <> 0 -> dt <> 0 ->
  indirect_lidar_measurement u u dt = Some (vzero 6).
Proof.
  intros Hu Hc Hdt.
  rewrite indirect_lidar_measurement_defined by assumption.
  f_equal. unfold indirect_spec, pose_diff. rewrite !wrap_diff_same.
  explode_vec u Hu. eigen_unfold.
  repeat (f_equal; try (field; lra)).
Qed.

(** ** The numeric Jacobians, entry by entry *)

Lemma mget_mset n m M a b x i k :
  wf_mat n m M -> (i < n)%nat -> (k < m)%nat ->
  mget (mset M a b x) i k
  = if Nat.eqb i a && Nat.eqb k b then x else mget M i k.
Proof.
  intros HM Hi Hk. unfold mset.
  rewrite (wf_nrows _ _ _ HM), (wf_ncols n m M HM) by lia.
  now rewrite mget_mk_mat.
Qed.

Lemma mget_mset_col n m M j v i k :
  wf_mat n m M -> (i < n)%nat -> (k < m)%nat ->
  mget (mset_col M j v) i k = if Nat.eqb k j then vget v i else mget M i k.
Proof.
  intros HM Hi Hk. unfold mset_col.
  rewrite (wf_nrows _ _ _ HM), (wf_ncols n m M HM) by lia.
  now rewrite mget_mk_mat.
Qed.

Lemma mget_jacobian_column n m J j (f0 f1 : Vec) delta i k :
  wf_mat n m J -> length f1 = n -> (i < n)%nat -> (k < m)%nat ->
  mget (jacobian_column J j f0 f1 delta) i k
  = if Nat.eqb k j then jacobian_entry f0 f1 delta i else mget J i k.
Proof.
  intros HJ Hf Hi Hk. unfold jacobian_column.
  assert (Hn : (0 < n)%nat) by lia.
  pose proof (wf_mset_col n m J j (vdiv_const (vsub f1 f0) delta) HJ Hn) as W0.
  pose proof (wf_mset n m _ 3 j (sin (vget f1 3 - vget f0 3) / delta) W0 Hn)
    as W1.
  pose proof (wf_mset n m _ 4 j (sin (vget f1 4 - vget f0 4) / delta) W1 Hn)
    as W2.
  rewrite (mget_mset n m) by assumption.
  rewrite (mget_mset n m) by assumption.
  rewrite (mget_mset n m) by assumption.
  rewrite (mget_mset_col n m) by assumption.
  unfold jacobian_entry, in_range.
  destruct (Nat.eqb_spec k j) as [->|Hkj]; rewrite ?andb_false_r.
  2:{ reflexivity. }
  rewrite !andb_true_r.
  destruct (Nat.eqb_spec i 5) as [->|H5]; [reflexivity|].
  destruct (Nat.eqb_spec i 4) as [->|H4]; [reflexivity|].
  destruct (Nat.eqb_spec i 3) as [->|H3]; [reflexivity|].
  assert (E : Nat.leb 3 i && Nat.ltb i (3 + 3) = false).
  { destruct (Nat.leb_spec 3 i); [|reflexivity].
    destruct (Nat.ltb_spec i (3 + 3)); [lia|reflexivity]. }
  rewrite E. unfold vdiv_const, vsub.
  rewrite vget_mk_vec by (rewrite length_mk_vec; lia).
  now rewrite vget_mk_vec by lia.
Qed.

(** What the loop of a numeric Jacobian leaves in the matrix: column [k] is
    the forward difference for the [k]-th perturbed evaluation. *)
Lemma jacobian_loop_entries n (f0 : Vec) (delta : R) (g : nat -> option Vec) :
  (forall k f1, g k = Some f1 -> length f1 = n) ->
  forall l J0 F,
    NoDup l ->
    fold_left (fun (J : option Mat) (i : nat) =>
                 J <- J ;; f1 <- g i ;;
                 Some (jacobian_column J i f0 f1 delta)) l (Some J0) = Some F ->
    wf_mat n n J0 ->
    forall i k, (i < n)%nat -> (k < n)%nat ->
      (In k l -> exists f1, g k = Some f1
                            /\ mget F i k = jacobian_entry f0 f1 delta i)
      /\ (~ In k l -> mget F i k = mget J0 i k).
Proof.
  intros Hg. induction l as [|j l IH]; intros J0 F Hnd HF HJ0 i k Hi Hk.
  - simpl in HF. injection HF as <-. split; [intros []|reflexivity].
  - cbn [fold_left bind] in HF.
    destruct (g j) as [f1|] eqn:Ej.
    2:{ exfalso. clear -HF. cbn [bind] in HF.
        induction l as [|a l IHl]; simpl in HF; [discriminate|auto]. }
    cbn [bind] in HF. inversion Hnd as [|? ? Hnj Hnd']; subst.
    assert (W1 : wf_mat n n (jacobian_column J0 j f0 f1 delta))
      by (apply wf_jacobian_column; [assumption|lia]).
    destruct (IH _ F Hnd' HF W1 i k Hi Hk) as [IHin IHout].
    split.
    + intros [->|Hin]; [|now apply IHin].
      exists f1. split; [exact Ej|].
      rewrite (IHout Hnj).
      rewrite (mget_jacobian_column n n) by (eauto; assumption).
      now rewrite Nat.eqb_refl.
    + intros Hnin. rewrite IHout by (intros Hin; apply Hnin; now right).
      rewrite (mget_jacobian_column n n) by (eauto; assumption).
      destruct (Nat.eqb_spec k j) as [->|]; [|reflexivity].
      exfalso. apply Hnin. now left.
Qed.

Lemma indirect_lidar_measurement_length u ul dt y :
  indirect_lidar_measurement u ul dt = Some y -> length y = 6%nat.
Proof.
  unfold indirect_lidar_measurement. intros H.
  apply bind_Some in H. destruct H as (t & _ & H).
  apply bind_Some in H. destruct H as (j21 & _ & H).
  apply bind_Some in H. destruct H as (j22 & _ & H).
  apply bind_Some in H. destruct H as (Ji & HJi & H).
  unfold vdiv in H. destruct (Req_dec_T dt 0); [discriminate|].
  injection H as <-. unfold vdiv_const, mvmul.
  rewrite !length_mk_vec. unfold mset_block.
  now rewrite !nrows_mk_mat.
Qed.

Lemma jacobian_state_entries x dt F i j :
  jacobian_state x dt = Some F -> (i < 12)%nat -> (j < 12)%nat ->
  exists f0 f1,
    f_prediction_model x dt = Some f0
    /\ f_prediction_model (vset x j (vget x j + 0.0001)) dt = Some f1
    /\ mget F i j = jacobian_entry f0 f1 0.0001 i.
Proof.
  unfold jacobian_state. intros H Hi Hj.
  apply bind_Some in H. destruct H as (f0 & Hf0 & H).
  destruct (jacobian_loop_entries 12 f0 0.0001
              (fun i => f_prediction_model (vset x i (vget x i + 0.0001)) dt)
              (fun k f1 Hk => f_prediction_model_length _ _ _ Hk)
              (seq 0 N_STATES) _ F (seq_NoDup _ _) H (wf_mzero 12 12)
              i j Hi Hj) as [Hin _].
  destruct Hin as (f1 & Hf1 & E); [apply in_seq; unfold N_STATES; lia|].
  now exists f0, f1.
Qed.

Lemma jacobian_loop_defined (f0 : Vec) (delta : R) (g : nat -> option Vec) l :
  (forall i, In i l -> exists f1, g i = Some f1) ->
  forall J0, exists F,
    fold_left (fun (J : option Mat) (i : nat) =>
                 J <- J ;; f1 <- g i ;;
                 Some (jacobian_column J i f0 f1 delta)) l (Some J0) = Some F.
Proof.
  induction l as [|j l IH]; intros Hg J0.
  - now exists J0.
  - cbn [fold_left bind]. destruct (Hg j (or_introl eq_refl)) as [f1 ->].
    cbn [bind]. apply IH. intros i Hi. apply Hg. now right.
Qed.

Lemma vget_vset (v : Vec) i a k :
  (k < length v)%nat -> vget (vset v i a) k = if Nat.eqb k i then a else vget v k.
Proof. intros Hk. unfold vset. now rewrite vget_mk_vec. Qed.

Lemma perturbed_pitch_cos (x : Vec) i delta :
  length x = 12%nat ->
  cos (vget x 4) <> 0 -> cos (vget x 4 + delta) <> 0 ->
  cos (vget (vset x i (vget x i + delta)) 4) <> 0.
Proof.
  intros Hx Hc Hc'. rewrite vget_vset by lia.
  destruct (Nat.eqb_spec 4 i) as [<-|]; assumption.
Qed.

Lemma jacobian_state_defined (x : Vec) (dt : R) :
  length x = 12%nat ->
  cos (vget x 4) <> 0 -> cos (vget x 4 + 0.0001) <> 0 ->
  exists F, jacobian_state x dt = Some F.
Proof.
  intros Hx Hc Hc'. unfold jacobian_state.
  rewrite f_prediction_model_spec by assumption. cbn [bind].
  apply jacobian_loop_defined. intros i _.
  eexists. apply f_prediction_model_spec.
  - now rewrite length_vset.
  - now apply perturbed_pitch_cos.
Qed.

Lemma jacobian_lidar_measurementL_defined (u ul : Vec) (dt : R) :
  length u = 6%nat -> length ul = 6%nat ->
  cos (vget ul 4) <> 0 -> cos (vget ul 4 + 0.0000001) <> 0 -> dt <> 0 ->
  exists Gl, jacobian_lidar_measurementL u ul dt = Some Gl.
Proof.
  intros Hu Hul Hc Hc' Hdt. unfold jacobian_lidar_measurementL.
  rewrite indirect_lidar_measurement_defined by assumption. cbn [bind].
  apply jacobian_loop_defined. intros i _.
  eexists. apply indirect_lidar_measurement_defined; try assumption.
  - now rewrite length_vset.
  - rewrite vget_vset by lia.
    destruct (Nat.eqb_spec 4 i) as [<-|]; assumption.
Qed.

Lemma jacobian_lidar_measurement_entries u ul dt G i j :
  jacobian_lidar_measurement u ul dt = Some G -> (i < 6)%nat -> (j < 6)%nat ->
  exists f0 f1,
    indirect_lidar_measurement u ul dt = Some f0
    /\ indirect_lidar_measurement (vset u j (vget u j + 0.0000001)) ul dt
       = Some f1
    /\ mget G i j = jacobian_entry f0 f1 0.0000001 i.
Proof.
  unfold jacobian_lidar_measurement. intros H Hi Hj.
  apply bind_Some in H. destruct H as (f0 & Hf0 & H).
  destruct (jacobian_loop_entries 6 f0 0.0000001
              (fun i => indirect_lidar_measurement
                          (vset u i (vget u i + 0.0000001)) ul dt)
              (fun k f1 Hk => indirect_lidar_measurement_length _ _ _ _ Hk)
              (seq 0 N_LIDAR) _ G (seq_NoDup _ _) H (wf_mzero 6 6)
              i j Hi Hj) as [Hin _].
  destruct Hin as (f1 & Hf1 & E); [apply in_seq; unfold N_LIDAR; lia|].
  now exists f0, f1.
Qed.

Lemma jacobian_lidar_measurementL_entries u ul dt G i j :
  jacobian_lidar_measurementL u ul dt = Some G -> (i < 6)%nat -> (j < 6)%nat ->
  exists f0 f1,
    indirect_lidar_measurement u ul dt = Some f0
    /\ indirect_lidar_measurement u (vset ul j (vget ul j + 0.0000001)) dt
       = Some f1
    /\ mget G i j = jacobian_entry f0 f1 0.0000001 i.
Proof.
  unfold jacobian_lidar_measurementL. intros H Hi Hj.
  apply bind_Some in H. destruct H as (f0 & Hf0 & H).
  destruct (jacobian_loop_entries 6 f0 0.0000001
              (fun i => indirect_lidar_measurement u
                          (vset ul i (vget ul i + 0.0000001)) dt)
              (fun k f1 Hk => indirect_lidar_measurement_length _ _ _ _ Hk)
              (seq 0 N_LIDAR) _ G (seq_NoDup _ _) H (wf_mzero 6 6)
              i j Hi Hj) as [Hin _].
  destruct Hin as (f1 & Hf1 & E); [apply in_seq; unfold N_LIDAR; lia|].
  now exists f0, f1.
Qed.

(** X11.  Each numeric Jacobian is the matrix of forward differences of its
    model, column [j] from the evaluation with input [j] raised by the step
    (1e-4 for the prediction model, 1e-7 for the lidar measurement), with
    the three angle rows passed through [sin]; it has a value as soon as the
    model has one at the base point and at the perturbed pitch. *)
Theorem numeric_jacobians_are_forward_differences :
  (forall x dt F i j,
      jacobian_state x dt = Some F -> (i < 12)%nat -> (j < 12)%nat ->
      exists f0 f1,
        f_prediction_model x dt = Some f0
        /\ f_prediction_model (vset x j (vget x j + 0.0001)) dt = Some f1
        /\ mget F i j = jacobian_entry f0 f1 0.0001 i)
  /\ (forall u ul dt G i j,
         jacobian_lidar_measurement u ul dt = Some G ->
         (i < 6)%nat -> (j < 6)%nat ->
         exists f0 f1,
           indirect_lidar_measurement u ul dt = Some f0
           /\ indirect_lidar_measurement (vset u j (vget u j + 0.0000001)) ul dt
              = Some f1
           /\ mget G i j = jacobian_entry f0 f1 0.0000001 i)
  /\ (forall u ul dt G i j,
         jacobian_lidar_measurementL u ul dt = Some G ->
         (i < 6)%nat -> (j < 6)%nat ->
         exists f0 f1,
           indirect_lidar_measurement u ul dt = Some f0
           /\ indirect_lidar_measurement u (vset ul j (vget ul j + 0.0000001)) dt
              = Some f1
           /\ mget G i j = jacobian_entry f0 f1 0.0000001 i)
  /\ (forall x dt,
         length x = 12%nat ->
         cos (vget x 4) <> 0 -> cos (vget x 4 + 0.0001) <> 0 ->
         exists F, jacobian_state x dt = Some F /\ wf_mat 12 12 F)
  /\ (forall u ul dt,
         length u = 6%nat -> length ul = 6%nat ->
         cos (vget ul 4) <> 0 -> cos (vget ul 4 + 0.0000001) <> 0 ->
         dt <> 0 ->
         exists G Gl,
           jacobian_lidar_measurement u ul dt = Some G
           /\ jacobian_lidar_measurementL u ul dt = Some Gl
           /\ wf_mat 6 6 G /\ wf_mat 6 6 Gl).
Proof.
  split; [intros; now apply (jacobian_state_entries x dt)|].
  split; [intros; now apply (jacobian_lidar_measurement_entries u ul dt)|].
  split; [intros; now apply (jacobian_lidar_measurementL_entries u ul dt)|].
  split.
  - intros x dt Hx Hc Hc'.
    destruct (jacobian_state_defined x dt Hx Hc Hc') as [F HF].
    exists F. split; [exact HF|now apply (jacobian_state_wf x dt)].
  - intros u ul dt Hu Hul Hc Hc' Hdt.
    destruct (jacobian_lidar_measurement_defined u ul dt Hu Hul Hc Hdt)
      as (G & HG & WG).
    destruct (jacobian_lidar_measurementL_defined u ul dt Hu Hul Hc Hc' Hdt)
      as (Gl & HGl).
    exists G, Gl.
    split; [exact HG|]. split; [exact HGl|]. split; [exact WG|].
    now apply (jacobian_lidar_measurementL_wf u ul dt).
Qed.

Lemma numeric_jacobians_are_forward_differences_witness :
  exists F, jacobian_state (vzero 12) 0.1 = Some F /\ wf_mat 12 12 F.
Proof.
  exact (proj1 (proj2 (proj2 (proj2 numeric_jacobians_are_forward_differences)))
           (vzero 12) 0.1 eq_refl cos_0_neq_0 cos_step_neq_0).
Defined.

(** ** What the prediction does to the velocity part *)

Lemma mget_madd n m A B i j :
  wf_mat n m A -> (0 < n)%nat -> (i < n)%nat -> (j < m)%nat ->
  mget (madd A B) i j = mget A i j + mget B i j.
Proof.
  intros HA Hn Hi Hj. unfold madd.
  rewrite (wf_nrows _ _ _ HA), (wf_ncols _ _ _ HA Hn).
  now rewrite mget_mk_mat.
Qed.

Lemma mget_msub n m A B i j :
  wf_mat n m A -> (0 < n)%nat -> (i < n)%nat -> (j < m)%nat ->
  mget (msub A B) i j = mget A i j - mget B i j.
Proof.
  intros HA Hn Hi Hj. unfold msub.
  rewrite (wf_nrows _ _ _ HA), (wf_ncols _ _ _ HA Hn).
  now rewrite mget_mk_mat.
Qed.

Lemma mget_transpose n m A i j :
  wf_mat n m A -> (0 < n)%nat -> (i < m)%nat -> (j < n)%nat ->
  mget (transpose A) i j = mget A j i.
Proof.
  intros HA Hn Hi Hj. unfold transpose.
  rewrite (wf_nrows _ _ _ HA), (wf_ncols _ _ _ HA Hn).
  now rewrite mget_mk_mat.
Qed.

Lemma vget_app_r (a b : Vec) k :
  (length a <= k)%nat -> vget (a ++ b) k = vget b (k - length a).
Proof. intros Hk. unfold vget. now apply app_nth2. Qed.

Lemma prediction_spec_velocity (x : Vec) dt i :
  (6 <= i < 12)%nat -> vget (prediction_spec x dt) i = vget x i.
Proof.
  intros Hi. unfold prediction_spec.
  rewrite vget_app_r; rewrite length_vadd, length_vblock; [|lia].
  rewrite vget_vblock by lia. f_equal. lia.
Qed.

(** Rows 6..11 of the numeric state Jacobian are unit rows, for any [dt]. *)
Lemma jacobian_state_velocity_rows x dt F i j :
  length x = 12%nat ->
  jacobian_state x dt = Some F ->
  (6 <= i < 12)%nat -> (j < 12)%nat ->
  mget F i j = if Nat.eqb i j then 1 else 0.
Proof.
  intros Hx HF Hi Hj.
  destruct (jacobian_state_entries x dt F i j HF (proj2 Hi) Hj)
    as (f0 & f1 & Hf0 & Hf1 & ->).
  assert (C0 : cos (vget x 4) <> 0).
  { intros C. unfold f_prediction_model in Hf0.
    unfold ftan, fdiv in Hf0.
    destruct (Req_dec_T (cos (vget x 4)) 0); [discriminate|contradiction]. }
  assert (C1 : cos (vget (vset x j (vget x j + 0.0001)) 4) <> 0).
  { intros C. unfold f_prediction_model in Hf1.
    unfold ftan, fdiv in Hf1.
    destruct (Req_dec_T (cos (vget (vset x j (vget x j + 0.0001)) 4)) 0);
      [discriminate|contradiction]. }
  rewrite f_prediction_model_spec in Hf0 by assumption.
  rewrite f_prediction_model_spec in Hf1
    by (try assumption; now rewrite length_vset).
  injection Hf0 as <-. injection Hf1 as <-.
  unfold jacobian_entry.
  replace (in_range 3 3 i) with false
    by (symmetry; unfold in_range; apply andb_false_intro2;
        apply Nat.ltb_ge; simpl; lia).
  rewrite !prediction_spec_velocity by assumption.
  rewrite vget_vset by lia.
  destruct (Nat.eqb_spec i j) as [<-|Hne]; field; lra.
Qed.

Lemma covariance_velocity_block F P0 E i j :
  wf_mat 12 12 F -> wf_mat 12 12 P0 ->
  (forall a b, (6 <= a < 12)%nat -> (b < 12)%nat ->
               mget F a b = if Nat.eqb a b then 1 else 0) ->
  (6 <= i < 12)%nat -> (6 <= j < 12)%nat ->
  mget (madd (mmul (mmul F P0) (transpose F)) E) i j
  = mget P0 i j + mget E i j.
Proof.
  intros WF WP HF Hi Hj.
  assert (WFP : wf_mat 12 12 (mmul F P0)) by (apply (wf_mmul 12 12 12); auto; lia).
  assert (WT : wf_mat 12 12 (transpose F)) by (apply wf_transpose; auto; lia).
  rewrite (mget_madd 12 12)
    by (try lia; apply (wf_mmul 12 12 12); auto; lia).
  f_equal.
  rewrite (mget_mmul 12 12 12) by (auto; lia).
  rewrite (sum_n_ext 12 _
             (fun k => mget P0 i k * (if Nat.eqb k j then 1 else 0))).
  - apply sum_n_delta_r. lia.
  - intros k Hk.
    rewrite (mget_transpose 12 12) by (auto; lia).
    rewrite (HF j k) by (auto; lia). rewrite (Nat.eqb_sym j k). f_equal.
    rewrite (mget_mmul 12 12 12) by (auto; lia).
    rewrite (sum_n_ext 12 _
               (fun l => (if Nat.eqb i l then 1 else 0) * mget P0 l k)).
    + apply (sum_n_delta_l 12 i (fun l => mget P0 l k)). lia.
    + intros l Hl. now rewrite (HF i l) by (auto; lia).
Qed.

Lemma prediction_stage_defined (dt : R) (s : State) (e : Estimate) :
  est (kf s) = Some e ->
  length (X e) = 12%nat ->
  cos (vget (X e) 4) <> 0 -> cos (vget (X e) 4 + 0.0001) <> 0 ->
  exists F,
    jacobian_state (X e) dt = Some F
    /\ est (kf (fst (prediction_stage dt s)))
       = Some {| X := prediction_spec (X e) dt;
                 P := madd (mmul (mmul F (P e)) (transpose F))
                           (E_pred (kf s)) |}.
Proof.
  intros He Hx C0 C1.
  destruct (jacobian_state_defined (X e) dt Hx C0 C1) as [F HF].
  exists F. split; [exact HF|].
  unfold prediction_stage. cbn [fst with_est kf est].
  rewrite He. cbn [bind]. rewrite HF. cbn [bind].
  now rewrite f_prediction_model_spec by assumption.
Qed.

(** X12.  Whatever the time step, the prediction leaves the six velocity
    states as they are and adds the process noise [E_pred] to their
    covariance block, entry by entry: the numeric Jacobian has unit rows
    there. *)
Theorem prediction_keeps_velocity (dt : R) (s : State) (e : Estimate) :
  est (kf s) = Some e ->
  length (X e) = 12%nat -> wf_mat 12 12 (P e) ->
  cos (vget (X e) 4) <> 0 -> cos (vget (X e) 4 + 0.0001) <> 0 ->
  exists e',
    est (kf (fst (prediction_stage dt s))) = Some e'
    /\ (forall i, (6 <= i < 12)%nat -> vget (X e') i = vget (X e) i)
    /\ (forall i j, (6 <= i < 12)%nat -> (6 <= j < 12)%nat ->
          mget (P e') i j = mget (P e) i j + mget (E_pred (kf s)) i j).
Proof.
  intros He Hx WP C0 C1.
  destruct (prediction_stage_defined dt s e He Hx C0 C1) as (F & HF & ->).
  eexists. split; [reflexivity|]. cbn [X P]. split.
  - intros i Hi. now apply prediction_spec_velocity.
  - intros i j Hi Hj. apply covariance_velocity_block; try assumption.
    + now apply (jacobian_state_wf (X e) dt).
    + intros a b Ha Hb.
      now apply (jacobian_state_velocity_rows (X e) dt).
Qed.

Lemma prediction_keeps_velocity_witness :
  exists e',
    est (kf (fst (prediction_stage 0.1 (initialization 0)))) = Some e'
    /\ (forall i, (6 <= i < 12)%nat ->
          vget (X e') i = vget (X {| X := vzero 12; P := P_init |}) i)
    /\ (forall i j, (6 <= i < 12)%nat -> (6 <= j < 12)%nat ->
          mget (P e') i j
          = mget (P {| X := vzero 12; P := P_init |}) i j
            + mget (E_pred (kf (initialization 0))) i j).
Proof.
  exact (prediction_keeps_velocity 0.1 (initialization 0)
           {| X := vzero 12; P := P_init |}
           eq_refl eq_refl wf_P_init cos_0_neq_0 cos_step_neq_0).
Defined.

(** ** The IMU's acceleration and angular rate never reach the estimate *)

Lemma vget_mk_vec_ge n f i : (n <= i)%nat -> vget (mk_vec n f) i = 0.
Proof. intros H. apply vget_overflow. now rewrite length_mk_vec. Qed.

Lemma vblock_vset_block (v b : Vec) i n :
  (i + n <= length v)%nat ->
  vblock (vset_block v i n b) i n = mk_vec n (vget b).
Proof.
  intros H. unfold vblock, vset_block. apply mk_vec_ext. intros k Hk.
  rewrite vget_mk_vec by lia.
  replace (in_range i n (i + k)) with true.
  - f_equal. lia.
  - symmetry. unfold in_range. apply andb_true_intro. split.
    + apply Nat.leb_le. lia.
    + apply Nat.ltb_lt. lia.
Qed.

Lemma mblock_mset_block r c (M B : Mat) i j p q :
  wf_mat r c M -> (i + p <= r)%nat -> (j + q <= c)%nat ->
  mblock (mset_block M i j p q B) i j p q = mk_mat p q (mget B).
Proof.
  intros WM Hr Hc. unfold mblock. apply mk_mat_ext. intros a b Ha Hb.
  assert (Hr0 : (0 < r)%nat) by lia.
  unfold mset_block.
  rewrite (wf_nrows _ _ _ WM), (wf_ncols _ _ _ WM Hr0).
  rewrite mget_mk_mat by lia.
  replace (in_range i p (i + a)) with true.
  - replace (in_range j q (j + b)) with true.
    + cbn [andb]. f_equal; lia.
    + symmetry. unfold in_range. apply andb_true_intro. split.
      * apply Nat.leb_le. lia.
      * apply Nat.ltb_lt. lia.
  - symmetry. unfold in_range. apply andb_true_intro. split.
    + apply Nat.leb_le. lia.
    + apply Nat.ltb_lt. lia.
Qed.

Lemma imu_used_inv s s' :
  imu_used s = imu_used s' ->
  vblock (imuMeasure (imu s)) 6 3 = vblock (imuMeasure (imu s')) 6 3
  /\ mblock (E_imu (imu s)) 6 6 3 3 = mblock (E_imu (imu s')) 6 6 3 3
  /\ imuTimeLast (imu s) = imuTimeLast (imu s')
  /\ imuTimeCurrent (imu s) = imuTimeCurrent (imu s')
  /\ imu_dt (imu s) = imu_dt (imu s')
  /\ imuActivated (imu s) = imuActivated (imu s')
  /\ imuNew (imu s) = imuNew (imu s')
  /\ wheel s = wheel s' /\ lidar s = lidar s' /\ kf s = kf s'.
Proof.
  intros H. unfold imu_used in H.
  split; [exact (f_equal (fun '(a, _, _, _, _, _, _, _, _, _) => a) H)|].
  split; [exact (f_equal (fun '(_, a, _, _, _, _, _, _, _, _) => a) H)|].
  split; [exact (f_equal (fun '(_, _, a, _, _, _, _, _, _, _) => a) H)|].
  split; [exact (f_equal (fun '(_, _, _, a, _, _, _, _, _, _) => a) H)|].
  split; [exact (f_equal (fun '(_, _, _, _, a, _, _, _, _, _) => a) H)|].
  split; [exact (f_equal (fun '(_, _, _, _, _, a, _, _, _, _) => a) H)|].
  split; [exact (f_equal (fun '(_, _, _, _, _, _, a, _, _, _) => a) H)|].
  split; [exact (f_equal (fun '(_, _, _, _, _, _, _, a, _, _) => a) H)|].
  split; [exact (f_equal (fun '(_, _, _, _, _, _, _, _, a, _) => a) H)|].
  exact (f_equal (fun '(_, _, _, _, _, _, _, _, _, a) => a) H).
Qed.

Section ImuRates.
Variable getRPY : Quaternion -> R * R * R.
Variable cfg : Config.

Lemma imuHandler_used m s s' :
  sizes_ok s -> sizes_ok s' -> imu_used s = imu_used s' ->
  imu_used (imuHandler getRPY cfg (imu_orientation_only m) s')
  = imu_used (imuHandler getRPY cfg m s).
Proof.
  intros Hs Hs' Hu.
  destruct Hs as (L & W & _). destruct Hs' as (L' & W' & _).
  destruct (imu_used_inv s s' Hu) as (_ & _ & E1 & E2 & E3 & E4 & E5 & E6 & E7 & E8).
  unfold imu_used, imuHandler.
  rewrite E4.
  destruct (imuActivated (imu s'));
    cbn [imu wheel lidar kf imuMeasure E_imu imuTimeLast imuTimeCurrent imu_dt
         imuActivated imuNew imu_orientation_only imu_stamp imu_orientation
         orientation_covariance];
    rewrite !vblock_vset_block
      by (rewrite !length_vset_block; unfold N_IMU in *; lia);
    rewrite !(mblock_mset_block 9 9)
      by (repeat apply wf_mset_block; try assumption; lia);
    rewrite ?E1, ?E2, ?E3, ?E6, ?E7, ?E8; reflexivity.
Qed.

Lemma run_prediction_used dt s s' :
  imu_used s = imu_used s' ->
  snd (run_prediction cfg dt s) = snd (run_prediction cfg dt s')
  /\ imu_used (fst (run_prediction cfg dt s))
     = imu_used (fst (run_prediction cfg dt s')).
Proof.
  intros Hu. unfold run_prediction.
  destruct (enableFilter cfg); [|now split].
  destruct (imu_used_inv s s' Hu) as (E1 & E2 & E3 & E4 & E5 & E6 & E7 & E8 & E9 & E10).
  unfold imu_used.
  unfold prediction_stage, publish_if, publish_odom.
  cbn [fst snd with_est imu wheel lidar kf est].
  rewrite ?E1, ?E2, ?E3, ?E4, ?E5, ?E6, ?E7, ?E8, ?E9, ?E10. now split.
Qed.

Lemma run_imu_used s s' :
  imu_used s = imu_used s' ->
  snd (run_imu cfg s) = snd (run_imu cfg s')
  /\ imu_used (fst (run_imu cfg s)) = imu_used (fst (run_imu cfg s')).
Proof.
  intros Hu. unfold run_imu.
  destruct (imu_used_inv s s' Hu) as (E1 & E2 & E3 & E4 & E5 & E6 & E7 & E8 & E9 & E10).
  unfold imu_used.
  rewrite E6, E7.
  destruct (enableFilter cfg && enableImu cfg && imuActivated (imu s')
            && imuNew (imu s')); [|rewrite ?E1, ?E2, ?E3, ?E4, ?E5, ?E6, ?E7, ?E8, ?E9, ?E10; now split].
  unfold correction_imu_stage, publish_if, publish_odom, clear_imuNew.
  cbn [fst snd with_est imu wheel lidar kf est imuMeasure E_imu imuTimeLast
       imuTimeCurrent imu_dt imuActivated imuNew].
  rewrite ?E1, ?E2, ?E3, ?E4, ?E5, ?E6, ?E7, ?E8, ?E9, ?E10. now split.
Qed.

Lemma run_wheel_used s s' :
  imu_used s = imu_used s' ->
  snd (run_wheel cfg s) = snd (run_wheel cfg s')
  /\ imu_used (fst (run_wheel cfg s)) = imu_used (fst (run_wheel cfg s')).
Proof.
  intros Hu. unfold run_wheel.
  destruct (imu_used_inv s s' Hu) as (E1 & E2 & E3 & E4 & E5 & E6 & E7 & E8 & E9 & E10).
  unfold imu_used.
  rewrite E8.
  destruct (enableFilter cfg && enableWheel cfg && wheelActivated (wheel s')
            && wheelNew (wheel s'));
    [|rewrite ?E1, ?E2, ?E3, ?E4, ?E5, ?E6, ?E7, ?E8, ?E9, ?E10; now split].
  unfold correction_wheel_stage, publish_if, publish_odom, clear_wheelNew.
  cbn [fst snd with_est imu wheel lidar kf est imuMeasure E_imu imuTimeLast
       imuTimeCurrent imu_dt imuActivated imuNew].
  rewrite ?E1, ?E2, ?E3, ?E4, ?E5, ?E6, ?E7, ?E8, ?E9, ?E10. now split.
Qed.

Lemma run_lidar_used s s' :
  imu_used s = imu_used s' ->
  snd (run_lidar cfg s) = snd (run_lidar cfg s')
  /\ imu_used (fst (run_lidar cfg s)) = imu_used (fst (run_lidar cfg s')).
Proof.
  intros Hu. unfold run_lidar.
  destruct (imu_used_inv s s' Hu) as (E1 & E2 & E3 & E4 & E5 & E6 & E7 & E8 & E9 & E10).
  unfold imu_used.
  rewrite E9.
  destruct (enableFilter cfg && enableLidar cfg && lidarActivated (lidar s')
            && lidarNew (lidar s'));
    [|rewrite ?E1, ?E2, ?E3, ?E4, ?E5, ?E6, ?E7, ?E8, ?E9, ?E10; now split].
  unfold correction_lidar_stage, publish_if, publish_odom, clear_lidarNew,
    publish_indirect_lidar_measurement.
  cbn [fst snd with_est imu wheel lidar kf est imuMeasure E_imu imuTimeLast
       imuTimeCurrent imu_dt imuActivated imuNew].
  rewrite ?E1, ?E2, ?E3, ?E4, ?E5, ?E6, ?E7, ?E8, ?E9, ?E10. now split.
Qed.

Lemma run_iteration_used dt s s' :
  imu_used s = imu_used s' ->
  snd (run_iteration cfg dt s) = snd (run_iteration cfg dt s')
  /\ imu_used (fst (run_iteration cfg dt s))
     = imu_used (fst (run_iteration cfg dt s')).
Proof.
  intros H0. unfold run_iteration.
  destruct (run_prediction_used dt s s' H0) as [O1 H1].
  destruct (run_prediction cfg dt s) as [s1 o1].
  destruct (run_prediction cfg dt s') as [s1' o1'].
  destruct (run_imu_used s1 s1' H1) as [O2 H2].
  destruct (run_imu cfg s1) as [s2 o2].
  destruct (run_imu cfg s1') as [s2' o2'].
  destruct (run_wheel_used s2 s2' H2) as [O3 H3].
  destruct (run_wheel cfg s2) as [s3 o3].
  destruct (run_wheel cfg s2') as [s3' o3'].
  destruct (run_lidar_used s3 s3' H3) as [O4 H4].
  destruct (run_lidar cfg s3) as [s4 o4].
  destruct (run_lidar cfg s3') as [s4' o4'].
  cbn [fst snd] in *. split; [congruence|exact H4].
Qed.

Lemma step_used ev s s' :
  sizes_ok s -> sizes_ok s' -> imu_used s = imu_used s' ->
  snd (step getRPY cfg s' (forget_imu_rates ev)) = snd (step getRPY cfg s ev)
  /\ imu_used (fst (step getRPY cfg s' (forget_imu_rates ev)))
     = imu_used (fst (step getRPY cfg s ev)).
Proof.
  intros Hs Hs' Hu.
  destruct ev as [dt|m|m|m]; cbn [step forget_imu_rates fst snd].
  - destruct (run_iteration_used dt s s' Hu) as [O H]. now split.
  - split; [reflexivity|now apply imuHandler_used].
  - split; [reflexivity|].
    destruct (imu_used_inv s s' Hu) as (E1 & E2 & E3 & E4 & E5 & E6 & E7 & E8 & E9 & E10).
  unfold imu_used.
    unfold wheelOdometryHandler. rewrite E8.
    destruct (wheelActivated (wheel s'));
      cbn [imu wheel lidar kf]; congruence.
  - split; [reflexivity|].
    destruct (imu_used_inv s s' Hu) as (E1 & E2 & E3 & E4 & E5 & E6 & E7 & E8 & E9 & E10).
  unfold imu_used.
    unfold laserOdometryHandler. rewrite E9.
    destruct (lidarActivated (lidar s'));
      cbn [imu wheel lidar kf]; congruence.
Qed.

Lemma step_sizes ev s : sizes_ok s -> sizes_ok (fst (step getRPY cfg s ev)).
Proof.
  intros H. destruct ev as [dt|m|m|m]; cbn [step fst].
  - now apply run_iteration_sizes.
  - now apply imuHandler_sizes.
  - now apply wheelOdometryHandler_sizes.
  - now apply laserOdometryHandler_sizes.
Qed.

Lemma exec_used evs : forall s s',
  sizes_ok s -> sizes_ok s' -> imu_used s = imu_used s' ->
  snd (exec getRPY cfg (map forget_imu_rates evs) s')
  = snd (exec getRPY cfg evs s)
  /\ imu_used (fst (exec getRPY cfg (map forget_imu_rates evs) s'))
     = imu_used (fst (exec getRPY cfg evs s)).
Proof.
  induction evs as [|ev rest IH]; intros s s' Hs Hs' Hu.
  - cbn [map exec fst snd]. split; [reflexivity|now symmetry].
  - cbn [map exec].
    destruct (step_used ev s s' Hs Hs' Hu) as [O1 H1].
    pose proof (step_sizes ev s Hs) as Z1.
    pose proof (step_sizes (forget_imu_rates ev) s' Hs') as Z1'.
    destruct (step getRPY cfg s ev) as [s1 o1].
    destruct (step getRPY cfg s' (forget_imu_rates ev)) as [s1' o1'].
    cbn [fst snd] in *.
    destruct (IH s1 s1' Z1 Z1' (eq_sym H1)) as [O2 H2].
    destruct (exec getRPY cfg rest s1) as [s2 o2].
    destruct (exec getRPY cfg (map forget_imu_rates rest) s1') as [s2' o2'].
    cbn [fst snd] in *. split; [congruence|exact H2].
Qed.

End ImuRates.

(** X13.  The linear acceleration and the angular velocity of the IMU
    messages, and their covariances, are stored but never used: blanking
    them in every message of a run changes neither the trace of stage calls
    and publications nor the filter state at the end. *)
Theorem imu_rates_never_used (getRPY : Quaternion -> R * R * R)
    (cfg : Config) (evs : list event) (imu_dt0 : R) :
  snd (exec getRPY cfg (map forget_imu_rates evs) (initialization imu_dt0))
  = snd (exec getRPY cfg evs (initialization imu_dt0))
  /\ kf (fst (exec getRPY cfg (map forget_imu_rates evs)
                (initialization imu_dt0)))
     = kf (fst (exec getRPY cfg evs (initialization imu_dt0))).
Proof.
  destruct (exec_used getRPY cfg evs (initialization imu_dt0)
              (initialization imu_dt0) (sizes_ok_init imu_dt0)
              (sizes_ok_init imu_dt0) eq_refl) as [O H].
  split; [exact O|].
  now destruct (imu_used_inv _ _ H) as (_ & _ & _ & _ & _ & _ & _ & _ & _ & E).
Qed.

(** ** The covariance stays symmetric *)

Lemma transpose_transpose n m A :
  wf_mat n m A -> (0 < n)%nat -> (0 < m)%nat -> transpose (transpose A) = A.
Proof.
  intros HA Hn Hm.
  pose proof (wf_transpose n m A HA Hn) as HT.
  apply (mat_ext n m); [now apply wf_transpose|assumption|].
  intros i j Hi Hj.
  rewrite (mget_transpose m n) by assumption.
  now rewrite (mget_transpose n m).
Qed.

Lemma transpose_mmul n m p A B :
  wf_mat n m A -> wf_mat m p B ->
  (0 < n)%nat -> (0 < m)%nat -> (0 < p)%nat ->
  transpose (mmul A B) = mmul (transpose B) (transpose A).
Proof.
  intros HA HB Hn Hm Hp.
  pose proof (wf_mmul n m p A B HA HB Hm) as HAB.
  pose proof (wf_transpose n m A HA Hn) as HAt.
  pose proof (wf_transpose m p B HB Hm) as HBt.
  apply (mat_ext p n).
  - now apply wf_transpose.
  - now apply (wf_mmul p m n).
  - intros i j Hi Hj.
    rewrite (mget_transpose n p) by assumption.
    rewrite (mget_mmul n m p) by assumption.
    rewrite (mget_mmul p m n) by assumption.
    apply sum_n_ext. intros k Hk.
    rewrite (mget_transpose m p), (mget_transpose n m) by assumption.
    ring.
Qed.

Lemma transpose_madd n m A B :
  wf_mat n m A -> wf_mat n m B -> (0 < n)%nat -> (0 < m)%nat ->
  transpose (madd A B) = madd (transpose A) (transpose B).
Proof.
  intros HA HB Hn Hm.
  pose proof (wf_madd n m A B HA Hn) as HS.
  pose proof (wf_transpose n m A HA Hn) as HAt.
  apply (mat_ext m n).
  - now apply wf_transpose.
  - now apply wf_madd.
  - intros i j Hi Hj.
    rewrite (mget_transpose n m) by assumption.
    rewrite (mget_madd n m), (mget_madd m n) by assumption.
    now rewrite !(mget_transpose n m) by assumption.
Qed.

Lemma transpose_msub n m A B :
  wf_mat n m A -> wf_mat n m B -> (0 < n)%nat -> (0 < m)%nat ->
  transpose (msub A B) = msub (transpose A) (transpose B).
Proof.
  intros HA HB Hn Hm.
  pose proof (wf_msub n m A B HA Hn) as HS.
  pose proof (wf_transpose n m A HA Hn) as HAt.
  apply (mat_ext m n).
  - now apply wf_transpose.
  - now apply wf_msub.
  - intros i j Hi Hj.
    rewrite (mget_transpose n m) by assumption.
    rewrite (mget_msub n m), (mget_msub m n) by assumption.
    now rewrite !(mget_transpose n m) by assumption.
Qed.

Lemma transpose_identity n : (0 < n)%nat -> transpose (identity n) = identity n.
Proof.
  intros Hn. apply (mat_ext n n).
  - apply wf_transpose; [apply wf_identity|assumption].
  - apply wf_identity.
  - intros i j Hi Hj.
    rewrite (mget_transpose n n) by (try apply wf_identity; assumption).
    unfold identity. rewrite !mget_mk_mat by assumption.
    now rewrite Nat.eqb_sym.
Qed.

Lemma symmetric_entries n M :
  wf_mat n n M -> (0 < n)%nat ->
  (symmetric M <->
   forall i j, (i < n)%nat -> (j < n)%nat -> mget M i j = mget M j i).
Proof.
  intros HM Hn. unfold symmetric. split.
  - intros H i j Hi Hj. rewrite <- H at 1.
    now apply (mget_transpose n n).
  - intros H. apply (mat_ext n n); [now apply wf_transpose|assumption|].
    intros i j Hi Hj. rewrite (mget_transpose n n) by assumption.
    now apply H.
Qed.

Lemma symmetric_congruence n m A M :
  wf_mat n m A -> wf_mat m m M -> (0 < n)%nat -> (0 < m)%nat ->
  symmetric M -> symmetric (mmul (mmul A M) (transpose A)).
Proof.
  intros HA HM Hn Hm HS. unfold symmetric in *.
  pose proof (wf_transpose n m A HA Hn) as HAt.
  pose proof (wf_mmul n m m A M HA HM Hm) as HAM.
  rewrite (transpose_mmul n m n) by assumption.
  rewrite (transpose_transpose n m) by assumption.
  rewrite (transpose_mmul n m m) by assumption.
  rewrite HS.
  symmetry. now apply (mmul_assoc n m m n).
Qed.

Lemma symmetric_madd n A B :
  wf_mat n n A -> wf_mat n n B -> (0 < n)%nat ->
  symmetric A -> symmetric B -> symmetric (madd A B).
Proof.
  intros HA HB Hn SA SB. unfold symmetric in *.
  rewrite (transpose_madd n n) by assumption. now rewrite SA, SB.
Qed.

Lemma symmetric_msub n A B :
  wf_mat n n A -> wf_mat n n B -> (0 < n)%nat ->
  symmetric A -> symmetric B -> symmetric (msub A B).
Proof.
  intros HA HB Hn SA SB. unfold symmetric in *.
  rewrite (transpose_msub n n) by assumption. now rewrite SA, SB.
Qed.

Lemma symmetric_inverse n S Si :
  wf_mat n n S -> (0 < n)%nat -> symmetric S ->
  is_inverse n S Si -> symmetric Si.
Proof.
  intros HS Hn SS HI. pose proof HI as (HSi & H1 & H2).
  unfold symmetric in *.
  apply (is_inverse_unique n S); try assumption.
  split; [now apply wf_transpose|]. split.
  - rewrite <- SS at 1. rewrite <- (transpose_mmul n n n) by assumption.
    rewrite H2. now apply transpose_identity.
  - rewrite <- SS at 1. rewrite <- (transpose_mmul n n n) by assumption.
    rewrite H1. now apply transpose_identity.
Qed.

Lemma symmetric_mzero n : symmetric (mzero n n).
Proof.
  unfold symmetric, transpose, mzero.
  destruct n as [|n]; [reflexivity|].
  rewrite nrows_mk_mat, ncols_mk_mat by lia.
  apply mk_mat_ext. intros i j Hi Hj. now rewrite mget_mk_mat.
Qed.

Lemma symmetric_mset_diag n M i x :
  wf_mat n n M -> (0 < n)%nat -> symmetric M -> symmetric (mset M i i x).
Proof.
  intros HM Hn SM.
  apply (symmetric_entries n); [now apply wf_mset|assumption|].
  intros a b Ha Hb. rewrite !(mget_mset n n) by assumption.
  rewrite (andb_comm (Nat.eqb b i)).
  destruct (Nat.eqb a i && Nat.eqb b i); [reflexivity|].
  now apply (symmetric_entries n M HM Hn).
Qed.

(** The measurement update in the form the three corrections share. *)
Lemma kalman_update_symmetric m (P0 H E Si : Mat) :
  (0 < m)%nat ->
  wf_mat 12 12 P0 -> wf_mat m 12 H -> wf_mat m m E ->
  symmetric P0 -> symmetric E ->
  inverse (madd (mmul (mmul H P0) (transpose H)) E) = Some Si ->
  symmetric (msub P0 (mmul (mmul (mmul (mmul P0 (transpose H)) Si) H) P0)).
Proof.
  intros Hm WP WH WE SP SE HSi.
  assert (H12 : (0 < 12)%nat) by lia.
  pose proof (wf_transpose m 12 H WH Hm) as WHt.
  pose proof (wf_mmul m 12 12 H P0 WH WP H12) as WHP.
  pose proof (wf_mmul m 12 m _ _ WHP WHt H12) as WHPH.
  pose proof (wf_madd m m _ E WHPH Hm) as WS.
  pose proof (wf_mmul 12 12 m P0 _ WP WHt H12) as WB.
  assert (SS : symmetric (madd (mmul (mmul H P0) (transpose H)) E)).
  { apply (symmetric_madd m); try assumption.
    now apply (symmetric_congruence m 12). }
  apply inverse_Some in HSi. rewrite (wf_nrows m m _ WS) in HSi.
  pose proof HSi as (WSi & _ & _).
  pose proof (symmetric_inverse m _ Si WS Hm SS HSi) as SSi.
  pose proof (wf_mmul 12 m m _ Si WB WSi Hm) as WK.
  assert (EB : mmul H P0 = transpose (mmul P0 (transpose H))).
  { rewrite (transpose_mmul 12 12 m) by assumption.
    rewrite (transpose_transpose m 12) by assumption.
    unfold symmetric in SP. now rewrite SP. }
  rewrite (mmul_assoc 12 m 12 12) by assumption.
  rewrite EB.
  apply (symmetric_msub 12); try assumption.
  - apply (wf_mmul 12 m 12); try assumption.
    now apply wf_transpose.
  - now apply (symmetric_congruence 12 m).
Qed.

Lemma prediction_stage_symmetric dt s :
  sizes_ok s -> covariances_symmetric s ->
  covariances_symmetric (fst (prediction_stage dt s)).
Proof.
  intros Z (S1 & S2 & S3 & S4 & S5 & S6).
  destruct Z as (_ & _ & _ & _ & _ & _ & _ & _ & Z9 & Z10).
  unfold covariances_symmetric, prediction_stage.
  cbn [fst with_est imu wheel lidar kf est E_pred lidarMeasureL E_lidarL].
  split_conj; try assumption.
  intros e1 H.
  apply bind_Some in H. destruct H as (e & He & H).
  apply bind_Some in H. destruct H as (F & HF & H).
  apply bind_Some in H. destruct H as (X' & HX & [= <-]).
  destruct (Z10 e He) as [_ WP]. cbn [P].
  pose proof (jacobian_state_wf _ _ _ HF) as WF.
  apply (symmetric_madd 12); try assumption; try lia.
  - apply (wf_mmul 12 12 12); try lia.
    + apply (wf_mmul 12 12 12); try assumption; lia.
    + apply wf_transpose; [assumption|lia].
  - apply (symmetric_congruence 12 12); try assumption; try lia.
    now apply S6.
Qed.

Lemma mget_mset_block r c (M B : Mat) i j p q a b :
  wf_mat r c M -> (0 < r)%nat -> (a < r)%nat -> (b < c)%nat ->
  mget (mset_block M i j p q B) a b
  = if in_range i p a && in_range j q b then mget B (a - i) (b - j)
    else mget M a b.
Proof.
  intros WM Hr Ha Hb. unfold mset_block.
  rewrite (wf_nrows _ _ _ WM), (wf_ncols _ _ _ WM Hr).
  now rewrite mget_mk_mat.
Qed.

Lemma correction_wheel_stage_symmetric dt s :
  sizes_ok s -> covariances_symmetric s ->
  covariances_symmetric (fst (correction_wheel_stage dt s)).
Proof.
  intros Z (S1 & S2 & S3 & S4 & S5 & S6).
  destruct Z as (_ & _ & _ & Z4 & _ & _ & _ & _ & Z9 & Z10).
  unfold covariances_symmetric, correction_wheel_stage.
  cbn [fst with_est imu wheel lidar kf est E_pred lidarMeasureL E_lidarL].
  split_conj; try assumption.
  intros e1 H.
  apply bind_Some in H. destruct H as (e & He & H).
  apply bind_Some in H. destruct H as (Si & HSi & [= <-]).
  destruct (Z10 e He) as [_ WP]. cbn [P].
  apply (kalman_update_symmetric 2) with (E := E_wheel (wheel s));
    try assumption; try lia.
  - repeat apply wf_mset; try (unfold N_WHEEL; lia). apply wf_mzero.
  - now apply S6.
Qed.

Lemma correction_imu_stage_symmetric dt s :
  sizes_ok s -> covariances_symmetric s ->
  covariances_symmetric (fst (correction_imu_stage dt s)).
Proof.
  intros Z (S1 & S2 & S3 & S4 & S5 & S6).
  destruct Z as (_ & _ & _ & Z4 & _ & _ & _ & _ & Z9 & Z10).
  unfold covariances_symmetric, correction_imu_stage.
  cbn [fst with_est imu wheel lidar kf est E_pred lidarMeasureL E_lidarL].
  split_conj; try assumption.
  intros e1 H.
  apply bind_Some in H. destruct H as (e & He & H).
  apply bind_Some in H. destruct H as (Si & HSi & [= <-]).
  destruct (Z10 e He) as [_ WP]. cbn [P].
  apply (kalman_update_symmetric 3)
    with (E := mblock (E_imu (imu s)) 6 6 3 3);
    try assumption; try lia.
  - apply wf_mset_block; [apply wf_mzero|lia].
  - apply wf_mk_mat.
  - now apply S6.
Qed.

Lemma correction_lidar_stage_symmetric dt s :
  sizes_ok s -> covariances_symmetric s ->
  covariances_symmetric (fst (correction_lidar_stage dt s)).
Proof.
  intros Z (S1 & S2 & S3 & S4 & S5 & S6).
  destruct Z as (_ & _ & _ & _ & _ & Z6 & _ & Z8 & Z9 & Z10).
  unfold covariances_symmetric, correction_lidar_stage.
  cbn [fst imu wheel lidar kf est E_pred lidarMeasureL E_lidarL].
  split_conj; try assumption.
  intros e1 H.
  apply bind_Some in H. destruct H as (e & He & H).
  apply bind_Some in H. destruct H as (Y & _ & H).
  apply bind_Some in H. destruct H as (Q & HQ & H).
  apply bind_Some in H. destruct H as (Si & HSi & [= <-]).
  apply bind_Some in HQ. destruct HQ as (G & HG & HQ).
  apply bind_Some in HQ. destruct HQ as (Gl & HGl & [= <-]).
  destruct (Z10 e He) as [_ WP]. cbn [P].
  pose proof (jacobian_lidar_measurement_wf _ _ _ _ HG) as WG.
  pose proof (jacobian_lidar_measurementL_wf _ _ _ _ HGl) as WGl.
  assert (H6 : (0 < 6)%nat) by lia.
  assert (WQ1 : wf_mat 6 6 (mmul (mmul G (E_lidar (lidar s))) (transpose G))).
  { apply (wf_mmul 6 6 6); try assumption.
    - now apply (wf_mmul 6 6 6).
    - now apply wf_transpose. }
  assert (WQ2 : wf_mat 6 6 (mmul (mmul Gl (E_lidarL (kf s))) (transpose Gl))).
  { apply (wf_mmul 6 6 6); try assumption.
    - now apply (wf_mmul 6 6 6).
    - now apply wf_transpose. }
  eapply (kalman_update_symmetric 6); try exact HSi; try assumption.
  - apply wf_mset_block; [apply wf_mzero|unfold N_LIDAR; lia].
  - now apply wf_madd.
  - now apply S6.
  - apply (symmetric_madd 6); try assumption.
    + now apply (symmetric_congruence 6 6).
    + now apply (symmetric_congruence 6 6).
Qed.

Lemma symmetric_adaptive_covariance cfg fC fS :
  symmetric (adaptive_covariance cfg fC fS).
Proof.
  unfold adaptive_covariance. cbv zeta.
  do 6 (apply (symmetric_mset_diag 6);
        [repeat apply wf_mset; try lia; apply wf_mzero|lia|]).
  apply symmetric_mzero.
Qed.

Lemma symmetric_E_pred_init :
  symmetric (mset_block (mzero N_STATES N_STATES) 6 6 6 6
               (mscale 0.01 (mblock P_init 6 6 6 6))).
Proof.
  apply (symmetric_entries 12);
    [apply wf_mset_block; [apply wf_mzero|unfold N_STATES; lia]|lia|].
  intros i j Hi Hj.
  do 12 (destruct i as [|i]; [
    do 12 (destruct j as [|j]; [reflexivity|]); lia|]).
  lia.
Qed.

Lemma symmetric_P_init : symmetric P_init.
Proof.
  apply (symmetric_entries 12); [exact wf_P_init|lia|].
  intros i j Hi Hj.
  do 12 (destruct i as [|i]; [
    do 12 (destruct j as [|j]; [reflexivity|]); lia|]).
  lia.
Qed.

Lemma covariances_symmetric_init imu_dt0 :
  covariances_symmetric (initialization imu_dt0).
Proof.
  unfold covariances_symmetric, initialization.
  cbn [imu wheel lidar kf E_pred E_wheel E_imu E_lidar E_lidarL est].
  split; [exact symmetric_E_pred_init|].
  split; [exact (symmetric_mzero N_WHEEL)|].
  split.
  { apply (symmetric_entries 3); [apply wf_mk_mat|lia|].
    intros i j Hi Hj. unfold mblock. rewrite !mget_mk_mat by assumption.
    unfold mzero, N_IMU. now rewrite !mget_mk_mat by lia. }
  split; [exact (symmetric_mzero N_LIDAR)|].
  split; [exact (symmetric_mzero N_LIDAR)|].
  intros e [= <-]. exact symmetric_P_init.
Qed.

Lemma wf_mat3_of_array (c : list R) : wf_mat 3 3 (mat3_of_array c).
Proof. apply wf_mk_mat. Qed.

Lemma three_pos : (0 < 3)%nat.
Proof. lia. Qed.

Section Symmetry.
Variable getRPY : Quaternion -> R * R * R.
Variable cfg : Config.

Lemma run_prediction_symmetric dt s :
  sizes_ok s -> covariances_symmetric s ->
  covariances_symmetric (fst (run_prediction cfg dt s)).
Proof.
  intros Z H. unfold run_prediction.
  destruct (enableFilter cfg); [|exact H].
  pose proof (prediction_stage_symmetric dt s Z H) as H1.
  destruct (prediction_stage dt s) as [s1 o]. exact H1.
Qed.

Lemma run_imu_symmetric s :
  sizes_ok s -> covariances_symmetric s ->
  covariances_symmetric (fst (run_imu cfg s)).
Proof.
  intros Z H. unfold run_imu.
  destruct (enableFilter cfg && enableImu cfg && imuActivated (imu s)
            && imuNew (imu s)); [|exact H].
  pose proof (correction_imu_stage_symmetric (imu_dt (imu s)) s Z H) as H1.
  destruct (correction_imu_stage (imu_dt (imu s)) s) as [s1 o]. exact H1.
Qed.

Lemma run_wheel_symmetric s :
  sizes_ok s -> covariances_symmetric s ->
  covariances_symmetric (fst (run_wheel cfg s)).
Proof.
  intros Z H. unfold run_wheel.
  destruct (enableFilter cfg && enableWheel cfg && wheelActivated (wheel s)
            && wheelNew (wheel s)); [|exact H].
  pose proof (correction_wheel_stage_symmetric (wheel_dt (wheel s)) s Z H)
    as H1.
  destruct (correction_wheel_stage (wheel_dt (wheel s)) s) as [s1 o]. exact H1.
Qed.

Lemma run_lidar_symmetric s :
  sizes_ok s -> covariances_symmetric s ->
  covariances_symmetric (fst (run_lidar cfg s)).
Proof.
  intros Z H. unfold run_lidar.
  destruct (enableFilter cfg && enableLidar cfg && lidarActivated (lidar s)
            && lidarNew (lidar s)); [|exact H].
  pose proof (correction_lidar_stage_symmetric (lidar_dt (lidar s)) s Z H)
    as H1.
  destruct (correction_lidar_stage (lidar_dt (lidar s)) s) as [s1 o]. exact H1.
Qed.

Lemma run_iteration_symmetric dt s :
  sizes_ok s -> covariances_symmetric s ->
  covariances_symmetric (fst (run_iteration cfg dt s)).
Proof.
  intros Z0 H0. unfold run_iteration.
  pose proof (run_prediction_sizes cfg dt s Z0) as Z1.
  pose proof (run_prediction_symmetric dt s Z0 H0) as H1.
  destruct (run_prediction cfg dt s) as [s1 o1].
  pose proof (run_imu_sizes cfg s1 Z1) as Z2.
  pose proof (run_imu_symmetric s1 Z1 H1) as H2.
  destruct (run_imu cfg s1) as [s2 o2].
  pose proof (run_wheel_sizes cfg s2 Z2) as Z3.
  pose proof (run_wheel_symmetric s2 Z2 H2) as H3.
  destruct (run_wheel cfg s2) as [s3 o3].
  pose proof (run_lidar_symmetric s3 Z3 H3) as H4.
  destruct (run_lidar cfg s3) as [s4 o4].
  exact H4.
Qed.

Lemma imuHandler_symmetric m s :
  sizes_ok s -> symmetric (mat3_of_array (orientation_covariance m)) ->
  covariances_symmetric s ->
  covariances_symmetric (imuHandler getRPY cfg m s).
Proof.
  intros Z Hm (S1 & S2 & S3 & S4 & S5 & S6).
  destruct Z as (_ & Z2 & _).
  unfold covariances_symmetric, imuHandler.
  destruct (imuActivated (imu s));
    cbn [imu wheel lidar kf E_pred E_wheel E_imu E_lidar E_lidarL est];
    split_conj; try assumption;
    rewrite !(mblock_mset_block 9 9)
      by (repeat apply wf_mset_block; try assumption; unfold N_IMU; lia);
    (apply (symmetric_entries 3); [apply wf_mk_mat|lia|]);
    intros i j Hi Hj; rewrite !mget_mk_mat by assumption;
    unfold mscale; rewrite nrows_mk_mat, ncols_mk_mat by lia;
    rewrite !mget_mk_mat by assumption;
    f_equal;
    apply (proj1 (symmetric_entries 3 _ (wf_mat3_of_array _) three_pos) Hm);
    assumption.
Qed.

Lemma wheelOdometryHandler_symmetric m s :
  sizes_ok s -> covariances_symmetric s ->
  covariances_symmetric (wheelOdometryHandler cfg m s).
Proof.
  intros Z (S1 & S2 & S3 & S4 & S5 & S6).
  destruct Z as (_ & _ & _ & Z4 & _).
  unfold covariances_symmetric, wheelOdometryHandler.
  destruct (wheelActivated (wheel s));
    cbn [imu wheel lidar kf E_pred E_wheel E_imu E_lidar E_lidarL est];
    split_conj; try assumption;
    do 2 (apply (symmetric_mset_diag 2);
          [repeat apply wf_mset; try assumption; lia|lia|]);
    assumption.
Qed.

Lemma laserOdometryHandler_symmetric m s :
  covariances_symmetric s ->
  covariances_symmetric (laserOdometryHandler getRPY cfg m s).
Proof.
  intros (S1 & S2 & S3 & S4 & S5 & S6).
  unfold covariances_symmetric, laserOdometryHandler.
  destruct (lidarActivated (lidar s));
    cbn [imu wheel lidar kf E_pred E_wheel E_imu E_lidar E_lidarL est];
    split_conj; try assumption; apply symmetric_adaptive_covariance.
Qed.

Lemma step_symmetric ev s :
  imu_covariance_symmetric ev ->
  sizes_ok s -> covariances_symmetric s ->
  covariances_symmetric (fst (step getRPY cfg s ev)).
Proof.
  intros Hev Z H. destruct ev as [dt|m|m|m]; cbn [step fst].
  - now apply run_iteration_symmetric.
  - now apply imuHandler_symmetric.
  - now apply wheelOdometryHandler_symmetric.
  - now apply laserOdometryHandler_symmetric.
Qed.

Lemma exec_symmetric evs : forall s,
  Forall imu_covariance_symmetric evs ->
  sizes_ok s -> covariances_symmetric s ->
  covariances_symmetric (fst (exec getRPY cfg evs s)).
Proof.
  induction evs as [|ev rest IH]; intros s Hevs Z H; [exact H|].
  inversion Hevs as [|? ? Hev Hrest]; subst.
  cbn [exec].
  pose proof (step_symmetric ev s Hev Z H) as H1.
  pose proof (step_sizes getRPY cfg ev s Z) as Z1.
  destruct (step getRPY cfg s ev) as [s1 o1]. cbn [fst] in *.
  pose proof (IH s1 Hrest Z1 H1) as H2.
  destruct (exec getRPY cfg rest s1) as [s2 o2]. exact H2.
Qed.

End Symmetry.

(** X14.  In exact arithmetic the covariance of the estimate stays
    symmetric: after any run of loop passes and messages from
    [initialization], whenever the estimate has a value its [P] equals its
    transpose, provided every IMU message carried a symmetric orientation
    covariance.  Rounding is not modelled: in floating point the update
    [P - K H P] lets the symmetry drift in the last bits. *)
Theorem covariance_stays_symmetric (getRPY : Quaternion -> R * R * R)
    (cfg : Config) (evs : list event) (imu_dt0 : R) (e : Estimate) :
  Forall imu_covariance_symmetric evs ->
  est (kf (fst (exec getRPY cfg evs (initialization imu_dt0)))) = Some e ->
  transpose (P e) = P e.
Proof.
  intros Hevs He.
  destruct (exec_symmetric getRPY cfg evs (initialization imu_dt0) Hevs
              (sizes_ok_init imu_dt0) (covariances_symmetric_init imu_dt0))
    as (_ & _ & _ & _ & _ & H).
  now apply H.
Qed.

(** ** A node that hears nothing *)

Lemma vget_app_l (a b : Vec) k :
  (k < length a)%nat -> vget (a ++ b) k = vget a k.
Proof. intros Hk. unfold vget. now apply app_nth1. Qed.

Lemma vget_vblock_ge (v : Vec) i n k : (n <= k)%nat -> vget (vblock v i n) k = 0.
Proof. intros Hk. unfold vblock. now apply vget_mk_vec_ge. Qed.

(** A body at rest stays where it is: with zero velocities the prediction
    model returns its input. *)
Lemma prediction_spec_at_rest (x : Vec) (dt : R) :
  length x = 12%nat ->
  (forall i, (6 <= i < 12)%nat -> vget x i = 0) ->
  prediction_spec x dt = x.
Proof.
  intros Hx Hv.
  assert (Hz : forall k, vget (vblock x 6 6) k = 0).
  { intros k. destruct (Nat.lt_ge_cases k 6) as [Hk|Hk].
    - rewrite vget_vblock by assumption. apply Hv. lia.
    - now apply vget_vblock_ge. }
  apply (vec_ext _ _ 12); [apply length_prediction_spec|assumption|].
  intros i Hi. unfold prediction_spec.
  destruct (Nat.lt_ge_cases i 6) as [Hlt|Hge].
  - rewrite vget_app_l by (now rewrite length_vadd, length_vblock).
    unfold vadd. rewrite length_vblock, vget_mk_vec by assumption.
    rewrite vget_vblock by assumption.
    rewrite (mvmul_zero _ _ Hz).
    unfold vscale, vzero. rewrite length_mk_vec.
    assert (Hr : nrows (A_spec (vget x 3) (vget x 4) (vget x 5)) = 6%nat)
      by reflexivity.
    rewrite Hr, !vget_mk_vec by assumption.
    cbn [Nat.add]. ring.
  - rewrite vget_app_r; rewrite length_vadd, length_vblock; [|assumption].
    rewrite vget_vblock by lia. f_equal. lia.
Qed.

Section Idle.
Variable getRPY : Quaternion -> R * R * R.
Variable cfg : Config.
Hypothesis filter_on : enableFilter cfg = true.

Lemma not_due_before_first_message s :
  no_message_yet s ->
  imu_due cfg s = false /\ wheel_due cfg s = false /\ lidar_due cfg s = false.
Proof.
  intros (HI & HW & HL). unfold imu_due, wheel_due, lidar_due.
  rewrite HI, HW, HL, !andb_false_r. now repeat split.
Qed.

Lemma tick_before_first_message dt s :
  no_message_yet s ->
  fst (run_iteration cfg dt s) = fst (prediction_stage dt s).
Proof.
  intros H. destruct (not_due_before_first_message s H) as (HI & HW & HL).
  rewrite (run_iteration_idle cfg dt s HI HW HL).
  unfold run_prediction. rewrite filter_on.
  now destruct (prediction_stage dt s).
Qed.

Lemma ticks_before_first_message dts : forall s P0,
  no_message_yet s ->
  E_pred (kf s) = E_pred_init ->
  est (kf s) = Some {| X := vzero 12; P := P0 |} ->
  wf_mat 12 12 P0 ->
  exists P',
    est (kf (fst (exec getRPY cfg (map Tick dts) s)))
    = Some {| X := vzero 12; P := P' |}
    /\ wf_mat 12 12 P'
    /\ forall i j, (6 <= i < 12)%nat -> (6 <= j < 12)%nat ->
         mget P' i j
         = mget P0 i j + INR (length dts) * mget E_pred_init i j.
Proof.
  induction dts as [|dt rest IH]; intros s P0 Hn HE He WP.
  - exists P0. cbn [map exec fst length INR].
    split; [exact He|]. split; [exact WP|]. intros i j _ _. ring.
  - cbn [map exec step].
    pose proof (tick_before_first_message dt s Hn) as Hs.
    destruct (run_iteration cfg dt s) as [s1 o1]. cbn [fst] in Hs. subst s1.
    destruct (prediction_stage_defined dt s _ He eq_refl
                cos_0_neq_0 cos_step_neq_0) as (F & HF & He1).
    cbn [X P] in HF, He1.
    rewrite (prediction_spec_at_rest (vzero 12) dt eq_refl) in He1.
    2:{ intros i Hi. unfold vzero. now rewrite vget_mk_vec by lia. }
    pose proof (jacobian_state_wf _ _ _ HF) as WF.
    assert (Hn1 : no_message_yet (fst (prediction_stage dt s))) by exact Hn.
    assert (HE1 : E_pred (kf (fst (prediction_stage dt s))) = E_pred_init)
      by exact HE.
    destruct (IH _ _ Hn1 HE1 He1 (wf_covariance_propagation F P0 _ WF))
      as (P' & HP' & WP' & Hblock).
    exists P'.
    destruct (exec getRPY cfg (map Tick rest) (fst (prediction_stage dt s)))
      as [s2 o2].
    cbn [fst] in *. split; [exact HP'|]. split; [exact WP'|].
    intros i j Hi Hj. rewrite (Hblock i j Hi Hj).
    rewrite covariance_velocity_block; try assumption.
    + rewrite HE. change (length (dt :: rest)) with (S (length rest)).
      rewrite S_INR. ring.
    + intros a b Ha Hb.
      now apply (jacobian_state_velocity_rows (vzero 12) dt).
Qed.

End Idle.

(** X15.  Before the first message arrives, the filter only predicts: after
    any number of loop passes from [initialization] the state vector is
    still zero, and every entry of the velocity block of [P] has grown by
    the process noise once per pass. *)
Theorem idle_node_stays_at_origin (getRPY : Quaternion -> R * R * R)
    (cfg : Config) (dts : list R) (imu_dt0 : R) :
  enableFilter cfg = true ->
  exists P',
    est (kf (fst (exec getRPY cfg (map Tick dts) (initialization imu_dt0))))
    = Some {| X := vzero 12; P := P' |}
    /\ forall i j, (6 <= i < 12)%nat -> (6 <= j < 12)%nat ->
         mget P' i j
         = mget P_init i j + INR (length dts) * mget E_pred_init i j.
Proof.
  intros Hon.
  destruct (ticks_before_first_message getRPY cfg Hon dts
              (initialization imu_dt0) P_init
              (conj eq_refl (conj eq_refl eq_refl)) eq_refl eq_refl wf_P_init)
    as (P' & HP' & _ & Hblock).
  exists P'. split; assumption.
Qed.

Lemma idle_node_stays_at_origin_witness :
  exists P',
    est (kf (fst (exec rpy_zero default_config (map Tick [0.1; 0.1; 0.2])
                    (initialization 0))))
    = Some {| X := vzero 12; P := P' |}
    /\ forall i j, (6 <= i < 12)%nat -> (6 <= j < 12)%nat ->
         mget P' i j
         = mget P_init i j
           + INR (length [0.1; 0.1; 0.2]) * mget E_pred_init i j.
Proof.
  exact (idle_node_stays_at_origin rpy_zero default_config [0.1; 0.1; 0.2] 0
           eq_refl).
Defined.

(** ** Layout of the published covariances *)

Lemma fill_covariance_row_major (M : Mat) (lo : nat) (cov : list R) :
  length cov = 36%nat ->
  fill_covariance M lo cov
  = flat_map (fun i => map (fun j => mget M i j) (seq lo 6)) (seq lo 6).
Proof.
  intros H.
  do 36 (destruct cov as [|? cov]; [discriminate H|]).
  destruct cov; [clear H|discriminate H].
  cbv [fill_covariance fold_left seq vset mk_vec map length Nat.eqb vget nth
       fst snd flat_map app].
  reflexivity.
Qed.

Lemma fill_covariance_entry (M : Mat) (lo : nat) (cov : list R) i j :
  length cov = 36%nat -> (i < 6)%nat -> (j < 6)%nat ->
  vget (fill_covariance M lo cov) (6 * i + j) = mget M (i + lo) (j + lo).
Proof.
  intros H Hi Hj. rewrite fill_covariance_row_major by assumption.
  do 6 (destruct i as [|i];
        [do 6 (destruct j as [|j]; [reflexivity|]); lia|]).
  lia.
Qed.

Lemma length_fill_covariance (M : Mat) (lo : nat) (cov : list R) :
  length cov = 36%nat -> length (fill_covariance M lo cov) = 36%nat.
Proof. intros H. now rewrite fill_covariance_row_major. Qed.

(** X16.  The published covariance arrays are row-major copies of blocks of
    [P]: entry [6 i + j] of the pose covariance is [P(i, j)], entry
    [6 i + j] of the twist covariance is [P(6 + i, 6 + j)], and for the
    indirect lidar measurement it is [Pi(i, j)].  All 36 entries are
    rewritten, so nothing of the previous message remains in them. *)
Theorem published_covariance_layout
    (setRPY : R -> R -> R -> Quaternion) (prev : OdometryMsg) :
  length (msg_pose_covariance prev) = 36%nat ->
  length (msg_twist_covariance prev) = 36%nat ->
  (forall e i j, (i < 6)%nat -> (j < 6)%nat ->
      vget (msg_pose_covariance (odom_message setRPY prev e)) (6 * i + j)
      = mget (P e) i j
      /\ vget (msg_twist_covariance (odom_message setRPY prev e)) (6 * i + j)
         = mget (P e) (6 + i) (6 + j))
  /\ (forall y Pi i j, (i < 6)%nat -> (j < 6)%nat ->
         vget (msg_twist_covariance (indirect_message prev y Pi)) (6 * i + j)
         = mget Pi i j)
  /\ (forall e prev',
         length (msg_pose_covariance prev') = 36%nat ->
         length (msg_twist_covariance prev') = 36%nat ->
         odom_message setRPY prev' e = odom_message setRPY prev e).
Proof.
  intros Hp Ht. split; [|split].
  - intros e i j Hi Hj. unfold odom_message.
    cbn [msg_pose_covariance msg_twist_covariance].
    rewrite !fill_covariance_entry by assumption.
    now rewrite !Nat.add_0_r, (Nat.add_comm i 6), (Nat.add_comm j 6).
  - intros y Pi i j Hi Hj. unfold indirect_message.
    cbn [msg_twist_covariance].
    rewrite fill_covariance_entry by assumption.
    now rewrite !Nat.add_0_r.
  - intros e prev' Hp' Ht'. unfold odom_message.
    now rewrite !fill_covariance_row_major by assumption.
Qed.

Lemma published_covariance_layout_witness :
  vget (msg_twist_covariance
          (odom_message (fun _ _ _ => q_identity) blank_message
             {| X := vzero 12; P := P_init |})) (6 * 5 + 5)
  = mget (P {| X := vzero 12; P := P_init |}) (6 + 5) (6 + 5).
Proof.
  exact (proj2 (proj1 (published_covariance_layout
                         (fun _ _ _ => q_identity) blank_message
                         eq_refl eq_refl)
                  {| X := vzero 12; P := P_init |} 5%nat 5%nat
                  (Nat.lt_succ_diag_r 5) (Nat.lt_succ_diag_r 5))).
Defined.

(** ** Order of the stages in a pass *)

Lemma stages_of_app o1 o2 : stages_of (o1 ++ o2) = stages_of o1 ++ stages_of o2.
Proof.
  induction o1 as [|a o1 IH]; [reflexivity|].
  destruct a; cbn [app stages_of]; now rewrite IH.
Qed.

Section Order.
Variable cfg : Config.

Lemma stages_of_publish_if trigger model s :
  stages_of (publish_if cfg trigger model s) = [].
Proof.
  unfold publish_if, publish_odom. now destruct (String.eqb _ _).
Qed.

Lemma run_prediction_stages dt s :
  stages_of (snd (run_prediction cfg dt s))
  = if enableFilter cfg then [Prediction] else [].
Proof.
  unfold run_prediction. destruct (enableFilter cfg); [|reflexivity].
  cbn [prediction_stage snd app stages_of].
  now rewrite stages_of_publish_if.
Qed.

Lemma run_imu_stages s :
  stages_of (snd (run_imu cfg s)) = if imu_due cfg s then [CorrImu] else [].
Proof.
  unfold run_imu. fold (imu_due cfg s).
  destruct (imu_due cfg s); [|reflexivity].
  cbn [correction_imu_stage snd app stages_of].
  now rewrite stages_of_publish_if.
Qed.

Lemma run_wheel_stages s :
  stages_of (snd (run_wheel cfg s))
  = if wheel_due cfg s then [CorrWheel] else [].
Proof.
  unfold run_wheel. fold (wheel_due cfg s).
  destruct (wheel_due cfg s); [|reflexivity].
  cbn [correction_wheel_stage snd app stages_of].
  now rewrite stages_of_publish_if.
Qed.

Lemma run_lidar_stages s :
  stages_of (snd (run_lidar cfg s))
  = if lidar_due cfg s then [CorrLidar] else [].
Proof.
  unfold run_lidar. fold (lidar_due cfg s).
  destruct (lidar_due cfg s); [|reflexivity].
  cbn [correction_lidar_stage snd app stages_of
       publish_indirect_lidar_measurement].
  now rewrite stages_of_publish_if.
Qed.

Lemma run_iteration_stages dt s :
  stages_of (snd (run_iteration cfg dt s))
  = (if enableFilter cfg then [Prediction] else [])
    ++ (if imu_due cfg s then [CorrImu] else [])
    ++ (if wheel_due cfg s then [CorrWheel] else [])
    ++ (if lidar_due cfg s then [CorrLidar] else []).
Proof.
  unfold run_iteration.
  pose proof (run_prediction_stages dt s) as O1.
  pose proof (run_prediction_flags cfg dt s) as (I1 & W1 & L1).
  destruct (run_prediction cfg dt s) as [s1 o1].
  pose proof (run_imu_stages s1) as O2.
  pose proof (run_imu_due cfg s1) as (_ & W2 & L2).
  destruct (run_imu cfg s1) as [s2 o2].
  pose proof (run_wheel_stages s2) as O3.
  pose proof (run_wheel_due cfg s2) as (_ & _ & L3).
  destruct (run_wheel cfg s2) as [s3 o3].
  pose proof (run_lidar_stages s3) as O4.
  destruct (run_lidar cfg s3) as [s4 o4].
  cbn [fst snd] in *.
  rewrite !stages_of_app, O1, O2, O3, O4.
  rewrite (due_of_slots cfg s s1 I1).
  rewrite (wheel_due_of_slots cfg s1 s2 W2), (wheel_due_of_slots cfg s s1 W1).
  rewrite (lidar_due_of_slots cfg s2 s3 L3), (lidar_due_of_slots cfg s1 s2 L2),
    (lidar_due_of_slots cfg s s1 L1).
  reflexivity.
Qed.

End Order.

(** X17.  A pass of the loop calls the stages in one fixed order, each at
    most once: the prediction first (whenever the filter is enabled), then
    the IMU, the wheel and the lidar correction, each exactly when its guard
    held at the start of the pass. *)
Theorem stages_run_in_order (cfg : Config) (dt_now : R) (s : State) :
  stages_of (snd (run_iteration cfg dt_now s))
  = (if enableFilter cfg then [Prediction] else [])
    ++ (if imu_due cfg s then [CorrImu] else [])
    ++ (if wheel_due cfg s then [CorrWheel] else [])
    ++ (if lidar_due cfg s then [CorrLidar] else []).
Proof. apply run_iteration_stages. Qed.

(** ** The residual a correction leaves *)

Lemma length_mvmul (A : Mat) (v : Vec) : length (mvmul A v) = nrows A.
Proof. unfold mvmul. apply length_mk_vec. Qed.

Lemma length_vsub (u v : Vec) : length (vsub u v) = length u.
Proof. unfold vsub. apply length_mk_vec. Qed.

Lemma vget_mvmul n m (A : Mat) (v : Vec) i :
  wf_mat n m A -> (0 < n)%nat -> (i < n)%nat ->
  vget (mvmul A v) i = sum_n m (fun k => mget A i k * vget v k).
Proof.
  intros HA Hn Hi. unfold mvmul.
  rewrite (wf_nrows _ _ _ HA), (wf_ncols _ _ _ HA Hn).
  now rewrite vget_mk_vec.
Qed.

Lemma vget_vadd (u v : Vec) i :
  (i < length u)%nat -> vget (vadd u v) i = vget u i + vget v i.
Proof. intros Hi. unfold vadd. now rewrite vget_mk_vec. Qed.

Lemma vget_vsub (u v : Vec) i :
  (i < length u)%nat -> vget (vsub u v) i = vget u i - vget v i.
Proof. intros Hi. unfold vsub. now rewrite vget_mk_vec. Qed.

Lemma mvmul_vadd n m (A : Mat) (u v : Vec) :
  wf_mat n m A -> (0 < n)%nat -> length u = m ->
  mvmul A (vadd u v) = vadd (mvmul A u) (mvmul A v).
Proof.
  intros HA Hn Hu.
  apply (vec_ext _ _ n).
  - now rewrite length_mvmul, (wf_nrows _ _ _ HA).
  - now rewrite length_vadd, length_mvmul, (wf_nrows _ _ _ HA).
  - intros i Hi.
    rewrite vget_vadd by (now rewrite length_mvmul, (wf_nrows _ _ _ HA)).
    rewrite !(vget_mvmul n m) by assumption.
    rewrite <- sum_n_plus. apply sum_n_ext. intros k Hk.
    rewrite vget_vadd by lia. ring.
Qed.

Lemma mvmul_madd n m (A B : Mat) (v : Vec) :
  wf_mat n m A -> wf_mat n m B -> (0 < n)%nat ->
  mvmul (madd A B) v = vadd (mvmul A v) (mvmul B v).
Proof.
  intros HA HB Hn.
  pose proof (wf_madd n m A B HA Hn) as HS.
  apply (vec_ext _ _ n).
  - now rewrite length_mvmul, (wf_nrows _ _ _ HS).
  - now rewrite length_vadd, length_mvmul, (wf_nrows _ _ _ HA).
  - intros i Hi.
    rewrite vget_vadd by (now rewrite length_mvmul, (wf_nrows _ _ _ HA)).
    rewrite !(vget_mvmul n m) by assumption.
    rewrite <- sum_n_plus. apply sum_n_ext. intros k Hk.
    rewrite (mget_madd n m) by assumption. ring.
Qed.

Lemma mvmul_mmul n m p (A B : Mat) (v : Vec) :
  wf_mat n m A -> wf_mat m p B -> (0 < n)%nat -> (0 < m)%nat ->
  mvmul (mmul A B) v = mvmul A (mvmul B v).
Proof.
  intros HA HB Hn Hm.
  pose proof (wf_mmul n m p A B HA HB Hm) as HAB.
  apply (vec_ext _ _ n).
  - now rewrite length_mvmul, (wf_nrows _ _ _ HAB).
  - now rewrite length_mvmul, (wf_nrows _ _ _ HA).
  - intros i Hi.
    rewrite (vget_mvmul n p), (vget_mvmul n m) by assumption.
    rewrite (sum_n_ext p _
               (fun k => sum_n m (fun l => mget A i l * mget B l k * vget v k))).
    2:{ intros k Hk. rewrite (mget_mmul n m p) by assumption.
        now rewrite sum_n_scal_r. }
    rewrite sum_n_swap. apply sum_n_ext. intros l Hl.
    rewrite (vget_mvmul m p) by assumption.
    rewrite <- sum_n_scal_l. apply sum_n_ext. intros k Hk. ring.
Qed.

Lemma mvmul_identity n (v : Vec) :
  (0 < n)%nat -> length v = n -> mvmul (identity n) v = v.
Proof.
  intros Hn Hv.
  apply (vec_ext _ _ n); [|assumption|].
  - now rewrite length_mvmul, (wf_nrows _ _ _ (wf_identity n)).
  - intros i Hi.
    rewrite (vget_mvmul n n) by (try apply wf_identity; assumption).
    unfold identity.
    rewrite (sum_n_ext n _
               (fun k => (if Nat.eqb i k then 1 else 0) * vget v k)).
    + now apply (sum_n_delta_l n i (vget v)).
    + intros k Hk. now rewrite mget_mk_mat.
Qed.

(** The measurement update shared by the corrections: what is left of the
    innovation afterwards is the innovation passed through [E S^-1]. *)
Lemma kalman_residual m (x y hx : Vec) (P0 H E Si : Mat) :
  (0 < m)%nat ->
  length x = 12%nat -> length y = m ->
  wf_mat 12 12 P0 -> wf_mat m 12 H -> wf_mat m m E ->
  mvmul H x = hx ->
  is_inverse m (innovation_cov H P0 E) Si ->
  vsub y (mvmul H (vadd x (mvmul (mmul (mmul P0 (transpose H)) Si)
                                 (vsub y hx))))
  = mvmul (mmul E Si) (vsub y hx).
Proof.
  intros Hm Hx Hy WP WH WE Hhx (WSi & HS & _).
  unfold innovation_cov in HS.
  assert (H12 : (0 < 12)%nat) by lia.
  pose proof (wf_transpose m 12 H WH Hm) as WHt.
  pose proof (wf_mmul m 12 12 H P0 WH WP H12) as WHP.
  pose proof (wf_mmul m 12 m _ _ WHP WHt H12) as WA.
  pose proof (wf_mmul 12 12 m P0 _ WP WHt H12) as WB.
  pose proof (wf_mmul 12 m m _ Si WB WSi Hm) as WK.
  set (r := vsub y hx) in *.
  assert (Hr : length r = m) by (unfold r; now rewrite length_vsub).
  set (w := mvmul Si r).
  assert (Hw : length w = m)
    by (unfold w; now rewrite length_mvmul, (wf_nrows _ _ _ WSi)).
  set (A := mmul (mmul H P0) (transpose H)) in *.
  assert (HK : mvmul H (mvmul (mmul (mmul P0 (transpose H)) Si) r)
               = mvmul A w).
  { rewrite <- (mvmul_mmul m 12 m) by assumption.
    rewrite <- (mmul_assoc m 12 m m) by assumption.
    rewrite <- (mmul_assoc m 12 12 m) by assumption.
    fold A. now apply (mvmul_mmul m m m). }
  assert (HSw : vadd (mvmul A w) (mvmul E w) = r).
  { rewrite <- (mvmul_madd m m) by assumption.
    unfold w.
    rewrite <- (mvmul_mmul m m m); try assumption.
    - rewrite HS. now apply mvmul_identity.
    - now apply wf_madd. }
  rewrite (mvmul_vadd m 12) by assumption.
  rewrite Hhx, HK.
  rewrite (mvmul_mmul m m m) by assumption. fold w.
  assert (LA : length (mvmul A w) = m)
    by now rewrite length_mvmul, (wf_nrows _ _ _ WA).
  assert (LE : length (mvmul E w) = m)
    by now rewrite length_mvmul, (wf_nrows _ _ _ WE).
  assert (Lhx : length hx = m)
    by now rewrite <- Hhx, length_mvmul, (wf_nrows _ _ _ WH).
  apply (vec_ext _ _ m); [now rewrite length_vsub|exact LE|].
  intros i Hi.
  assert (Ei : vget (mvmul A w) i + vget (mvmul E w) i = vget r i).
  { rewrite <- vget_vadd by lia. now rewrite HSw. }
  unfold r in Ei. rewrite vget_vsub in Ei by lia.
  rewrite vget_vsub, vget_vadd by lia. lra.
Qed.

Lemma wheel_measurement_model (x : Vec) :
  length x = 12%nat ->
  mvmul H_wheel x = vset (vset (vzero N_WHEEL) 0 (vget x 6)) 1 (vget x 11).
Proof.
  intros Hx. explode_vec x Hx. eigen_unfold. repeat (f_equal; try ring).
Qed.

Lemma imu_measurement_model (x : Vec) :
  length x = 12%nat -> mvmul H_imu x = vblock x 3 3.
Proof.
  intros Hx. explode_vec x Hx. eigen_unfold. repeat (f_equal; try ring).
Qed.

Lemma lidar_measurement_model (x : Vec) :
  length x = 12%nat -> mvmul H_lidar x = vblock x 6 6.
Proof.
  intros Hx. explode_vec x Hx. eigen_unfold. repeat (f_equal; try ring).
Qed.

Lemma wf_H_wheel : wf_mat 2 12 H_wheel.
Proof. unfold H_wheel. repeat apply wf_mset; try lia. apply wf_mzero. Qed.

Lemma wf_H_imu : wf_mat 3 12 H_imu.
Proof. unfold H_imu. apply wf_mset_block; [apply wf_mzero|lia]. Qed.

(** X18.  After a wheel or an IMU correction the residual between the
    measurement and the corrected estimate is the innovation multiplied by
    [E S^-1]; in particular a measurement with zero covariance is
    reproduced exactly by the corrected state. *)
Theorem residual_after_correction (dt : R) (s : State) (e : Estimate) :
  est (kf s) = Some e ->
  length (X e) = 12%nat -> wf_mat 12 12 (P e) ->
  (forall Si,
      length (wheelMeasure (wheel s)) = 2%nat ->
      wf_mat 2 2 (E_wheel (wheel s)) ->
      inverse (innovation_cov H_wheel (P e) (E_wheel (wheel s))) = Some Si ->
      exists e',
        est (kf (fst (correction_wheel_stage dt s))) = Some e'
        /\ vsub (wheelMeasure (wheel s)) [vget (X e') 6; vget (X e') 11]
           = mvmul (mmul (E_wheel (wheel s)) Si)
                   (vsub (wheelMeasure (wheel s)) [vget (X e) 6; vget (X e) 11])
        /\ (E_wheel (wheel s) = mzero 2 2 ->
            [vget (X e') 6; vget (X e') 11] = wheelMeasure (wheel s)))
  /\ (forall Si,
         inverse (innovation_cov H_imu (P e) (mblock (E_imu (imu s)) 6 6 3 3))
         = Some Si ->
         exists e',
           est (kf (fst (correction_imu_stage dt s))) = Some e'
           /\ vsub (vblock (imuMeasure (imu s)) 6 3) (vblock (X e') 3 3)
              = mvmul (mmul (mblock (E_imu (imu s)) 6 6 3 3) Si)
                      (vsub (vblock (imuMeasure (imu s)) 6 3)
                            (vblock (X e) 3 3))).
Proof.
  intros He Hx WP. split.
  - intros Si HY WE HSi.
    pose proof (inverse_Some _ _ HSi) as HI.
    rewrite nrows_innovation_cov, (wf_nrows _ _ _ wf_H_wheel) in HI.
    pose proof (kalman_residual 2 (X e) (wheelMeasure (wheel s)) _ (P e)
                  H_wheel (E_wheel (wheel s)) Si ltac:(lia) Hx HY WP
                  wf_H_wheel WE (wheel_measurement_model (X e) Hx) HI) as HR.
    unfold correction_wheel_stage. cbn [fst with_est kf est].
    rewrite He. cbn [bind].
    change (madd (mmul (mmul (mset (mset (mzero N_WHEEL N_STATES) 0 6 1)
                                  1 11 1) (P e))
                       (transpose (mset (mset (mzero N_WHEEL N_STATES) 0 6 1)
                                        1 11 1)))
                 (E_wheel (wheel s)))
      with (innovation_cov H_wheel (P e) (E_wheel (wheel s))).
    rewrite HSi. cbn [bind]. eexists. split; [reflexivity|]. cbn [X].
    fold H_wheel.
    set (x' := vadd (X e) _) in *.
    assert (Hx' : length x' = 12%nat)
      by (unfold x'; now rewrite length_vadd).
    rewrite (wheel_measurement_model x' Hx') in HR.
    assert (E1 : forall x : Vec,
               vset (vset (vzero N_WHEEL) 0 (vget x 6)) 1 (vget x 11)
               = [vget x 6; vget x 11]) by reflexivity.
    rewrite !E1 in HR. split; [exact HR|].
    intros HE0. rewrite HE0 in HR.
    assert (Z : mvmul (mmul (mzero 2 2) Si)
                      (vsub (wheelMeasure (wheel s))
                            [vget (X e) 6; vget (X e) 11])
                = vzero 2).
    { pose proof (proj1 HI) as WSi.
      rewrite (mmul_zero_l 2 2 2) by (try assumption; lia).
      apply (vec_ext _ _ 2);
        [now rewrite length_mvmul, (wf_nrows _ _ _ (wf_mzero 2 2))
        |reflexivity|].
      intros i Hi.
      rewrite (vget_mvmul 2 2) by (try apply wf_mzero; lia).
      unfold vzero, mzero. rewrite vget_mk_vec by assumption.
      apply sum_n_zero. intros k Hk. rewrite mget_mk_mat by assumption. ring. }
    rewrite Z in HR.
    apply (vec_ext _ _ 2); [reflexivity|assumption|].
    intros i Hi.
    assert (Ei : vget (vsub (wheelMeasure (wheel s))
                            [vget x' 6; vget x' 11]) i = vget (vzero 2) i)
      by now rewrite HR.
    rewrite vget_vsub in Ei by lia.
    unfold vzero in Ei. rewrite vget_mk_vec in Ei by assumption. lra.
  - intros Si HSi.
    pose proof (inverse_Some _ _ HSi) as HI.
    rewrite nrows_innovation_cov, (wf_nrows _ _ _ wf_H_imu) in HI.
    pose proof (kalman_residual 3 (X e) (vblock (imuMeasure (imu s)) 6 3) _
                  (P e) H_imu (mblock (E_imu (imu s)) 6 6 3 3) Si
                  ltac:(lia) Hx (length_vblock _ _ _) WP wf_H_imu
                  (wf_mk_mat 3 3 _) (imu_measurement_model (X e) Hx) HI)
      as HR.
    unfold correction_imu_stage. cbn [fst with_est kf est].
    rewrite He. cbn [bind].
    change (madd (mmul (mmul (mset_block (mzero 3 N_STATES) 0 3 3 3
                                         (identity 3)) (P e))
                       (transpose (mset_block (mzero 3 N_STATES) 0 3 3 3
                                              (identity 3))))
                 (mblock (E_imu (imu s)) 6 6 3 3))
      with (innovation_cov H_imu (P e) (mblock (E_imu (imu s)) 6 6 3 3)).
    rewrite HSi. cbn [bind]. eexists. split; [reflexivity|]. cbn [X].
    fold H_imu.
    set (x' := vadd (X e) _) in *.
    assert (Hx' : length x' = 12%nat)
      by (unfold x'; now rewrite length_vadd).
    now rewrite (imu_measurement_model x' Hx') in HR.
Qed.

Lemma wheel_inverse_at_init :
  inverse (innovation_cov H_wheel P_init (mzero 2 2))
  = Some [[10; 0]; [0; 10]].
Proof.
  apply (inverse_unique 2); [|lia|exact wheel_innovation_at_init].
  unfold innovation_cov. apply wf_madd; [|lia].
  apply (wf_mmul 2 12 2); try lia.
  - apply (wf_mmul 2 12 12); [exact wf_H_wheel|exact wf_P_init|lia].
  - apply wf_transpose; [exact wf_H_wheel|lia].
Qed.

Lemma residual_after_correction_witness :
  exists e',
    est (kf (fst (correction_wheel_stage 0.05 (initialization 0)))) = Some e'
    /\ vsub (wheelMeasure (wheel (initialization 0)))
            [vget (X e') 6; vget (X e') 11]
       = mvmul (mmul (E_wheel (wheel (initialization 0))) [[10; 0]; [0; 10]])
               (vsub (wheelMeasure (wheel (initialization 0)))
                     [vget (X {| X := vzero 12; P := P_init |}) 6;
                      vget (X {| X := vzero 12; P := P_init |}) 11])
    /\ (E_wheel (wheel (initialization 0)) = mzero 2 2 ->
        [vget (X e') 6; vget (X e') 11]
        = wheelMeasure (wheel (initialization 0))).
Proof.
  exact (proj1 (residual_after_correction 0.05 (initialization 0)
                  {| X := vzero 12; P := P_init |}
                  eq_refl eq_refl wf_P_init)
           [[10; 0]; [0; 10]] eq_refl (wf_mzero 2 2) wheel_inverse_at_init).
Defined.

(* ================================================================== *)
(** * Part IV: a message and the pass that follows it *)
(* ================================================================== *)

(** ** The lidar block of a pass *)

Lemma correction_lidar_output dt s :
  snd (correction_lidar_stage dt s)
  = [PublishIndirect
       (indirect_lidar_measurement (lidarMeasure (lidar s))
                                   (lidarMeasureL (kf s)) dt)
       (lidar_Q s dt)].
Proof. reflexivity. Qed.

Lemma lidar_Q_of_slots s s' dt :
  lidar s' = lidar s -> retained s' = retained s ->
  lidar_Q s' dt = lidar_Q s dt.
Proof.
  unfold retained, lidar_Q. intros HL HR.
  injection HR as HR1 HR2. now rewrite HL, HR1, HR2.
Qed.

Section Pass.
Variable getRPY : Quaternion -> R * R * R.
Variable cfg : Config.

(** When the lidar correction is due, a pass runs it on a state that has
    the lidar slot and the retained scan of the start of the pass. *)
Lemma lidar_block_of_pass dt_now s :
  lidar_due cfg s = true ->
  exists s3 o,
    lidar s3 = lidar s /\ retained s3 = retained s
    /\ run_iteration cfg dt_now s
       = (clear_lidarNew (fst (correction_lidar_stage (lidar_dt (lidar s)) s3)),
          o ++ Invoke CorrLidar (lidar_dt (lidar s))
               :: snd (correction_lidar_stage (lidar_dt (lidar s)) s3)
               ++ publish_if cfg "l" "l"
                    (fst (correction_lidar_stage (lidar_dt (lidar s)) s3))).
Proof.
  intros Hdue. unfold run_iteration.
  pose proof (run_prediction_flags cfg dt_now s) as (_ & _ & L1).
  pose proof (run_prediction_retained cfg dt_now s) as R1.
  destruct (run_prediction cfg dt_now s) as [s1 o1].
  pose proof (run_imu_due cfg s1) as (_ & _ & L2).
  pose proof (run_imu_retained cfg s1) as R2.
  destruct (run_imu cfg s1) as [s2 o2].
  pose proof (run_wheel_due cfg s2) as (_ & _ & L3).
  pose proof (run_wheel_retained cfg s2) as R3.
  destruct (run_wheel cfg s2) as [s3 o3].
  cbn [fst] in *.
  assert (HL : lidar s3 = lidar s) by congruence.
  assert (HR : retained s3 = retained s) by congruence.
  exists s3, (o1 ++ o2 ++ o3). split; [exact HL|]. split; [exact HR|].
  unfold run_lidar. fold (lidar_due cfg s3).
  rewrite (lidar_due_of_slots cfg s s3 HL), Hdue, HL.
  destruct (correction_lidar_stage (lidar_dt (lidar s)) s3) as [s4 o4].
  cbn [fst snd]. now rewrite <- !app_assoc.
Qed.

Lemma lidar_pass_publishes dt_now s :
  lidar_due cfg s = true ->
  In (Invoke CorrLidar (lidar_dt (lidar s))) (snd (run_iteration cfg dt_now s))
  /\ In (PublishIndirect
           (indirect_lidar_measurement (lidarMeasure (lidar s))
                                       (lidarMeasureL (kf s))
                                       (lidar_dt (lidar s)))
           (lidar_Q s (lidar_dt (lidar s))))
        (snd (run_iteration cfg dt_now s))
  /\ retained (fst (run_iteration cfg dt_now s)) = scan s
  /\ lidar_due cfg (fst (run_iteration cfg dt_now s)) = false.
Proof.
  intros Hdue.
  destruct (lidar_block_of_pass dt_now s Hdue) as (s3 & o & HL & HR & ->).
  cbn [fst snd]. rewrite correction_lidar_output.
  rewrite (lidar_Q_of_slots s s3 _ HL HR), HL.
  assert (HRl : lidarMeasureL (kf s3) = lidarMeasureL (kf s)).
  { unfold retained in HR. now injection HR. }
  rewrite HRl.
  split; [apply in_or_app; right; now left|].
  split; [apply in_or_app; right; right; now left|].
  split.
  - unfold retained, scan, clear_lidarNew, correction_lidar_stage.
    cbn [fst kf lidar lidarMeasureL E_lidarL]. now rewrite HL.
  - unfold lidar_due, clear_lidarNew. cbn [lidar lidarNew].
    apply andb_false_r.
Qed.

(** What the three callbacks leave for the pass that follows. *)
Lemma laserOdometryHandler_slots m s :
  length (lidarMeasure (lidar s)) = 6%nat ->
  lidarMeasure (lidar (laserOdometryHandler getRPY cfg m s))
  = message_pose getRPY m
  /\ lidar_dt (lidar (laserOdometryHandler getRPY cfg m s)) = 0.1
  /\ retained (laserOdometryHandler getRPY cfg m s) = retained s
  /\ E_lidar (lidar (laserOdometryHandler getRPY cfg m s))
     = adaptive_covariance cfg (fst (fst (twist_linear m)))
                               (fst (fst (twist_angular m))).
Proof.
  intros Hu. unfold laserOdometryHandler, message_pose.
  destruct (pose_position m) as [[px py] pz].
  destruct (getRPY (pose_orientation m)) as [[r p] y].
  remember (lidarMeasure (lidar s)) as v eqn:Ev. clear Ev.
  destruct (lidarActivated (lidar s));
    cbn [lidar lidarMeasure lidar_dt E_lidar kf]; (split; [|now repeat split]);
    explode_vec v Hu; reflexivity.
Qed.

End Pass.

(** ** The elapsed time a correction is given *)

Section PassDt.
Variable getRPY : Quaternion -> R * R * R.
Variable cfg : Config.

Lemma imu_pass_dt m s dt_now :
  enableFilter cfg = true -> enableImu cfg = true ->
  In (Invoke CorrImu 0.01)
     (snd (run_iteration cfg dt_now (imuHandler getRPY cfg m s))).
Proof.
  intros HF HE.
  destruct (run_iteration_fires cfg dt_now (imuHandler getRPY cfg m s))
    as (H & _ & _).
  rewrite (proj1 (handlers_dt getRPY cfg s) m) in H. apply H.
  now rewrite handlers_set_due, HF, HE.
Qed.

Lemma wheel_pass_dt m s dt_now :
  enableFilter cfg = true -> enableWheel cfg = true ->
  In (Invoke CorrWheel 0.05)
     (snd (run_iteration cfg dt_now (wheelOdometryHandler cfg m s))).
Proof.
  intros HF HE.
  destruct (run_iteration_fires cfg dt_now (wheelOdometryHandler cfg m s))
    as (_ & H & _).
  rewrite (proj1 (proj2 (handlers_dt getRPY cfg s)) m) in H. apply H.
  now rewrite wheel_handler_sets_due, HF, HE.
Qed.

Lemma lidar_pass_dt m s dt_now :
  enableFilter cfg = true -> enableLidar cfg = true ->
  let s1 := laserOdometryHandler getRPY cfg m s in
  In (Invoke CorrLidar 0.1) (snd (run_iteration cfg dt_now s1))
  /\ In (PublishIndirect
           (indirect_lidar_measurement (lidarMeasure (lidar s1))
                                       (lidarMeasureL (kf s)) 0.1)
           (lidar_Q s1 0.1))
        (snd (run_iteration cfg dt_now s1))
  /\ (length (lidarMeasure (lidar s)) = 6%nat ->
      length (lidarMeasureL (kf s)) = 6%nat ->
      cos (vget (lidarMeasureL (kf s)) 4) <> 0 ->
      lidarMeasure (lidar s1) = message_pose getRPY m
      /\ indirect_lidar_measurement (lidarMeasure (lidar s1))
                                    (lidarMeasureL (kf s)) 0.1
         = Some (indirect_spec (message_pose getRPY m)
                               (lidarMeasureL (kf s)) 0.1)).
Proof.
  intros HF HE s1.
  assert (Hdue : lidar_due cfg s1 = true)
    by (unfold s1; now rewrite laser_handler_sets_due, HF, HE).
  assert (Hdt : lidar_dt (lidar s1) = 0.1)
    by (apply (handlers_dt getRPY cfg s)).
  assert (HL : lidarMeasureL (kf s1) = lidarMeasureL (kf s)).
  { unfold s1, laserOdometryHandler.
    now destruct (lidarActivated (lidar s)). }
  destruct (lidar_pass_publishes cfg dt_now s1 Hdue) as (H1 & H2 & _).
  rewrite Hdt in H1, H2. rewrite HL in H2.
  split; [exact H1|]. split; [exact H2|].
  intros Hu Hul Hc.
  destruct (laserOdometryHandler_slots getRPY cfg m s Hu) as (Hpose & _).
  fold s1 in Hpose. split; [exact Hpose|]. rewrite Hpose.
  apply indirect_lidar_measurement_defined; try assumption; [|lra].
  unfold message_pose.
  destruct (pose_position m) as [[px py] pz].
  now destruct (getRPY (pose_orientation m)) as [[r p] y].
Qed.

End PassDt.

(** C9.  Whatever messages arrive and whenever the loop runs, the inertial
    correction is called with 0.01, the wheel correction with 0.05 and the
    lidar correction with 0.1: each callback stores the constant in place of
    the difference of the time stamps, whatever the stamps are.  The
    constants are really used: the pass that follows a message calls the
    correction of its sensor (when enabled) with the constant, and the twist
    the lidar correction derives is the pose difference over 0.1. *)
Theorem corrections_get_fixed_dt
    (getRPY : Quaternion -> R * R * R) (cfg : Config) :
  (forall imu_dt0 evs,
      Forall fixed_dt (snd (exec getRPY cfg evs (initialization imu_dt0))))
  /\ (forall s m, imu_dt (imu (imuHandler getRPY cfg m s)) = 0.01)
  /\ (forall s m, wheel_dt (wheel (wheelOdometryHandler cfg m s)) = 0.05)
  /\ (forall s m, lidar_dt (lidar (laserOdometryHandler getRPY cfg m s)) = 0.1)
  /\ (enableFilter cfg = true -> enableImu cfg = true ->
      forall s m dt_now,
        In (Invoke CorrImu 0.01)
           (snd (run_iteration cfg dt_now (imuHandler getRPY cfg m s))))
  /\ (enableFilter cfg = true -> enableWheel cfg = true ->
      forall s m dt_now,
        In (Invoke CorrWheel 0.05)
           (snd (run_iteration cfg dt_now (wheelOdometryHandler cfg m s))))
  /\ (enableFilter cfg = true -> enableLidar cfg = true ->
      forall s m dt_now,
        let s1 := laserOdometryHandler getRPY cfg m s in
        In (Invoke CorrLidar 0.1) (snd (run_iteration cfg dt_now s1))
        /\ In (PublishIndirect
                 (indirect_lidar_measurement (lidarMeasure (lidar s1))
                                             (lidarMeasureL (kf s)) 0.1)
                 (lidar_Q s1 0.1))
              (snd (run_iteration cfg dt_now s1))
        /\ (length (lidarMeasure (lidar s)) = 6%nat ->
            length (lidarMeasureL (kf s)) = 6%nat ->
            cos (vget (lidarMeasureL (kf s)) 4) <> 0 ->
            lidarMeasure (lidar s1) = message_pose getRPY m
            /\ indirect_lidar_measurement (lidarMeasure (lidar s1))
                                          (lidarMeasureL (kf s)) 0.1
               = Some (indirect_spec (message_pose getRPY m)
                                     (lidarMeasureL (kf s)) 0.1))).
Proof.
  split.
  { intros imu_dt0 evs. apply (exec_dt getRPY cfg evs). apply dt_inv_init. }
  split; [intros s m; apply (handlers_dt getRPY cfg s)|].
  split; [intros s m; apply (handlers_dt getRPY cfg s)|].
  split; [intros s m; apply (handlers_dt getRPY cfg s)|].
  split; [intros HF HE s m dt_now; now apply imu_pass_dt|].
  split; [intros HF HE s m dt_now; now apply (wheel_pass_dt getRPY)|].
  intros HF HE s m dt_now. now apply lidar_pass_dt.
Qed.

Lemma corrections_get_fixed_dt_witness :
  let s1 := laserOdometryHandler rpy_zero default_config laser_msg_first
              (initialization 0) in
  In (Invoke CorrLidar 0.1) (snd (run_iteration default_config 0.02 s1))
  /\ In (PublishIndirect
           (indirect_lidar_measurement (lidarMeasure (lidar s1))
              (lidarMeasureL (kf (initialization 0))) 0.1)
           (lidar_Q s1 0.1))
        (snd (run_iteration default_config 0.02 s1))
  /\ (length (lidarMeasure (lidar (initialization 0))) = 6%nat ->
      length (lidarMeasureL (kf (initialization 0))) = 6%nat ->
      cos (vget (lidarMeasureL (kf (initialization 0))) 4) <> 0 ->
      lidarMeasure (lidar s1) = message_pose rpy_zero laser_msg_first
      /\ indirect_lidar_measurement (lidarMeasure (lidar s1))
           (lidarMeasureL (kf (initialization 0))) 0.1
         = Some (indirect_spec (message_pose rpy_zero laser_msg_first)
                   (lidarMeasureL (kf (initialization 0))) 0.1)).
Proof.
  exact (proj2 (proj2 (proj2 (proj2 (proj2 (proj2
           (corrections_get_fixed_dt rpy_zero default_config))))))
           eq_refl eq_refl (initialization 0) laser_msg_first 0.02).
Defined.

(** ** The first scan of a run, and a scan that repeats *)

Section FirstScan.
Variable getRPY : Quaternion -> R * R * R.
Variable cfg : Config.

Lemma exec_sizes evs : forall s,
  sizes_ok s -> sizes_ok (fst (exec getRPY cfg evs s)).
Proof.
  induction evs as [|ev rest IH]; intros s H; [exact H|].
  cbn [exec].
  pose proof (step_sizes getRPY cfg ev s H) as H1.
  destruct (step getRPY cfg s ev) as [s1 o1]. cbn [fst] in H1.
  pose proof (IH s1 H1) as H2.
  now destruct (exec getRPY cfg rest s1) as [s2 o2].
Qed.

Lemma length_message_pose m : length (message_pose getRPY m) = 6%nat.
Proof.
  unfold message_pose.
  destruct (pose_position m) as [[px py] pz].
  now destruct (getRPY (pose_orientation m)) as [[r p] y].
Qed.

Lemma first_scan_of_run imu_dt0 evs m dt_now :
  enableFilter cfg = true -> enableLidar cfg = true ->
  (forall dt, ~ In (Invoke CorrLidar dt)
                   (snd (exec getRPY cfg evs (initialization imu_dt0)))) ->
  let s := fst (exec getRPY cfg evs (initialization imu_dt0)) in
  let s1 := laserOdometryHandler getRPY cfg m s in
  let u := message_pose getRPY m in
  lidarMeasure (lidar s1) = u
  /\ exists G,
       jacobian_lidar_measurement u (vzero 6) 0.1 = Some G
       /\ In (PublishIndirect
                (Some (vdiv_const (pose_diff u (vzero 6)) 0.1))
                (Some (mmul (mmul G (E_lidar (lidar s1))) (transpose G))))
             (snd (run_iteration cfg dt_now s1))
       /\ retained (fst (run_iteration cfg dt_now s1))
          = (u, E_lidar (lidar s1)).
Proof.
  intros HF HE Hno s s1 u.
  assert (Z : sizes_ok s)
    by (apply exec_sizes; apply sizes_ok_init).
  assert (Hu : length (lidarMeasure (lidar s)) = 6%nat) by apply Z.
  assert (HR : retained s = (vzero 6, mzero 6 6)).
  { unfold s. now rewrite (exec_retained getRPY cfg evs _ Hno). }
  destruct (laserOdometryHandler_slots getRPY cfg m s Hu)
    as (Hpose & Hdt & HR1 & _).
  fold s1 in Hpose, Hdt, HR1. fold u in Hpose.
  rewrite HR in HR1. unfold retained in HR1. injection HR1 as HL HEL.
  assert (Hdue : lidar_due cfg s1 = true)
    by (unfold s1; now rewrite laser_handler_sets_due, HF, HE).
  split; [exact Hpose|].
  assert (Hu1 : length (lidarMeasure (lidar s1)) = 6%nat)
    by (rewrite Hpose; apply length_message_pose).
  destruct (first_lidar_correction_output s1 0.1 tenth_neq_0 Hu1 HL HEL)
    as (G & HG & Hout).
  rewrite correction_lidar_output, HL in Hout.
  injection Hout as HY HQ.
  destruct (lidar_pass_publishes cfg dt_now s1 Hdue) as (_ & Hin & Hret & _).
  rewrite Hdt, HL, HY, HQ in Hin. rewrite Hpose in HG, Hin.
  exists G. split; [exact HG|]. split; [exact Hin|].
  rewrite Hret. unfold scan. now rewrite Hpose.
Qed.

Lemma repeated_scan_pass s m m' dt1 dt2 :
  enableFilter cfg = true -> enableLidar cfg = true ->
  length (lidarMeasure (lidar s)) = 6%nat ->
  message_pose getRPY m' = message_pose getRPY m ->
  cos (vget (message_pose getRPY m) 4) <> 0 ->
  let s1 := fst (run_iteration cfg dt1 (laserOdometryHandler getRPY cfg m s)) in
  lidarMeasureL (kf s1) = message_pose getRPY m
  /\ exists Q,
       In (PublishIndirect (Some (vzero 6)) Q)
          (snd (run_iteration cfg dt2 (laserOdometryHandler getRPY cfg m' s1))).
Proof.
  intros HF HE Hu Hsame Hc s1.
  set (s0 := laserOdometryHandler getRPY cfg m s) in *.
  assert (Hdue0 : lidar_due cfg s0 = true)
    by (unfold s0; now rewrite laser_handler_sets_due, HF, HE).
  destruct (laserOdometryHandler_slots getRPY cfg m s Hu) as (Hpose0 & _).
  fold s0 in Hpose0.
  destruct (lidar_pass_publishes cfg dt1 s0 Hdue0) as (_ & _ & Hret & _).
  fold s1 in Hret.
  assert (HL1 : lidarMeasureL (kf s1) = message_pose getRPY m).
  { unfold retained, scan in Hret. injection Hret as HL _.
    now rewrite HL, Hpose0. }
  split; [exact HL1|].
  assert (Hu1 : length (lidarMeasure (lidar s1)) = 6%nat).
  { pose proof (run_iteration_frame cfg dt1 s0) as HFr. fold s1 in HFr.
    unfold frame in HFr.
    assert (E : lidarMeasure (lidar s1) = lidarMeasure (lidar s0))
      by congruence.
    rewrite E, Hpose0. apply length_message_pose. }
  set (s2 := laserOdometryHandler getRPY cfg m' s1).
  assert (Hdue2 : lidar_due cfg s2 = true)
    by (unfold s2; now rewrite laser_handler_sets_due, HF, HE).
  destruct (laserOdometryHandler_slots getRPY cfg m' s1 Hu1)
    as (Hpose2 & Hdt2 & HR2 & _).
  fold s2 in Hpose2, Hdt2, HR2.
  assert (HL2 : lidarMeasureL (kf s2) = message_pose getRPY m).
  { unfold retained in HR2. injection HR2 as HL _. now rewrite HL. }
  destruct (lidar_pass_publishes cfg dt2 s2 Hdue2) as (_ & Hin & _).
  rewrite Hdt2, HL2, Hpose2, Hsame in Hin.
  rewrite indirect_same_pose_zero in Hin;
    [|apply length_message_pose|exact Hc|lra].
  eexists. exact Hin.
Qed.

End FirstScan.

(** C10.  After construction the retained previous lidar pose is the zero
    6-vector and its covariance the 6x6 zero matrix, and they stay so until
    a lidar correction has run.  A lidar correction that finds them so
    derives (and publishes) the twist from the difference between the
    current lidar pose and the origin, with covariance [G R_cur G^T] alone;
    so does the first lidar correction of a run, in the pass that follows
    the first lidar message.  A lidar correction replaces the retained pose
    and covariance by the current scan's; nothing else changes them. *)
Theorem retained_lidar_pose
    (getRPY : Quaternion -> R * R * R) (cfg : Config) :
  (forall imu_dt0,
      lidarMeasureL (kf (initialization imu_dt0)) = vzero 6
      /\ E_lidarL (kf (initialization imu_dt0)) = mzero 6 6)
  /\ (forall imu_dt0 evs,
         (forall dt, ~ In (Invoke CorrLidar dt)
                          (snd (exec getRPY cfg evs (initialization imu_dt0)))) ->
         retained (fst (exec getRPY cfg evs (initialization imu_dt0)))
         = (vzero 6, mzero 6 6))
  /\ (forall s dt,
         dt <> 0 ->
         length (lidarMeasure (lidar s)) = 6%nat ->
         lidarMeasureL (kf s) = vzero 6 ->
         E_lidarL (kf s) = mzero 6 6 ->
         exists G,
           jacobian_lidar_measurement (lidarMeasure (lidar s)) (vzero 6) dt
           = Some G
           /\ snd (correction_lidar_stage dt s)
              = [PublishIndirect
                   (Some (vdiv_const
                            (pose_diff (lidarMeasure (lidar s)) (vzero 6)) dt))
                   (Some (mmul (mmul G (E_lidar (lidar s))) (transpose G)))])
  /\ (forall s dt, retained (fst (correction_lidar_stage dt s)) = scan s)
  /\ (forall s ev,
         retained (fst (step getRPY cfg s ev)) = retained s
         \/ (retained (fst (step getRPY cfg s ev)) = scan s
             /\ exists dt, In (Invoke CorrLidar dt)
                              (snd (step getRPY cfg s ev))))
  /\ (enableFilter cfg = true -> enableLidar cfg = true ->
      forall imu_dt0 evs m dt_now,
        (forall dt, ~ In (Invoke CorrLidar dt)
                         (snd (exec getRPY cfg evs (initialization imu_dt0)))) ->
        let s := fst (exec getRPY cfg evs (initialization imu_dt0)) in
        let s1 := laserOdometryHandler getRPY cfg m s in
        let u := message_pose getRPY m in
        lidarMeasure (lidar s1) = u
        /\ exists G,
             jacobian_lidar_measurement u (vzero 6) 0.1 = Some G
             /\ In (PublishIndirect
                      (Some (vdiv_const (pose_diff u (vzero 6)) 0.1))
                      (Some (mmul (mmul G (E_lidar (lidar s1)))
                                  (transpose G))))
                   (snd (run_iteration cfg dt_now s1))
             /\ retained (fst (run_iteration cfg dt_now s1))
                = (u, E_lidar (lidar s1))).
Proof.
  split; [|split; [|split; [|split; [|split]]]].
  - intros imu_dt0. split; reflexivity.
  - intros imu_dt0 evs Hno.
    now rewrite (exec_retained getRPY cfg evs _ Hno).
  - intros s dt. apply first_lidar_correction_output.
  - intros s dt. reflexivity.
  - apply step_retained.
  - intros HF HE imu_dt0 evs m dt_now Hno.
    now apply first_scan_of_run.
Qed.

Lemma no_lidar_correction_yet :
  forall dt, ~ In (Invoke CorrLidar dt)
                  (snd (exec rpy_zero default_config
                          [WheelIn wheel_msg_unit_cov] (initialization 0))).
Proof. intros dt H. exact H. Qed.

Lemma retained_lidar_pose_witness :
  let s := fst (exec rpy_zero default_config [WheelIn wheel_msg_unit_cov]
                  (initialization 0)) in
  let s1 := laserOdometryHandler rpy_zero default_config laser_msg_first s in
  let u := message_pose rpy_zero laser_msg_first in
  lidarMeasure (lidar s1) = u
  /\ exists G,
       jacobian_lidar_measurement u (vzero 6) 0.1 = Some G
       /\ In (PublishIndirect
                (Some (vdiv_const (pose_diff u (vzero 6)) 0.1))
                (Some (mmul (mmul G (E_lidar (lidar s1))) (transpose G))))
             (snd (run_iteration default_config 0.02 s1))
       /\ retained (fst (run_iteration default_config 0.02 s1))
          = (u, E_lidar (lidar s1)).
Proof.
  exact (proj2 (proj2 (proj2 (proj2 (proj2
           (retained_lidar_pose rpy_zero default_config)))))
           eq_refl eq_refl 0 [WheelIn wheel_msg_unit_cov] laser_msg_first 0.02
           no_lidar_correction_yet).
Defined.

(** X10.  A scan that repeats gives a zero twist: when two lidar messages
    carry the same pose and each is followed by a pass of the loop, the
    first pass retains that pose and the second derives and publishes the
    zero twist from it. *)
Theorem repeated_scan_gives_zero_twist
    (getRPY : Quaternion -> R * R * R) (cfg : Config)
    (s : State) (m m' : Odometry) (dt1 dt2 : R) :
  enableFilter cfg = true -> enableLidar cfg = true ->
  length (lidarMeasure (lidar s)) = 6%nat ->
  message_pose getRPY m' = message_pose getRPY m ->
  cos (vget (message_pose getRPY m) 4) <> 0 ->
  let s1 := fst (run_iteration cfg dt1 (laserOdometryHandler getRPY cfg m s)) in
  lidarMeasureL (kf s1) = message_pose getRPY m
  /\ exists Q,
       In (PublishIndirect (Some (vzero 6)) Q)
          (snd (run_iteration cfg dt2 (laserOdometryHandler getRPY cfg m' s1))).
Proof. apply repeated_scan_pass. Qed.

Lemma repeated_scan_gives_zero_twist_witness :
  let s1 := fst (run_iteration default_config 0.02
                   (laserOdometryHandler rpy_zero default_config
                      laser_msg_first (initialization 0))) in
  lidarMeasureL (kf s1) = message_pose rpy_zero laser_msg_first
  /\ exists Q,
       In (PublishIndirect (Some (vzero 6)) Q)
          (snd (run_iteration default_config 0.03
                  (laserOdometryHandler rpy_zero default_config
                     laser_msg_again s1))).
Proof.
  exact (repeated_scan_gives_zero_twist rpy_zero default_config
           (initialization 0) laser_msg_first laser_msg_again 0.02 0.03
           eq_refl eq_refl eq_refl eq_refl cos_0_neq_0).
Defined.

(** ** A wheel message and the pass that follows it *)

Lemma wheel_innovation_of_entries (f g : nat -> nat -> R) :
  innovation_cov H_wheel (mk_mat 12 12 f) (mk_mat 2 2 g)
  = [[f 6%nat 6%nat + g 0%nat 0%nat; f 6%nat 11%nat + g 0%nat 1%nat];
     [f 11%nat 6%nat + g 1%nat 0%nat; f 11%nat 11%nat + g 1%nat 1%nat]].
Proof. eigen_unfold. repeat (f_equal; try ring). Qed.

Lemma wheel_innovation_entries (P0 E : Mat) :
  wf_mat 12 12 P0 -> wf_mat 2 2 E ->
  innovation_cov H_wheel P0 E
  = [[mget P0 6 6 + mget E 0 0; mget P0 6 11 + mget E 0 1];
     [mget P0 11 6 + mget E 1 0; mget P0 11 11 + mget E 1 1]].
Proof.
  intros WP WE.
  transitivity (innovation_cov H_wheel (mk_mat 12 12 (mget P0))
                               (mk_mat 2 2 (mget E))).
  - now rewrite <- (mat_eta 12 12 P0 WP), <- (mat_eta 2 2 E WE).
  - apply wheel_innovation_of_entries.
Qed.

Lemma diagonal_inverse (a b : R) :
  a <> 0 -> b <> 0 ->
  is_inverse 2 [[a; 0]; [0; b]] [[/ a; 0]; [0; / b]].
Proof.
  intros Ha Hb. split; [split; [reflexivity|repeat constructor]|].
  split; eigen_unfold; repeat (f_equal; try (field; assumption)).
Qed.

Lemma wf_mat_2_2 (a b c d : R) : wf_mat 2 2 [[a; b]; [c; d]].
Proof. split; [reflexivity|repeat constructor]. Qed.

Lemma exec_two getRPY cfg ev1 ev2 s :
  fst (exec getRPY cfg [ev1; ev2] s)
  = fst (step getRPY cfg (fst (step getRPY cfg s ev1)) ev2).
Proof.
  simpl exec. destruct (step getRPY cfg s ev1) as [s1 o1].
  cbn [fst]. now destruct (step getRPY cfg s1 ev2) as [s2 o2].
Qed.

Section WheelPass.
Variable getRPY : Quaternion -> R * R * R.
Variable cfg : Config.
Hypothesis filter_on : enableFilter cfg = true.
Hypothesis wheel_on : enableWheel cfg = true.

(** The pass after a first wheel message: prediction, then the wheel
    correction, and nothing else touches the estimate. *)
Lemma first_wheel_pass_estimate imu_dt0 m dt_now :
  let s0 := wheelOdometryHandler cfg m (initialization imu_dt0) in
  est (kf (fst (run_iteration cfg dt_now s0)))
  = est (kf (fst (correction_wheel_stage 0.05
                    (fst (prediction_stage dt_now s0))))).
Proof.
  intros s0. unfold run_iteration, run_prediction. rewrite filter_on.
  destruct (prediction_stage dt_now s0) as [s1 o1] eqn:E1.
  assert (Hs1 : s1 = with_est s0 (est (kf s1))).
  { unfold prediction_stage in E1. injection E1 as <- _. reflexivity. }
  cbn [fst].
  assert (HI : imu_due cfg s1 = false).
  { rewrite Hs1. unfold imu_due. cbn. now rewrite !andb_false_r. }
  assert (HW : wheel_due cfg s1 = true).
  { rewrite Hs1. unfold wheel_due. cbn. now rewrite filter_on, wheel_on. }
  assert (Hdt : wheel_dt (wheel s1) = 0.05) by (rewrite Hs1; reflexivity).
  unfold run_imu. fold (imu_due cfg s1). rewrite HI.
  unfold run_wheel. fold (wheel_due cfg s1). rewrite HW, Hdt.
  destruct (correction_wheel_stage 0.05 s1) as [s2 o2] eqn:E2.
  assert (Hs2 : lidar (clear_wheelNew s2) = lidar (initialization imu_dt0)).
  { unfold correction_wheel_stage in E2. injection E2 as <- _.
    rewrite Hs1. reflexivity. }
  unfold run_lidar.
  rewrite Hs2. cbn [initialization lidar lidarActivated lidarNew].
  rewrite !andb_false_r. reflexivity.
Qed.

Lemma first_wheel_pass_defined imu_dt0 m dt_now :
  0 <= wheelG cfg * vget (twist_covariance m) 0 ->
  0 <= vget (twist_covariance m) 35 ->
  exists e,
    est (kf (fst (exec getRPY cfg [WheelIn m; Tick dt_now]
                    (initialization imu_dt0)))) = Some e.
Proof.
  intros Hc0 Hc35. rewrite exec_two. cbn [step fst].
  set (s0 := wheelOdometryHandler cfg m (initialization imu_dt0)).
  pose proof (first_wheel_pass_estimate imu_dt0 m dt_now) as Hpass.
  fold s0 in Hpass. rewrite Hpass. clear Hpass.
  assert (He0 : est (kf s0) = Some {| X := vzero 12; P := P_init |})
    by reflexivity.
  destruct (prediction_stage_defined dt_now s0 _ He0 eq_refl
              cos_0_neq_0 cos_step_neq_0) as (F & HF & He1).
  cbn [X P] in HF, He1.
  pose proof (jacobian_state_wf _ _ _ HF) as WF.
  set (P1 := madd (mmul (mmul F P_init) (transpose F)) (E_pred (kf s0))) in *.
  assert (WP1 : wf_mat 12 12 P1)
    by (apply wf_covariance_propagation; exact WF).
  assert (Hrows : forall a b, (6 <= a < 12)%nat -> (b < 12)%nat ->
                              mget F a b = if Nat.eqb a b then 1 else 0).
  { intros a b Ha Hb.
    now apply (jacobian_state_velocity_rows (vzero 12) dt_now). }
  assert (B : forall i j, (6 <= i < 12)%nat -> (6 <= j < 12)%nat ->
                          mget P1 i j
                          = mget P_init i j + mget (E_pred (kf s0)) i j).
  { intros i j Hi Hj. unfold P1.
    apply covariance_velocity_block; try assumption. exact wf_P_init. }
  set (s1 := fst (prediction_stage dt_now s0)) in *.
  assert (HE : E_wheel (wheel s1)
               = [[wheelG cfg * vget (twist_covariance m) 0; 0];
                  [0; 100 * vget (twist_covariance m) 35]])
    by reflexivity.
  set (a := 0.1 + 0.01 * 0.1 + wheelG cfg * vget (twist_covariance m) 0).
  set (b := 0.1 + 0.01 * 0.1 + 100 * vget (twist_covariance m) 35).
  assert (HS : innovation_cov H_wheel P1 (E_wheel (wheel s1))
               = [[a; 0]; [0; b]]).
  { rewrite wheel_innovation_entries; [|exact WP1|rewrite HE; apply wf_mat_2_2].
    rewrite !B by lia. rewrite HE. unfold a, b.
    assert (E66 : mget P_init 6 6 = 0.1) by reflexivity.
    assert (E611 : mget P_init 6 11 = 0) by reflexivity.
    assert (E116 : mget P_init 11 6 = 0) by reflexivity.
    assert (E1111 : mget P_init 11 11 = 0.1) by reflexivity.
    assert (Q66 : mget (E_pred (kf s0)) 6 6 = 0.01 * 0.1) by reflexivity.
    assert (Q611 : mget (E_pred (kf s0)) 6 11 = 0.01 * 0) by reflexivity.
    assert (Q116 : mget (E_pred (kf s0)) 11 6 = 0.01 * 0) by reflexivity.
    assert (Q1111 : mget (E_pred (kf s0)) 11 11 = 0.01 * 0.1) by reflexivity.
    rewrite E66, E611, E116, E1111, Q66, Q611, Q116, Q1111.
    cbv [mget nth]. repeat (f_equal; try ring). }
  assert (Ha : a <> 0) by (unfold a; lra).
  assert (Hb : b <> 0) by (unfold b; lra).
  assert (HSi : inverse (innovation_cov H_wheel P1 (E_wheel (wheel s1)))
                = Some [[/ a; 0]; [0; / b]]).
  { rewrite HS. apply (inverse_unique 2); [apply wf_mat_2_2|lia|].
    now apply diagonal_inverse. }
  unfold correction_wheel_stage. cbn [fst with_est kf est].
  rewrite He1. cbn [bind P].
  change (madd (mmul (mmul (mset (mset (mzero N_WHEEL N_STATES) 0 6 1) 1 11 1)
                           P1)
                     (transpose (mset (mset (mzero N_WHEEL N_STATES) 0 6 1)
                                      1 11 1)))
               (E_wheel (wheel s1)))
    with (innovation_cov H_wheel P1 (E_wheel (wheel s1))).
  rewrite HSi. cbn [bind]. eexists. reflexivity.
Qed.

End WheelPass.

Lemma unit_cov_scaled :
  0 <= wheelG default_config * vget (twist_covariance wheel_msg_unit_cov) 0.
Proof. cbv [wheelG default_config twist_covariance wheel_msg_unit_cov repeat vget nth]. lra. Qed.

Lemma unit_cov_nonneg : 0 <= vget (twist_covariance wheel_msg_unit_cov) 35.
Proof. cbv [twist_covariance wheel_msg_unit_cov repeat vget nth]. lra. Qed.

Lemma covariance_stays_symmetric_witness :
  exists e,
    est (kf (fst (exec rpy_zero default_config
                    [WheelIn wheel_msg_unit_cov; Tick 0.1]
                    (initialization 0)))) = Some e
    /\ transpose (P e) = P e.
Proof.
  destruct (first_wheel_pass_defined rpy_zero default_config eq_refl eq_refl
              0 wheel_msg_unit_cov 0.1 unit_cov_scaled unit_cov_nonneg)
    as [e He].
  exists e. split; [exact He|].
  exact (covariance_stays_symmetric rpy_zero default_config
           [WheelIn wheel_msg_unit_cov; Tick 0.1] 0 e
           (Forall_cons (WheelIn wheel_msg_unit_cov) I
              (Forall_cons (Tick 0.1) I (Forall_nil _)))
           He).
Defined.
